(** * Hero roulette: the spin engine of [src/components/HeroRoulette.tsx]

    A shallow embedding of the roulette animation and selection engine:
    [shuffleList], [buildLoopedHeroes], [mapProgressToDistance],
    [measureHeroSlotWidth], [applyVisualOffset], [spinRoulette] with its
    per-frame callback [step], and [resetRoulette].

    JavaScript numbers are modelled by exact rationals ([Q]); the only
    non-finite value the engine could produce, the [NaN] of a remainder by
    zero, is kept as a separate constructor.  [Math.random] is an oracle
    stored in the state, the display-refresh queue of the browser is a list
    of pending callbacks of [step], and the calls to the two sound functions
    are recorded in order.  The two effects of the component that follow
    the winner, the one that clears a banned winner and the one that
    re-centres the idle strip, are the functions [dropBannedSelection] and
    [idleRecentre]; the statements on the winner of a spin say what these
    effects do with it. *)

From Stdlib Require Import QArith Qround Qminmax Qabs Lqa ZArith Lia.
From stdpp Require Import gmap strings list sorting.

Local Open Scope Q_scope.

(** ** JavaScript numbers *)

Inductive number : Type :=
  | Num (q : Q)
  | NaN.

Definition Qlt_bool (a b : Q) : bool := negb (Qle_bool b a).

(** Rounding towards zero, the quotient used by the [%] operator. *)
Definition Qtrunc (x : Q) : Z := Z.quot (Qnum x) (Zpos (Qden x)).

(** [a % b]: the remainder takes the sign of the dividend; [NaN] when the
    divisor is zero. *)
Definition jsRem (a b : Q) : number :=
  if Qeq_bool b 0 then NaN else Num (a - b * inject_Z (Qtrunc (a / b))).

(** [array[i]] for a possibly out-of-range index: [undefined] is [None]. *)
Definition jsIndex {A : Type} (array : list A) (i : Z) : option A :=
  if (i <? 0)%Z then None else array !! Z.to_nat i.

(** ** Constants *)

Definition BASE_SPIN_DURATION : Q := 8200.
Definition SPIN_DURATION_PER_LOOP : Q := 1800.
Definition DEFAULT_HERO_SLOT_WIDTH : Q := 168.
Definition REPEAT_COUNT : nat := 6.

(** [Math.floor(REPEAT_COUNT / 2)] *)
Definition middleRepeatIndex : Z := Qfloor (inject_Z (Z.of_nat REPEAT_COUNT) / 2).

(** ** Easing *)

Definition mapProgressToDistance (progress : Q) : Q :=
  if Qle_bool progress 0 then 0
  else if Qle_bool 1 progress then 1
  else
    let clamped := Qmin (Qmax progress 0) 1 in
    if Qlt_bool clamped (1 # 2) then 16 * clamped ^ 5
    else
      let mirrored := -(2) * clamped + 2 in
      1 - mirrored ^ 5 / 2.

(** ** Offset normalisation (the arithmetic of [applyVisualOffset]) *)

(** [((rawOffset % loopWidth) + loopWidth) % loopWidth] *)
Definition offsetWithinLoop (rawOffset loopWidth : Q) : number :=
  match jsRem rawOffset loopWidth with
  | Num r => jsRem (r + loopWidth) loopWidth
  | NaN => NaN
  end.

(** [offsetWithinLoop - middleRepeatIndex * loopWidth] *)
Definition visualOffset (rawOffset loopWidth : Q) : number :=
  match offsetWithinLoop rawOffset loopWidth with
  | Num o => Num (o - inject_Z middleRepeatIndex * loopWidth)
  | NaN => NaN
  end.

(** ** Data model *)

Inductive HeroRole : Type :=
  | carry | mid | offlane | soft_support | hard_support.

Global Instance HeroRole_eq_dec : EqDecision HeroRole.
Proof. solve_decision. Defined.

(** [types/index.ts]: the [id] field is [heroId] here. *)
Record Hero : Type := {
  heroId : string;
  name : string;
  displayName : string;
  cdnName : string
}.

Global Instance Hero_eq_dec : EqDecision Hero.
Proof. solve_decision. Defined.

(** What [measureHeroSlotWidth] reads from the first rendered slot:
    [getBoundingClientRect().width] and the two parsed margins. *)
Record Box : Type := {
  rectWidth : Q;
  marginLeft : Q;
  marginRight : Q
}.

(** The strip element behind [rouletteRef]: the last [translate3d] abscissa
    written to [style.transform], and its first [.roulette-hero] child. *)
Record Element : Type := {
  transform : option number;
  firstHero : option Box
}.

(** Calls of [playTickSound(speedRatio)] and [playWinSound()]. *)
Inductive Sound : Type :=
  | Tick (speedRatio : Q)
  | Win.

(** The closure of [step]: the constants of one [spinRoulette] call and the
    two variables the callback mutates, [animationStart] and
    [lastHeroIndex]. *)
Module Step.
Record closure : Type := {
  shuffledHeroes : list Hero;
  slotWidth : Q;
  randomIndex : Z;
  extraLoops : Z;
  randomHero : option Hero;
  spinDuration : Q;
  startOffset : Q;
  finalOffset : Q;
  totalDistance : Q;
  animationStart : Q;
  lastHeroIndex : Z
}.
End Step.

(** The component: React state, refs, and the parts of the host it talks
    to.  [rafQueue] holds the pending [step] callbacks registered with
    [requestAnimationFrame] under their handles; the one-shot callbacks of
    the layout effects (re-centring when idle, measuring on resize) start no
    loop and are left out.  Handles are positive, hence truthy. *)
Record Roulette : Type := {
  heroes : list Hero;
  selectedRoles : list HeroRole;
  bannedHeroIds : gset string;
  heroesRolesMap : gmap string (list HeroRole);
  isSpinning : bool;
  selectedHero : option Hero;
  baseHeroesState : list Hero;
  heroSlotWidth : Q;
  rouletteRef : option Element;
  animationFrameRef : option positive;
  isSpinningRef : bool;
  heroSlotWidthRef : Q;
  baseHeroesRef : list Hero;
  virtualOffsetRef : Q;
  rand : nat -> Q;
  randPos : nat;
  rafQueue : list (positive * Step.closure);
  rafNext : positive;
  sounds : list Sound
}.

Definition set_selectedRoles (v : list HeroRole) (s : Roulette) : Roulette :=
  {| heroes := heroes s; selectedRoles := v; bannedHeroIds := bannedHeroIds s;
     heroesRolesMap := heroesRolesMap s; isSpinning := isSpinning s;
     selectedHero := selectedHero s; baseHeroesState := baseHeroesState s;
     heroSlotWidth := heroSlotWidth s; rouletteRef := rouletteRef s;
     animationFrameRef := animationFrameRef s;
     isSpinningRef := isSpinningRef s; heroSlotWidthRef := heroSlotWidthRef s;
     baseHeroesRef := baseHeroesRef s; virtualOffsetRef := virtualOffsetRef s;
     rand := rand s; randPos := randPos s; rafQueue := rafQueue s;
     rafNext := rafNext s; sounds := sounds s |}.

Definition set_bannedHeroIds (v : gset string) (s : Roulette) : Roulette :=
  {| heroes := heroes s; selectedRoles := selectedRoles s; bannedHeroIds := v;
     heroesRolesMap := heroesRolesMap s; isSpinning := isSpinning s;
     selectedHero := selectedHero s; baseHeroesState := baseHeroesState s;
     heroSlotWidth := heroSlotWidth s; rouletteRef := rouletteRef s;
     animationFrameRef := animationFrameRef s;
     isSpinningRef := isSpinningRef s; heroSlotWidthRef := heroSlotWidthRef s;
     baseHeroesRef := baseHeroesRef s; virtualOffsetRef := virtualOffsetRef s;
     rand := rand s; randPos := randPos s; rafQueue := rafQueue s;
     rafNext := rafNext s; sounds := sounds s |}.

Definition set_isSpinning (v : bool) (s : Roulette) : Roulette :=
  {| heroes := heroes s; selectedRoles := selectedRoles s;
     bannedHeroIds := bannedHeroIds s; heroesRolesMap := heroesRolesMap s;
     isSpinning := v; selectedHero := selectedHero s;
     baseHeroesState := baseHeroesState s; heroSlotWidth := heroSlotWidth s;
     rouletteRef := rouletteRef s; animationFrameRef := animationFrameRef s;
     isSpinningRef := isSpinningRef s; heroSlotWidthRef := heroSlotWidthRef s;
     baseHeroesRef := baseHeroesRef s; virtualOffsetRef := virtualOffsetRef s;
     rand := rand s; randPos := randPos s; rafQueue := rafQueue s;
     rafNext := rafNext s; sounds := sounds s |}.

Definition set_selectedHero (v : option Hero) (s : Roulette) : Roulette :=
  {| heroes := heroes s; selectedRoles := selectedRoles s;
     bannedHeroIds := bannedHeroIds s; heroesRolesMap := heroesRolesMap s;
     isSpinning := isSpinning s; selectedHero := v;
     baseHeroesState := baseHeroesState s; heroSlotWidth := heroSlotWidth s;
     rouletteRef := rouletteRef s; animationFrameRef := animationFrameRef s;
     isSpinningRef := isSpinningRef s; heroSlotWidthRef := heroSlotWidthRef s;
     baseHeroesRef := baseHeroesRef s; virtualOffsetRef := virtualOffsetRef s;
     rand := rand s; randPos := randPos s; rafQueue := rafQueue s;
     rafNext := rafNext s; sounds := sounds s |}.

Definition set_baseHeroesState (v : list Hero) (s : Roulette) : Roulette :=
  {| heroes := heroes s; selectedRoles := selectedRoles s;
     bannedHeroIds := bannedHeroIds s; heroesRolesMap := heroesRolesMap s;
     isSpinning := isSpinning s; selectedHero := selectedHero s;
     baseHeroesState := v; heroSlotWidth := heroSlotWidth s;
     rouletteRef := rouletteRef s; animationFrameRef := animationFrameRef s;
     isSpinningRef := isSpinningRef s; heroSlotWidthRef := heroSlotWidthRef s;
     baseHeroesRef := baseHeroesRef s; virtualOffsetRef := virtualOffsetRef s;
     rand := rand s; randPos := randPos s; rafQueue := rafQueue s;
     rafNext := rafNext s; sounds := sounds s |}.

Definition set_heroSlotWidth (v : Q) (s : Roulette) : Roulette :=
  {| heroes := heroes s; selectedRoles := selectedRoles s;
     bannedHeroIds := bannedHeroIds s; heroesRolesMap := heroesRolesMap s;
     isSpinning := isSpinning s; selectedHero := selectedHero s;
     baseHeroesState := baseHeroesState s; heroSlotWidth := v;
     rouletteRef := rouletteRef s; animationFrameRef := animationFrameRef s;
     isSpinningRef := isSpinningRef s; heroSlotWidthRef := heroSlotWidthRef s;
     baseHeroesRef := baseHeroesRef s; virtualOffsetRef := virtualOffsetRef s;
     rand := rand s; randPos := randPos s; rafQueue := rafQueue s;
     rafNext := rafNext s; sounds := sounds s |}.

Definition set_rouletteRef (v : option Element) (s : Roulette) : Roulette :=
  {| heroes := heroes s; selectedRoles := selectedRoles s;
     bannedHeroIds := bannedHeroIds s; heroesRolesMap := heroesRolesMap s;
     isSpinning := isSpinning s; selectedHero := selectedHero s;
     baseHeroesState := baseHeroesState s; heroSlotWidth := heroSlotWidth s;
     rouletteRef := v; animationFrameRef := animationFrameRef s;
     isSpinningRef := isSpinningRef s; heroSlotWidthRef := heroSlotWidthRef s;
     baseHeroesRef := baseHeroesRef s; virtualOffsetRef := virtualOffsetRef s;
     rand := rand s; randPos := randPos s; rafQueue := rafQueue s;
     rafNext := rafNext s; sounds := sounds s |}.

Definition set_animationFrameRef (v : option positive) (s : Roulette) : Roulette :=
  {| heroes := heroes s; selectedRoles := selectedRoles s;
     bannedHeroIds := bannedHeroIds s; heroesRolesMap := heroesRolesMap s;
     isSpinning := isSpinning s; selectedHero := selectedHero s;
     baseHeroesState := baseHeroesState s; heroSlotWidth := heroSlotWidth s;
     rouletteRef := rouletteRef s; animationFrameRef := v;
     isSpinningRef := isSpinningRef s; heroSlotWidthRef := heroSlotWidthRef s;
     baseHeroesRef := baseHeroesRef s; virtualOffsetRef := virtualOffsetRef s;
     rand := rand s; randPos := randPos s; rafQueue := rafQueue s;
     rafNext := rafNext s; sounds := sounds s |}.

Definition set_isSpinningRef (v : bool) (s : Roulette) : Roulette :=
  {| heroes := heroes s; selectedRoles := selectedRoles s;
     bannedHeroIds := bannedHeroIds s; heroesRolesMap := heroesRolesMap s;
     isSpinning := isSpinning s; selectedHero := selectedHero s;
     baseHeroesState := baseHeroesState s; heroSlotWidth := heroSlotWidth s;
     rouletteRef := rouletteRef s; animationFrameRef := animationFrameRef s;
     isSpinningRef := v; heroSlotWidthRef := heroSlotWidthRef s;
     baseHeroesRef := baseHeroesRef s; virtualOffsetRef := virtualOffsetRef s;
     rand := rand s; randPos := randPos s; rafQueue := rafQueue s;
     rafNext := rafNext s; sounds := sounds s |}.

Definition set_heroSlotWidthRef (v : Q) (s : Roulette) : Roulette :=
  {| heroes := heroes s; selectedRoles := selectedRoles s;
     bannedHeroIds := bannedHeroIds s; heroesRolesMap := heroesRolesMap s;
     isSpinning := isSpinning s; selectedHero := selectedHero s;
     baseHeroesState := baseHeroesState s; heroSlotWidth := heroSlotWidth s;
     rouletteRef := rouletteRef s; animationFrameRef := animationFrameRef s;
     isSpinningRef := isSpinningRef s; heroSlotWidthRef := v;
     baseHeroesRef := baseHeroesRef s; virtualOffsetRef := virtualOffsetRef s;
     rand := rand s; randPos := randPos s; rafQueue := rafQueue s;
     rafNext := rafNext s; sounds := sounds s |}.

Definition set_baseHeroesRef (v : list Hero) (s : Roulette) : Roulette :=
  {| heroes := heroes s; selectedRoles := selectedRoles s;
     bannedHeroIds := bannedHeroIds s; heroesRolesMap := heroesRolesMap s;
     isSpinning := isSpinning s; selectedHero := selectedHero s;
     baseHeroesState := baseHeroesState s; heroSlotWidth := heroSlotWidth s;
     rouletteRef := rouletteRef s; animationFrameRef := animationFrameRef s;
     isSpinningRef := isSpinningRef s; heroSlotWidthRef := heroSlotWidthRef s;
     baseHeroesRef := v; virtualOffsetRef := virtualOffsetRef s;
     rand := rand s; randPos := randPos s; rafQueue := rafQueue s;
     rafNext := rafNext s; sounds := sounds s |}.

Definition set_virtualOffsetRef (v : Q) (s : Roulette) : Roulette :=
  {| heroes := heroes s; selectedRoles := selectedRoles s;
     bannedHeroIds := bannedHeroIds s; heroesRolesMap := heroesRolesMap s;
     isSpinning := isSpinning s; selectedHero := selectedHero s;
     baseHeroesState := baseHeroesState s; heroSlotWidth := heroSlotWidth s;
     rouletteRef := rouletteRef s; animationFrameRef := animationFrameRef s;
     isSpinningRef := isSpinningRef s; heroSlotWidthRef := heroSlotWidthRef s;
     baseHeroesRef := baseHeroesRef s; virtualOffsetRef := v; rand := rand s;
     randPos := randPos s; rafQueue := rafQueue s; rafNext := rafNext s;
     sounds := sounds s |}.

Definition set_randPos (v : nat) (s : Roulette) : Roulette :=
  {| heroes := heroes s; selectedRoles := selectedRoles s;
     bannedHeroIds := bannedHeroIds s; heroesRolesMap := heroesRolesMap s;
     isSpinning := isSpinning s; selectedHero := selectedHero s;
     baseHeroesState := baseHeroesState s; heroSlotWidth := heroSlotWidth s;
     rouletteRef := rouletteRef s; animationFrameRef := animationFrameRef s;
     isSpinningRef := isSpinningRef s; heroSlotWidthRef := heroSlotWidthRef s;
     baseHeroesRef := baseHeroesRef s; virtualOffsetRef := virtualOffsetRef s;
     rand := rand s; randPos := v; rafQueue := rafQueue s;
     rafNext := rafNext s; sounds := sounds s |}.

Definition set_rafQueue (v : list (positive * Step.closure)) (s : Roulette) : Roulette :=
  {| heroes := heroes s; selectedRoles := selectedRoles s;
     bannedHeroIds := bannedHeroIds s; heroesRolesMap := heroesRolesMap s;
     isSpinning := isSpinning s; selectedHero := selectedHero s;
     baseHeroesState := baseHeroesState s; heroSlotWidth := heroSlotWidth s;
     rouletteRef := rouletteRef s; animationFrameRef := animationFrameRef s;
     isSpinningRef := isSpinningRef s; heroSlotWidthRef := heroSlotWidthRef s;
     baseHeroesRef := baseHeroesRef s; virtualOffsetRef := virtualOffsetRef s;
     rand := rand s; randPos := randPos s; rafQueue := v;
     rafNext := rafNext s; sounds := sounds s |}.

Definition set_rafNext (v : positive) (s : Roulette) : Roulette :=
  {| heroes := heroes s; selectedRoles := selectedRoles s;
     bannedHeroIds := bannedHeroIds s; heroesRolesMap := heroesRolesMap s;
     isSpinning := isSpinning s; selectedHero := selectedHero s;
     baseHeroesState := baseHeroesState s; heroSlotWidth := heroSlotWidth s;
     rouletteRef := rouletteRef s; animationFrameRef := animationFrameRef s;
     isSpinningRef := isSpinningRef s; heroSlotWidthRef := heroSlotWidthRef s;
     baseHeroesRef := baseHeroesRef s; virtualOffsetRef := virtualOffsetRef s;
     rand := rand s; randPos := randPos s; rafQueue := rafQueue s;
     rafNext := v; sounds := sounds s |}.

Definition set_sounds (v : list Sound) (s : Roulette) : Roulette :=
  {| heroes := heroes s; selectedRoles := selectedRoles s;
     bannedHeroIds := bannedHeroIds s; heroesRolesMap := heroesRolesMap s;
     isSpinning := isSpinning s; selectedHero := selectedHero s;
     baseHeroesState := baseHeroesState s; heroSlotWidth := heroSlotWidth s;
     rouletteRef := rouletteRef s; animationFrameRef := animationFrameRef s;
     isSpinningRef := isSpinningRef s; heroSlotWidthRef := heroSlotWidthRef s;
     baseHeroesRef := baseHeroesRef s; virtualOffsetRef := virtualOffsetRef s;
     rand := rand s; randPos := randPos s; rafQueue := rafQueue s;
     rafNext := rafNext s; sounds := v |}.

(** ** Host primitives *)

(** [Math.random()]: the next value of the oracle. *)
Definition Math_random (s : Roulette) : Q * Roulette :=
  (rand s (randPos s), set_randPos (S (randPos s)) s).

(** [requestAnimationFrame(step)] followed by the assignment of the handle
    to [animationFrameRef.current]. *)
Definition requestAnimationFrame (cb : Step.closure) (s : Roulette) : Roulette :=
  let handle := rafNext s in
  set_animationFrameRef (Some handle)
    (set_rafNext (Pos.succ handle) (set_rafQueue (rafQueue s ++ [(handle, cb)]) s)).

Definition cancelAnimationFrame (handle : positive) (s : Roulette) : Roulette :=
  set_rafQueue (filter (fun entry => entry.1 <> handle) (rafQueue s)) s.

(** The sound functions are recorded by their calls; whether a buffer is
    loaded only decides if the call is audible. *)
Definition playTickSound (speedRatio : Q) (s : Roulette) : Roulette :=
  set_sounds (sounds s ++ [Tick speedRatio]) s.

Definition playWinSound (s : Roulette) : Roulette :=
  set_sounds (sounds s ++ [Win]) s.

(** ** Pool and strip *)

(** [[array[i], array[j]] = [array[j], array[i]]].  Both indices are inside
    the array whenever it is called by [shuffleList] with a draw of
    [Math.random] in [0, 1) (lemma [shuffle_index_in_range]); outside it the
    list is left as it is. *)
Definition swap {A : Type} (i j : nat) (array : list A) : list A :=
  match array !! i, array !! j with
  | Some x, Some y => <[j:=x]> (<[i:=y]> array)
  | _, _ => array
  end.

(** The loop of [shuffleList], from index [i] down to 1; [pos] is the
    position in the oracle. *)
Fixpoint shuffleLoop {A : Type} (rnd : nat -> Q) (pos : nat) (i : nat)
    (array : list A) : list A * nat :=
  match i with
  | O => (array, pos)
  | S i' =>
      let j := Qfloor (rnd pos * inject_Z (Z.of_nat i + 1)) in
      shuffleLoop rnd (S pos) i' (swap i (Z.to_nat j) array)
  end.

Definition shuffleList {A : Type} (rnd : nat -> Q) (pos : nat)
    (source : list A) : list A * nat :=
  shuffleLoop rnd pos (length source - 1) source.

Definition buildLoopedHeroes (base : list Hero) : list Hero :=
  if (length base =? 0)%nat then [] else mjoin (replicate REPEAT_COUNT base).

(** The [useMemo] that filters the catalog by the selected roles and the
    ban list. *)
Definition activeHeroes (s : Roulette) : list Hero :=
  let baseList :=
    if (length (selectedRoles s) =? 0)%nat then heroes s
    else
      filter (fun hero =>
                let heroRolesList := default [] (heroesRolesMap s !! displayName hero) in
                Exists (fun role => role ∈ selectedRoles s) heroRolesList)
             (heroes s) in
  if (size (bannedHeroIds s) =? 0)%nat then baseList
  else filter (fun hero => heroId hero ∉ bannedHeroIds s) baseList.

(** [activeHeroes.length > 0 ? activeHeroes : heroes], the source list of
    [spinRoulette], [resetRoulette] and the rebuild effect. *)
Definition availableHeroes (s : Roulette) : list Hero :=
  if (0 <? length (activeHeroes s))%nat then activeHeroes s else heroes s.

Definition loopedHeroes (s : Roulette) : list Hero :=
  buildLoopedHeroes (baseHeroesState s).

(** [-(middleRepeatIndex * safeHeroCount * heroSlotWidth)] *)
Definition initialOffset (s : Roulette) : Q :=
  let activeHeroCount := Z.of_nat (length (activeHeroes s)) in
  let safeHeroCount := Z.max activeHeroCount 1 in
  - (inject_Z middleRepeatIndex * inject_Z safeHeroCount * heroSlotWidth s).

(** Shuffle a source list with the oracle of the state and commit it to
    [baseHeroesRef] and [baseHeroesState]. *)
Definition commitShuffled (source : list Hero) (s : Roulette) : Roulette :=
  let '(shuffled, pos) := shuffleList (rand s) (randPos s) source in
  set_baseHeroesState shuffled (set_baseHeroesRef shuffled (set_randPos pos s)).

(** ** Geometry *)

Definition measureHeroSlotWidth (s : Roulette) : Roulette :=
  match rouletteRef s with
  | None => s
  | Some el =>
      match firstHero el with
      | None => s
      | Some rect =>
          if Qeq_bool (rectWidth rect) 0 then s
          else
            let computedWidth := rectWidth rect + marginLeft rect + marginRight rect in
            if Qle_bool computedWidth 0 then s
            else if Qle_bool (Qabs (computedWidth - heroSlotWidthRef s)) (1 # 2) then s
            else set_heroSlotWidth computedWidth (set_heroSlotWidthRef computedWidth s)
      end
  end.

Definition setTransform (v : number) (s : Roulette) : Roulette :=
  match rouletteRef s with
  | None => s
  | Some el =>
      set_rouletteRef (Some {| transform := Some v; firstHero := firstHero el |}) s
  end.

Definition applyVisualOffset (rawOffset : Q) (s : Roulette) : Roulette :=
  let s := set_virtualOffsetRef rawOffset s in
  let slotWidth := heroSlotWidthRef s in
  let baseLength := length (baseHeroesRef s) in
  match rouletteRef s with
  | None => s
  | Some _ =>
      if Qeq_bool slotWidth 0 || (baseLength =? 0)%nat then
        setTransform (Num rawOffset) s
      else
        let loopWidth := inject_Z (Z.of_nat baseLength) * slotWidth in
        setTransform (visualOffset rawOffset loopWidth) s
  end.

(** The abscissa last written to the strip, if any. *)
Definition appliedOffset (s : Roulette) : option number :=
  match rouletteRef s with
  | None => None
  | Some el => transform el
  end.

(** ** The spin controller *)

(** The choice of [randomIndex]: one draw, and when it is 0 in a pool of
    more than one hero, a second draw that decides (below 0.35) whether a
    third draw replaces it by an index from 1 on. *)
Definition pickRandomIndex (availableCount : Z) (s : Roulette) : Z * Roulette :=
  let '(r1, s) := Math_random s in
  let randomIndex := Qfloor (r1 * inject_Z availableCount) in
  if (1 <? availableCount)%Z && (randomIndex =? 0)%Z then
    let '(r2, s) := Math_random s in
    if Qlt_bool r2 (35 # 100) then
      let '(r3, s) := Math_random s in
      ((1 + Qfloor (r3 * inject_Z (availableCount - 1)))%Z, s)
    else (randomIndex, s)
  else (randomIndex, s).

Definition spinRoulette (s : Roulette) : Roulette :=
  if isSpinningRef s then s
  else
    let s :=
      match animationFrameRef s with
      | Some handle => set_animationFrameRef None (cancelAnimationFrame handle s)
      | None => s
      end in
    let s := set_isSpinningRef true s in
    let s := set_isSpinning true s in
    let s := set_selectedHero None s in
    let s := measureHeroSlotWidth s in
    let slotWidth := heroSlotWidthRef s in
    let s := commitShuffled (availableHeroes s) s in
    let shuffledHeroes := baseHeroesRef s in
    let availableCount := Z.of_nat (length shuffledHeroes) in
    if (availableCount =? 0)%Z then
      set_isSpinning false (set_isSpinningRef false s)
    else
      let '(randomIndex, s) := pickRandomIndex availableCount s in
      let startOffset :=
        - (inject_Z middleRepeatIndex * inject_Z availableCount * slotWidth) in
      let s := applyVisualOffset startOffset s in
      let baselineIndex := (middleRepeatIndex * availableCount)%Z in
      let '(r, s) := Math_random s in
      let extraLoops := (2 + Qfloor (r * 4))%Z in
      let randomHero := jsIndex shuffledHeroes randomIndex in
      let spinDuration :=
        BASE_SPIN_DURATION + inject_Z extraLoops * SPIN_DURATION_PER_LOOP in
      let targetIndex :=
        (baselineIndex + extraLoops * availableCount + randomIndex)%Z in
      let finalOffset := - (inject_Z targetIndex * slotWidth) in
      let totalDistance := finalOffset - startOffset in
      requestAnimationFrame
        {| Step.shuffledHeroes := shuffledHeroes;
           Step.slotWidth := slotWidth;
           Step.randomIndex := randomIndex;
           Step.extraLoops := extraLoops;
           Step.randomHero := randomHero;
           Step.spinDuration := spinDuration;
           Step.startOffset := startOffset;
           Step.finalOffset := finalOffset;
           Step.totalDistance := totalDistance;
           Step.animationStart := 0;
           Step.lastHeroIndex := (-1)%Z |} s.

(** [animationStart] as [step] leaves it: set from the timestamp while it
    is still falsy. *)
Definition startOf (timestamp : Q) (cb : Step.closure) : Q :=
  if Qeq_bool (Step.animationStart cb) 0 then timestamp
  else Step.animationStart cb.

(** [Math.min(elapsed / spinDuration, 1)] *)
Definition progressAt (timestamp : Q) (cb : Step.closure) : Q :=
  let elapsed := timestamp - startOf timestamp cb in
  Qmin (elapsed / Step.spinDuration cb) 1.

Definition currentOffsetAt (timestamp : Q) (cb : Step.closure) : Q :=
  Step.startOffset cb
  + Step.totalDistance cb * mapProgressToDistance (progressAt timestamp cb).

(** The slot under the pointer, [((rawIndex % baseLength) + baseLength) %
    baseLength]. *)
Definition heroIndexAt (timestamp : Q) (cb : Step.closure) : Z :=
  let baseLength := Z.of_nat (length (Step.shuffledHeroes cb)) in
  let rawIndex := Qfloor (- currentOffsetAt timestamp cb / Step.slotWidth cb) in
  Z.rem (Z.rem rawIndex baseLength + baseLength) baseLength.

(** One call of the frame callback [step(timestamp)]. *)
Definition step (timestamp : Q) (cb : Step.closure) (s : Roulette) : Roulette :=
  let animationStart := startOf timestamp cb in
  let progress := progressAt timestamp cb in
  let currentOffset := currentOffsetAt timestamp cb in
  let s := applyVisualOffset currentOffset s in
  let baseLength := length (Step.shuffledHeroes cb) in
  let '(lastHeroIndex, s) :=
    if Qlt_bool 0 (Step.slotWidth cb) && (0 <? baseLength)%nat then
      let heroIndex := heroIndexAt timestamp cb in
      if (heroIndex =? Step.lastHeroIndex cb)%Z then (Step.lastHeroIndex cb, s)
      else
        let speedRatio := Qmax (5 # 100) (1 - progress) in
        (heroIndex, playTickSound speedRatio s)
    else (Step.lastHeroIndex cb, s) in
  if Qlt_bool progress 1 then
    requestAnimationFrame
      {| Step.shuffledHeroes := Step.shuffledHeroes cb;
         Step.slotWidth := Step.slotWidth cb;
         Step.randomIndex := Step.randomIndex cb;
         Step.extraLoops := Step.extraLoops cb;
         Step.randomHero := Step.randomHero cb;
         Step.spinDuration := Step.spinDuration cb;
         Step.startOffset := Step.startOffset cb;
         Step.finalOffset := Step.finalOffset cb;
         Step.totalDistance := Step.totalDistance cb;
         Step.animationStart := animationStart;
         Step.lastHeroIndex := lastHeroIndex |} s
  else
    let s := set_animationFrameRef None s in
    let s := set_isSpinningRef false s in
    let s := set_isSpinning false s in
    let s := applyVisualOffset (Step.finalOffset cb) s in
    let s := set_selectedHero (Step.randomHero cb) s in
    playWinSound s.

Definition resetRoulette (s : Roulette) : Roulette :=
  let offset := initialOffset s in
  let s := set_selectedHero None s in
  let s := commitShuffled (availableHeroes s) s in
  applyVisualOffset offset s.

(** The effect on [[activeHeroes, heroes]] that rebuilds the strip. *)
Definition rebuildPool (s : Roulette) : Roulette :=
  commitShuffled (availableHeroes s) s.

(** The two filter handlers, each followed by the rebuild effect its state
    change triggers. *)
Definition toggleRole (role : HeroRole) (s : Roulette) : Roulette :=
  let prev := selectedRoles s in
  let next :=
    if bool_decide (role ∈ prev) then filter (fun r => r <> role) prev
    else prev ++ [role] in
  rebuildPool (set_selectedRoles next s).

Definition toggleHeroBan (id : string) (s : Roulette) : Roulette :=
  if isSpinning s then s
  else
    let prev := bannedHeroIds s in
    let next := if bool_decide (id ∈ prev) then prev ∖ {[id]} else prev ∪ {[id]} in
    rebuildPool (set_bannedHeroIds next s).

(** The clean-up of the mount effect. *)
Definition unmount (s : Roulette) : Roulette :=
  match animationFrameRef s with
  | Some handle => cancelAnimationFrame handle s
  | None => s
  end.

(** ** Effects that follow the winner *)

(** The effect on [[bannedHeroIds, selectedHero]]: a published winner that
    is banned is cleared.  Its guards depend on the state alone, so it can
    be run after any update. *)
Definition dropBannedSelection (s : Roulette) : Roulette :=
  match selectedHero s with
  | None => s
  | Some hero =>
      if bool_decide (heroId hero ∈ bannedHeroIds s) then set_selectedHero None s
      else s
  end.

(** The effect on [[initialOffset, applyVisualOffset, selectedHero]]: the
    offset it asks the next frame to apply, which is none while a spin is
    running or a winner is shown. *)
Definition idleRecentre (s : Roulette) : option Q :=
  if isSpinningRef s then None
  else
    match selectedHero s with
    | Some _ => None
    | None => Some (initialOffset s)
    end.

(** ** Frames and events *)

(** A display refresh: the callbacks pending at that moment are taken off
    the queue and called in order with the frame's timestamp. *)
Definition animationFrame (timestamp : Q) (s : Roulette) : Roulette :=
  fold_left (fun s entry => step timestamp entry.2 s) (rafQueue s)
            (set_rafQueue [] s).

Inductive event : Type :=
  | Spin
  | Frame (timestamp : Q)
  | Reset
  | ToggleRole (role : HeroRole)
  | ToggleHeroBan (id : string)
  | Unmount.

Definition handle (e : event) (s : Roulette) : Roulette :=
  match e with
  | Spin => spinRoulette s
  | Frame timestamp => animationFrame timestamp s
  | Reset => resetRoulette s
  | ToggleRole role => toggleRole role s
  | ToggleHeroBan id => toggleHeroBan id s
  | Unmount => unmount s
  end.

Definition run (events : list event) (s : Roulette) : Roulette :=
  fold_left (fun s e => handle e s) events s.

(** The component after its first render and effects: nothing selected,
    default slot width, the strip mounted and filled by the rebuild
    effect. *)
Definition mount (catalog : list Hero) (roles : gmap string (list HeroRole))
    (strip : option Element) (rnd : nat -> Q) : Roulette :=
  let s :=
    {| heroes := catalog; selectedRoles := []; bannedHeroIds := ∅;
       heroesRolesMap := roles; isSpinning := false; selectedHero := None;
       baseHeroesState := []; heroSlotWidth := DEFAULT_HERO_SLOT_WIDTH;
       rouletteRef := strip; animationFrameRef := None;
       isSpinningRef := false; heroSlotWidthRef := DEFAULT_HERO_SLOT_WIDTH;
       baseHeroesRef := []; virtualOffsetRef := 0; rand := rnd; randPos := O;
       rafQueue := []; rafNext := 1%positive; sounds := [] |} in
  rebuildPool (set_virtualOffsetRef (initialOffset s) s).

(** The speed ratios of the recorded tick calls, in order. *)
Definition tickRatios (l : list Sound) : list Q :=
  omap (fun snd => match snd with Tick r => Some r | Win => None end) l.

(** ** Role mapping ([api/stratz.ts]) *)

(** [[...new Set(result)]]: the first occurrence of each element, in
    order. *)
Definition dedupe {A : Type} `{EqDecision A} (l : list A) : list A :=
  fold_left (fun acc x => if bool_decide (x ∈ acc) then acc else acc ++ [x]) l [].

(** [mapRoleIdToHeroRole].  [hasRole(role)] upper-cases a literal that is
    already upper case, so it is membership of the literal. *)
Definition mapRoleIdToHeroRole (roleIds : list string) : list HeroRole :=
  let hasRole (role : string) : bool := bool_decide (role ∈ roleIds) in
  let includes (r : HeroRole) (result : list HeroRole) : bool :=
    bool_decide (r ∈ result) in
  let result : list HeroRole := [] in
  let result := if hasRole "CARRY" then result ++ [carry] else result in
  let canBeMid :=
    (hasRole "NUKER" || hasRole "PUSHER")
    || (hasRole "CARRY" && (hasRole "NUKER" || hasRole "PUSHER")) in
  let result :=
    if canBeMid && negb (includes mid result) then result ++ [mid] else result in
  let canBeOfflane :=
    hasRole "INITIATOR"
    || (hasRole "DURABLE" && negb (hasRole "CARRY"))
    || (hasRole "INITIATOR" && hasRole "DURABLE") in
  let result :=
    if canBeOfflane && negb (includes offlane result) then result ++ [offlane]
    else result in
  let result :=
    if hasRole "SUPPORT" then
      let result :=
        if negb (includes hard_support result) then result ++ [hard_support]
        else result in
      let hasAggressiveRoles :=
        hasRole "DISABLER" || hasRole "NUKER" || hasRole "INITIATOR"
        || hasRole "PUSHER" in
      if hasAggressiveRoles then
        if negb (includes soft_support result) then result ++ [soft_support]
        else result
      else result
    else result in
  let result :=
    if hasRole "CARRY" && hasRole "INITIATOR" && negb (includes offlane result)
    then result ++ [offlane] else result in
  let result :=
    if hasRole "INITIATOR" && hasRole "PUSHER" && negb (hasRole "CARRY")
       && negb (includes mid result)
    then result ++ [mid] else result in
  let result :=
    if hasRole "DURABLE" && negb (hasRole "CARRY") && negb (hasRole "SUPPORT")
       && negb (hasRole "INITIATOR") && negb (hasRole "NUKER")
       && negb (hasRole "PUSHER") && negb (includes offlane result)
    then result ++ [offlane] else result in
  let result :=
    if (length result =? 0)%nat then
      if hasRole "CARRY" then result ++ [carry]
      else if hasRole "SUPPORT" then result ++ [hard_support]
      else if hasRole "NUKER" || hasRole "PUSHER" then result ++ [mid]
      else if hasRole "INITIATOR" || hasRole "DURABLE" then result ++ [offlane]
      else result
    else result in
  dedupe result.

(** ** Item filter ([filterItems]) *)

Record HeroStartingItem : Type := {
  itemId : Z;
  matchCount : Z;
  winCount : Z;
  winsAverage : Q
}.

(** A [Map<number, HeroStartingItem>] in insertion order. *)
Fixpoint mapGet (key : Z) (m : list (Z * HeroStartingItem)) : option HeroStartingItem :=
  match m with
  | [] => None
  | (k, v) :: rest => if (k =? key)%Z then Some v else mapGet key rest
  end.

(** [set] keeps the position of a key that is already present. *)
Fixpoint mapSet (key : Z) (value : HeroStartingItem)
    (m : list (Z * HeroStartingItem)) : list (Z * HeroStartingItem) :=
  match m with
  | [] => [(key, value)]
  | (k, v) :: rest =>
      if (k =? key)%Z then (key, value) :: rest else (k, v) :: mapSet key value rest
  end.

(** The stable [sort((a, b) => b.winsAverage - a.winsAverage)]: an item is
    placed after the items already there whose rate is at least its own. *)
Fixpoint insertByWinRate (x : HeroStartingItem) (sorted : list HeroStartingItem)
    : list HeroStartingItem :=
  match sorted with
  | [] => [x]
  | y :: rest =>
      if Qlt_bool (winsAverage y) (winsAverage x) then x :: y :: rest
      else y :: insertByWinRate x rest
  end.

Definition sortByWinRate (l : list HeroStartingItem) : list HeroStartingItem :=
  fold_left (fun acc x => insertByWinRate x acc) l [].

(** The body of the [forEach] of [filterItems]. *)
Definition keepBest (minWinRate : Q) (uniqueItems : list (Z * HeroStartingItem))
    (item : HeroStartingItem) : list (Z * HeroStartingItem) :=
  if Qle_bool minWinRate (winsAverage item) then
    match mapGet (itemId item) uniqueItems with
    | None => mapSet (itemId item) item uniqueItems
    | Some existing =>
        if (matchCount existing <? matchCount item)%Z
        then mapSet (itemId item) item uniqueItems
        else uniqueItems
    end
  else uniqueItems.

Definition filterItems (items : list HeroStartingItem) (minWinRate : Q)
    : list HeroStartingItem :=
  let uniqueItems := fold_left (keepBest minWinRate) items [] in
  sortByWinRate (map snd uniqueItems).

(** ** Team selection of the recommendation dialog *)

(** The two team lists of the dialog.  A handler is modelled on the lists
    of the latest render, which are the ones its guards read. *)
Record Teams : Type := {
  myTeamHeroes : list Hero;
  enemyTeamHeroes : list Hero
}.

(** [useState<Hero[]>([])], twice. *)
Definition initialTeams : Teams :=
  {| myTeamHeroes := []; enemyTeamHeroes := [] |}.

(** [list.some(h => h.id === hero.id)] *)
Definition someId (id : string) (team : list Hero) : bool :=
  existsb (fun h => bool_decide (heroId h = id)) team.

Definition addHeroToMyTeam (hero : Hero) (t : Teams) : Teams :=
  if (5 <=? length (myTeamHeroes t))%nat then t
  else if someId (heroId hero) (myTeamHeroes t) then t
  else if someId (heroId hero) (enemyTeamHeroes t) then t
  else {| myTeamHeroes := myTeamHeroes t ++ [hero];
          enemyTeamHeroes := enemyTeamHeroes t |}.

Definition removeHeroFromMyTeam (id : string) (t : Teams) : Teams :=
  {| myTeamHeroes := filter (fun h => heroId h <> id) (myTeamHeroes t);
     enemyTeamHeroes := enemyTeamHeroes t |}.

Definition addHeroToEnemyTeam (hero : Hero) (t : Teams) : Teams :=
  if (5 <=? length (enemyTeamHeroes t))%nat then t
  else if someId (heroId hero) (enemyTeamHeroes t) then t
  else if someId (heroId hero) (myTeamHeroes t) then t
  else {| myTeamHeroes := myTeamHeroes t;
          enemyTeamHeroes := enemyTeamHeroes t ++ [hero] |}.

Definition removeHeroFromEnemyTeam (id : string) (t : Teams) : Teams :=
  {| myTeamHeroes := myTeamHeroes t;
     enemyTeamHeroes := filter (fun h => heroId h <> id) (enemyTeamHeroes t) |}.

(** Opening the dialog: the selected hero alone in the user's team. *)
Definition openTeams (selected : Hero) : Teams :=
  {| myTeamHeroes := [selected]; enemyTeamHeroes := [] |}.

Inductive teamAction : Type :=
  | OpenDialog (selected : Hero)
  | AddMine (hero : Hero)
  | RemoveMine (id : string)
  | AddEnemy (hero : Hero)
  | RemoveEnemy (id : string).

Definition applyTeamAction (t : Teams) (a : teamAction) : Teams :=
  match a with
  | OpenDialog selected => openTeams selected
  | AddMine hero => addHeroToMyTeam hero t
  | RemoveMine id => removeHeroFromMyTeam id t
  | AddEnemy hero => addHeroToEnemyTeam hero t
  | RemoveEnemy id => removeHeroFromEnemyTeam id t
  end.

(** ** Sound parameters *)

(** The parameters [playTickSound] gives to the nodes of one tick, for a
    buffer of the given duration in seconds. *)
Record TickNodes : Type := {
  playbackRate : Q;
  gainStart : Q;
  gainTarget : Q;
  rampSeconds : Q;
  maxDuration : Q
}.

Definition tickNodes (speedRatio bufferDuration : Q) : TickNodes :=
  {| playbackRate := (8 # 10) + speedRatio * (35 # 100);
     gainStart := (18 # 100) + speedRatio * (8 # 100);
     gainTarget := 2 # 100;
     rampSeconds := 25 # 100;
     maxDuration := Qmin bufferDuration (35 # 100) |}.

(** ** Notions used in the statements *)

(** [baseLength * slotWidth] as [applyVisualOffset] computes it. *)
Definition loopWidthOf (s : Roulette) : Q :=
  inject_Z (Z.of_nat (length (baseHeroesRef s))) * heroSlotWidthRef s.

(** The contract of [Math.random]: every draw lies in [0, 1). *)
Definition unitOracle (rnd : nat -> Q) : Prop :=
  forall k, 0 <= rnd k /\ rnd k < 1.

(** The number of slots of the spin a closure belongs to. *)
Definition poolSize (cb : Step.closure) : Z :=
  Z.of_nat (length (Step.shuffledHeroes cb)).

(** The constants [spinRoulette] computes for one spin, as relations
    between the fields of the closure it hands to the first frame. *)
Definition closureShape (cb : Step.closure) : Prop :=
  let n := poolSize cb in
  Step.randomHero cb = jsIndex (Step.shuffledHeroes cb) (Step.randomIndex cb) /\
  Step.spinDuration cb
    = BASE_SPIN_DURATION + inject_Z (Step.extraLoops cb) * SPIN_DURATION_PER_LOOP /\
  Step.startOffset cb
    = - (inject_Z middleRepeatIndex * inject_Z n * Step.slotWidth cb) /\
  Step.finalOffset cb
    = - (inject_Z (middleRepeatIndex * n + Step.extraLoops cb * n
                   + Step.randomIndex cb) * Step.slotWidth cb) /\
  Step.totalDistance cb = Step.finalOffset cb - Step.startOffset cb /\
  Step.animationStart cb = 0 /\
  Step.lastHeroIndex cb = (-1)%Z.

(** The same with the ranges the two random choices fall in. *)
Definition freshClosure (cb : Step.closure) : Prop :=
  ((0 <= Step.randomIndex cb)%Z /\ (Step.randomIndex cb < poolSize cb)%Z) /\
  ((2 <= Step.extraLoops cb)%Z /\ (Step.extraLoops cb <= 5)%Z) /\
  closureShape cb.

(** The fields of the loop two states agree on when an operation does not
    touch the animation. *)
Definition sameLoop (s s' : Roulette) : Prop :=
  rafQueue s' = rafQueue s /\ rafNext s' = rafNext s /\
  animationFrameRef s' = animationFrameRef s /\
  isSpinningRef s' = isSpinningRef s /\ isSpinning s' = isSpinning s /\
  heroes s' = heroes s /\ sounds s' = sounds s.

(** The pending callbacks left after [spinRoulette] has cancelled the one
    recorded in [animationFrameRef]. *)
Definition afterCancel (s : Roulette) : list (positive * Step.closure) :=
  match animationFrameRef s with
  | Some handle => filter (fun entry => entry.1 <> handle) (rafQueue s)
  | None => rafQueue s
  end.

(** The tick [step] plays at a frame: none when the slot under the pointer
    is the one of the previous frame. *)
Definition tickOf (timestamp : Q) (cb : Step.closure) : list Sound :=
  if Qlt_bool 0 (Step.slotWidth cb) && (0 <? length (Step.shuffledHeroes cb))%nat then
    if (heroIndexAt timestamp cb =? Step.lastHeroIndex cb)%Z then []
    else [Tick (Qmax (5 # 100) (1 - progressAt timestamp cb))]
  else [].

(** The closure [step] registers for the next frame. *)
Definition nextClosure (timestamp : Q) (cb : Step.closure) : Step.closure :=
  {| Step.shuffledHeroes := Step.shuffledHeroes cb;
     Step.slotWidth := Step.slotWidth cb;
     Step.randomIndex := Step.randomIndex cb;
     Step.extraLoops := Step.extraLoops cb;
     Step.randomHero := Step.randomHero cb;
     Step.spinDuration := Step.spinDuration cb;
     Step.startOffset := Step.startOffset cb;
     Step.finalOffset := Step.finalOffset cb;
     Step.totalDistance := Step.totalDistance cb;
     Step.animationStart := startOf timestamp cb;
     Step.lastHeroIndex :=
       if Qlt_bool 0 (Step.slotWidth cb) && (0 <? length (Step.shuffledHeroes cb))%nat
       then
         if (heroIndexAt timestamp cb =? Step.lastHeroIndex cb)%Z
         then Step.lastHeroIndex cb
         else heroIndexAt timestamp cb
       else Step.lastHeroIndex cb |}.

(** Every pending frame callback is the one recorded in
    [animationFrameRef], and there is at most one. *)
Definition oneLoop (s : Roulette) : Prop :=
  (length (rafQueue s) <= 1)%nat /\
  forall entry, entry ∈ rafQueue s -> animationFrameRef s = Some entry.1.

(** A sequence of display refreshes. *)
Definition runFrames (timestamps : list Q) (s : Roulette) : Roulette :=
  fold_left (fun s timestamp => animationFrame timestamp s) timestamps s.

(** Timestamps that never go back. *)
Fixpoint nondecreasing (lo : Q) (timestamps : list Q) : Prop :=
  match timestamps with
  | [] => True
  | t :: rest => lo <= t /\ nondecreasing t rest
  end.

(** Ratios that never go up. *)
Fixpoint nonincreasing (hi : Q) (ratios : list Q) : Prop :=
  match ratios with
  | [] => True
  | r :: rest => r <= hi /\ nonincreasing r rest
  end.

(** Two closures of the same spin: they differ at most in the two variables
    [step] mutates. *)
Definition sameSpin (cb cb' : Step.closure) : Prop :=
  Step.shuffledHeroes cb' = Step.shuffledHeroes cb /\
  Step.slotWidth cb' = Step.slotWidth cb /\
  Step.randomIndex cb' = Step.randomIndex cb /\
  Step.extraLoops cb' = Step.extraLoops cb /\
  Step.randomHero cb' = Step.randomHero cb /\
  Step.spinDuration cb' = Step.spinDuration cb /\
  Step.startOffset cb' = Step.startOffset cb /\
  Step.finalOffset cb' = Step.finalOffset cb /\
  Step.totalDistance cb' = Step.totalDistance cb.

(** What [applyVisualOffset] writes for a raw offset when the strip is
    mounted. *)
Definition normalized (rawOffset : Q) (s : Roulette) : number :=
  if Qeq_bool (heroSlotWidthRef s) 0 || (length (baseHeroesRef s) =? 0)%nat
  then Num rawOffset
  else visualOffset rawOffset (loopWidthOf s).

(** The strip, the slot width and the base list as frames leave them. *)
Definition sameGeometry (s s' : Roulette) : Prop :=
  (is_Some (rouletteRef s') <-> is_Some (rouletteRef s)) /\
  heroSlotWidthRef s' = heroSlotWidthRef s /\
  baseHeroesRef s' = baseHeroesRef s /\
  heroes s' = heroes s.

(** The calls of [playWinSound] among recorded sounds. *)
Definition winCalls (l : list Sound) : list unit :=
  omap (fun snd => match snd with Win => Some tt | Tick _ => None end) l.

(** A component can only be spinning over a non-empty catalog. *)
Definition spinningHasPool (s : Roulette) : Prop :=
  isSpinningRef s = true -> heroes s <> [].

(** The roles [mapRoleIdToHeroRole] gives, written by the presence of the
    role ids CARRY, NUKER, PUSHER, INITIATOR, DURABLE, SUPPORT and
    DISABLER. *)
Definition rolesOf (hasCarry hasNuker hasPusher hasInitiator hasDurable
                    hasSupport hasDisabler : bool) : list HeroRole :=
  (if hasCarry then [carry] else [])
  ++ (if hasNuker || hasPusher then [mid] else [])
  ++ (if hasInitiator || (hasDurable && negb hasCarry) then [offlane] else [])
  ++ (if hasSupport then
        hard_support
        :: (if hasDisabler || hasNuker || hasInitiator || hasPusher
            then [soft_support] else [])
      else []).

(** Descending order of win rate. *)
Definition byWinRate (a b : HeroStartingItem) : Prop :=
  winsAverage b <= winsAverage a.

(** The invariants of the two teams of the dialog. *)
Definition teamsOk (t : Teams) : Prop :=
  (length (myTeamHeroes t) <= 5)%nat /\
  (length (enemyTeamHeroes t) <= 5)%nat /\
  NoDup (map heroId (myTeamHeroes t ++ enemyTeamHeroes t)).

(** The state mirrors of the refs, the positive slot width, and the strip
    as a shuffle of the current source list. *)
Definition inSync (s : Roulette) : Prop :=
  0 < heroSlotWidthRef s /\
  heroSlotWidth s = heroSlotWidthRef s /\
  baseHeroesState s = baseHeroesRef s /\
  isSpinning s = isSpinningRef s /\
  baseHeroesRef s ≡ₚ availableHeroes s.

(** ** Example components *)

Definition mkHero (id heroName : string) : Hero :=
  {| heroId := id; name := heroName; displayName := heroName; cdnName := heroName |}.

Definition Axe : Hero := mkHero "1" "Axe".
Definition Bane : Hero := mkHero "2" "Bane".
Definition Lina : Hero := mkHero "3" "Lina".

Definition demoStrip : Element := {| transform := None; firstHero := None |}.

(** Three heroes, no roles known, every draw of the oracle equal to 1/2. *)
Definition demo : Roulette :=
  mount [Axe; Bane; Lina] ∅ (Some demoStrip) (fun _ => 1 # 2).

(** The same component before the catalog has arrived. *)
Definition demoEmpty : Roulette :=
  mount [] ∅ (Some demoStrip) (fun _ => 1 # 2).

(** The demo component with an oracle that makes the first spin re-roll:
    the draws of the index choice, at positions 4, 5 and 6, are 0, 0.1 and
    0.9. *)
Definition demoReroll : Roulette :=
  mount [Axe; Bane; Lina] ∅ (Some demoStrip)
    (fun k => match k with
              | 4%nat => 0
              | 5%nat => 1 # 10
              | 6%nat => 9 # 10
              | _ => 1 # 2
              end).

(** The demo component after every hero has been banned. *)
Definition demoBanned : Roulette :=
  toggleHeroBan "3" (toggleHeroBan "2" (toggleHeroBan "1" demo)).

(** The demo component on a strip whose first slot is rendered 120 wide
    with margins of 10. *)
Definition demoNarrow : Roulette :=
  mount [Axe; Bane; Lina] ∅
    (Some {| transform := None;
             firstHero := Some {| rectWidth := 120; marginLeft := 10;
                                  marginRight := 10 |} |})
    (fun _ => 1 # 2).

(** * Proofs *)

(** The arithmetic stays folded under [cbn] and [simpl]. *)
#[local] Arguments Qfloor : simpl never.
#[local] Arguments Qmult : simpl never.
#[local] Arguments Qplus : simpl never.
#[local] Arguments Qminus : simpl never.
#[local] Arguments Qopp : simpl never.
#[local] Arguments Qdiv : simpl never.
#[local] Arguments Qinv : simpl never.
#[local] Arguments Qmin : simpl never.
#[local] Arguments Qmax : simpl never.
#[local] Arguments Qabs : simpl never.
#[local] Arguments Qpower : simpl never.
#[local] Arguments Qle_bool : simpl never.
#[local] Arguments Qeq_bool : simpl never.
#[local] Arguments Qlt_bool : simpl never.
#[local] Arguments inject_Z : simpl never.
#[local] Arguments Z.mul : simpl never.
#[local] Arguments Z.add : simpl never.
#[local] Arguments Z.sub : simpl never.
#[local] Arguments Z.rem : simpl never.
#[local] Arguments Z.of_nat : simpl never.
#[local] Arguments Z.to_nat : simpl never.
#[local] Arguments mapProgressToDistance : simpl never.
#[local] Arguments visualOffset : simpl never.
#[local] Arguments middleRepeatIndex : simpl never.
#[local] Arguments pickRandomIndex : simpl never.
#[local] Arguments shuffleList : simpl never.
#[local] Arguments availableHeroes : simpl never.
#[local] Arguments activeHeroes : simpl never.
#[local] Arguments runFrames : simpl never.

(** ** Arithmetic of [%] *)

Lemma Qtrunc_nonneg (x : Q) : 0 <= x -> Qtrunc x = Qfloor x.
Proof.
  destruct x as [n d]. unfold Qle, Qtrunc, Qfloor. simpl. intros H.
  apply Z.quot_div_nonneg; lia.
Qed.

Lemma Qtrunc_nonpos (x : Q) : x <= 0 -> Qtrunc x = Qceiling x.
Proof.
  destruct x as [n d]. unfold Qle, Qtrunc, Qceiling, Qfloor. simpl. intros H.
  rewrite <- (Z.opp_involutive n) at 1.
  rewrite Z.quot_opp_l by lia. f_equal.
  apply Z.quot_div_nonneg; lia.
Qed.

Lemma inject_Z_sub (x y : Z) : inject_Z (x - y) = inject_Z x - inject_Z y.
Proof.
  unfold Z.sub. rewrite inject_Z_plus, inject_Z_opp. reflexivity.
Qed.

Lemma Qdiv_cancel (a b : Q) : ~ b == 0 -> b * (a / b) == a.
Proof. intros Hb. field. exact Hb. Qed.

Lemma jsRem_pos (a b : Q) :
  0 < b ->
  exists r (k : Z),
    jsRem a b = Num r /\ a == r + inject_Z k * b /\ - b < r /\ r < b /\
    (0 <= a -> 0 <= r).
Proof.
  intros Hb. unfold jsRem.
  destruct (Qeq_bool b 0) eqn:E.
  { apply Qeq_bool_iff in E. lra. }
  exists (a - b * inject_Z (Qtrunc (a / b))), (Qtrunc (a / b)).
  split; [reflexivity|]. split; [ring|].
  assert (Hy : b * (a / b) == a) by (apply Qdiv_cancel; lra).
  set (y := a / b) in *.
  destruct (Qlt_le_dec y 0) as [Hneg | Hpos].
  - rewrite (Qtrunc_nonpos y) by lra.
    pose proof (Qle_ceiling y) as H1. pose proof (Qceiling_lt y) as H2.
    set (t := Qceiling y) in *.
    rewrite inject_Z_sub in H2. change (inject_Z 1) with 1 in H2.
    generalize dependent (inject_Z t). intros T H1 H2.
    assert (0 <= b * (T - y)) by (apply Qmult_le_0_compat; lra).
    assert (0 < b * (y - (T - 1))) by (apply Qmult_lt_0_compat; lra).
    assert (0 < b * (0 - y)) by (apply Qmult_lt_0_compat; lra).
    repeat split; lra.
  - rewrite (Qtrunc_nonneg y) by lra.
    pose proof (Qfloor_le y) as H1. pose proof (Qlt_floor y) as H2.
    set (t := Qfloor y) in *.
    rewrite inject_Z_plus in H2. change (inject_Z 1) with 1 in H2.
    generalize dependent (inject_Z t). intros T H1 H2.
    assert (0 <= b * (y - T)) by (apply Qmult_le_0_compat; lra).
    assert (0 < b * (T + 1 - y)) by (apply Qmult_lt_0_compat; lra).
    repeat split; lra.
Qed.

Lemma Qlt_bool_iff (a b : Q) : Qlt_bool a b = true <-> a < b.
Proof.
  unfold Qlt_bool. rewrite negb_true_iff.
  destruct (Qle_bool b a) eqn:E.
  - apply Qle_bool_iff in E. split; [discriminate | lra].
  - split; [intros _ | reflexivity].
    apply Qnot_le_lt. intros H. apply Qle_bool_iff in H. congruence.
Qed.

Lemma Qlt_bool_false (a b : Q) : Qlt_bool a b = false <-> b <= a.
Proof.
  unfold Qlt_bool. rewrite negb_false_iff. apply Qle_bool_iff.
Qed.

Lemma Qle_bool_false (a b : Q) : Qle_bool a b = false <-> b < a.
Proof.
  rewrite <- (negb_true_iff (Qle_bool a b)). apply (Qlt_bool_iff b a).
Qed.

(** Two residues of the same offset inside one loop coincide. *)
Lemma residue_unique (L o1 o2 : Q) (k1 k2 : Z) :
  0 < L -> 0 <= o1 -> o1 < L -> 0 <= o2 -> o2 < L ->
  o1 + inject_Z k1 * L == o2 + inject_Z k2 * L -> o1 == o2.
Proof.
  intros HL H1 H1' H2 H2' E.
  destruct (Z.lt_trichotomy k1 k2) as [Hlt | [-> | Hgt]].
  - assert (Hk : inject_Z (k1 + 1) <= inject_Z k2) by (rewrite <- Zle_Qle; lia).
    rewrite inject_Z_plus in Hk. change (inject_Z 1) with 1 in Hk.
    assert (0 <= L * (inject_Z k2 - inject_Z k1 - 1))
      by (apply Qmult_le_0_compat; lra).
    lra.
  - lra.
  - assert (Hk : inject_Z (k2 + 1) <= inject_Z k1) by (rewrite <- Zle_Qle; lia).
    rewrite inject_Z_plus in Hk. change (inject_Z 1) with 1 in Hk.
    assert (0 <= L * (inject_Z k1 - inject_Z k2 - 1))
      by (apply Qmult_le_0_compat; lra).
    lra.
Qed.

Lemma offsetWithinLoop_pos (rawOffset L : Q) :
  0 < L ->
  exists o (k : Z),
    offsetWithinLoop rawOffset L = Num o /\ 0 <= o /\ o < L /\
    rawOffset == o + inject_Z k * L.
Proof.
  intros HL. unfold offsetWithinLoop.
  destruct (jsRem_pos rawOffset L HL) as (r & k1 & -> & E1 & Hlo & Hhi & _).
  destruct (jsRem_pos (r + L) L HL) as (o & k2 & -> & E2 & _ & Hhi2 & Hnn).
  exists o, (k1 + k2 - 1)%Z. split; [reflexivity|].
  split; [apply Hnn; lra|]. split; [exact Hhi2|].
  rewrite inject_Z_sub, inject_Z_plus. change (inject_Z 1) with 1. lra.
Qed.

(** The double remainder is the mathematical residue
    [rawOffset - L * floor (rawOffset / L)]. *)
Lemma offsetWithinLoop_floor (rawOffset L o : Q) :
  0 < L -> offsetWithinLoop rawOffset L = Num o ->
  o == rawOffset - L * inject_Z (Qfloor (rawOffset / L)).
Proof.
  intros HL E.
  destruct (offsetWithinLoop_pos rawOffset L HL) as (o' & k & E' & H0 & H1 & Hk).
  rewrite E in E'. injection E' as <-.
  assert (Hy : L * (rawOffset / L) == rawOffset) by (apply Qdiv_cancel; lra).
  pose proof (Qfloor_le (rawOffset / L)) as F1.
  pose proof (Qlt_floor (rawOffset / L)) as F2.
  rewrite inject_Z_plus in F2. change (inject_Z 1) with 1 in F2.
  set (y := rawOffset / L) in *. set (f := Qfloor y) in *.
  assert (0 <= L * (y - inject_Z f)) by (apply Qmult_le_0_compat; lra).
  assert (0 < L * (inject_Z f + 1 - y)) by (apply Qmult_lt_0_compat; lra).
  apply (residue_unique L _ _ k f HL); try lra.
Qed.

Lemma offsetWithinLoop_periodic (rawOffset L o o' : Q) :
  0 < L ->
  offsetWithinLoop rawOffset L = Num o ->
  offsetWithinLoop (rawOffset + L) L = Num o' ->
  o' == o.
Proof.
  intros HL E E'.
  destruct (offsetWithinLoop_pos rawOffset L HL) as (a & k & Ea & A0 & A1 & Ak).
  destruct (offsetWithinLoop_pos (rawOffset + L) L HL)
    as (b & k' & Eb & B0 & B1 & Bk).
  rewrite E in Ea. injection Ea as <-. rewrite E' in Eb. injection Eb as <-.
  apply (residue_unique L _ _ k' (k + 1) HL); try lra.
  rewrite inject_Z_plus. change (inject_Z 1) with 1. lra.
Qed.

(** ** Easing *)

Lemma Qpow5 (x : Q) : x ^ 5 == x * x * x * x * x.
Proof. unfold Qpower, Qpower_positive. simpl. ring. Qed.

Lemma pow5_mono (a b : Q) : 0 <= a -> a <= b -> a ^ 5 <= b ^ 5.
Proof.
  intros Ha Hab. rewrite !Qpow5.
  assert (H2 : 0 <= a * a <= b * b)
    by (split; [apply Qmult_le_0_compat; lra | apply Qmult_le_compat_nonneg; lra]).
  assert (H3 : 0 <= a * a * a <= b * b * b)
    by (split; [apply Qmult_le_0_compat; lra | apply Qmult_le_compat_nonneg; lra]).
  assert (H4 : 0 <= a * a * a * a <= b * b * b * b)
    by (split; [apply Qmult_le_0_compat; lra | apply Qmult_le_compat_nonneg; lra]).
  apply Qmult_le_compat_nonneg; lra.
Qed.

Lemma pow5_nonneg (a : Q) : 0 <= a -> 0 <= a ^ 5.
Proof.
  intros Ha. pose proof (pow5_mono 0 a (Qle_refl 0) Ha) as H.
  rewrite (Qpow5 0) in H. lra.
Qed.

Lemma clamp_inside (p : Q) : 0 < p -> p < 1 -> Qmin (Qmax p 0) 1 = p.
Proof.
  intros H0 H1. unfold Qmin, Qmax, GenericMinMax.gmin, GenericMinMax.gmax.
  assert (E0 : Qcompare p 0 = Gt) by (apply Qgt_alt; exact H0).
  assert (E1 : Qcompare p 1 = Lt) by (apply Qlt_alt; exact H1).
  rewrite E0, E1. reflexivity.
Qed.

(** The value of the easing inside (0, 1), by halves. *)
Lemma ease_lower (p : Q) :
  0 < p -> p < 1 # 2 -> mapProgressToDistance p = 16 * p ^ 5.
Proof.
  intros H0 H1. unfold mapProgressToDistance.
  rewrite (proj2 (Qle_bool_false p 0)) by lra.
  rewrite (proj2 (Qle_bool_false 1 p)) by lra.
  rewrite clamp_inside by lra.
  rewrite (proj2 (Qlt_bool_iff p (1 # 2))) by lra. reflexivity.
Qed.

Lemma ease_upper (p : Q) :
  1 # 2 <= p -> p < 1 ->
  mapProgressToDistance p = 1 - (-(2) * p + 2) ^ 5 / 2.
Proof.
  intros H0 H1. unfold mapProgressToDistance.
  rewrite (proj2 (Qle_bool_false p 0)) by lra.
  rewrite (proj2 (Qle_bool_false 1 p)) by lra.
  rewrite clamp_inside by lra.
  rewrite (proj2 (Qlt_bool_false p (1 # 2))) by lra. reflexivity.
Qed.

Lemma ease_nonpos (p : Q) : p <= 0 -> mapProgressToDistance p = 0.
Proof.
  intros H. unfold mapProgressToDistance.
  rewrite (proj2 (Qle_bool_iff p 0)) by lra. reflexivity.
Qed.

Lemma ease_ge_one (p : Q) : 1 <= p -> mapProgressToDistance p = 1.
Proof.
  intros H. unfold mapProgressToDistance.
  rewrite (proj2 (Qle_bool_false p 0)) by lra.
  rewrite (proj2 (Qle_bool_iff 1 p)) by lra. reflexivity.
Qed.

Lemma ease_lower_bounds (p : Q) :
  0 < p -> p < 1 # 2 -> 0 <= 16 * p ^ 5 /\ 16 * p ^ 5 <= 1 # 2.
Proof.
  intros H0 H1.
  pose proof (pow5_nonneg p (Qlt_le_weak _ _ H0)) as Hn.
  pose proof (pow5_mono p (1 # 2) (Qlt_le_weak _ _ H0) (Qlt_le_weak _ _ H1)) as Hm.
  rewrite (Qpow5 (1 # 2)) in Hm. lra.
Qed.

Lemma ease_upper_bounds (p : Q) :
  1 # 2 <= p -> p < 1 ->
  1 # 2 <= 1 - (-(2) * p + 2) ^ 5 / 2 /\ 1 - (-(2) * p + 2) ^ 5 / 2 <= 1.
Proof.
  intros H0 H1.
  assert (Hm0 : 0 <= -(2) * p + 2) by lra.
  assert (Hm1 : -(2) * p + 2 <= 1) by lra.
  pose proof (pow5_nonneg _ Hm0) as Hn.
  pose proof (pow5_mono _ 1 Hm0 Hm1) as Hm.
  rewrite (Qpow5 1) in Hm.
  set (z := (-(2) * p + 2) ^ 5) in *.
  assert (E : z / 2 == z * (1 # 2)) by (unfold Qdiv; reflexivity).
  rewrite E. lra.
Qed.

Lemma ease_range (p : Q) :
  0 <= mapProgressToDistance p /\ mapProgressToDistance p <= 1.
Proof.
  destruct (Qlt_le_dec 0 p) as [H0 | H0]; [| rewrite ease_nonpos by lra; lra].
  destruct (Qlt_le_dec p 1) as [H1 | H1]; [| rewrite ease_ge_one by lra; lra].
  destruct (Qlt_le_dec p (1 # 2)) as [Hh | Hh].
  - rewrite ease_lower by lra. pose proof (ease_lower_bounds p H0 Hh). lra.
  - rewrite ease_upper by lra. pose proof (ease_upper_bounds p Hh H1). lra.
Qed.

Lemma ease_mono (p1 p2 : Q) :
  p1 <= p2 -> mapProgressToDistance p1 <= mapProgressToDistance p2.
Proof.
  intros H.
  destruct (Qlt_le_dec 0 p1) as [H0 | H0];
    [| rewrite (ease_nonpos p1) by lra; apply ease_range].
  destruct (Qlt_le_dec p2 1) as [H1 | H1];
    [| rewrite (ease_ge_one p2) by lra; apply ease_range].
  destruct (Qlt_le_dec p1 (1 # 2)) as [Ha | Ha];
    destruct (Qlt_le_dec p2 (1 # 2)) as [Hb | Hb]; try lra.
  - rewrite !ease_lower by lra.
    pose proof (pow5_mono p1 p2 (Qlt_le_weak _ _ H0) H). lra.
  - rewrite ease_lower, ease_upper by lra.
    pose proof (ease_lower_bounds p1 H0 Ha).
    pose proof (ease_upper_bounds p2 Hb H1). lra.
  - rewrite !ease_upper by lra.
    assert (Hm : 0 <= -(2) * p2 + 2) by lra.
    assert (Hle : -(2) * p2 + 2 <= -(2) * p1 + 2) by lra.
    pose proof (pow5_mono _ _ Hm Hle) as Hp.
    set (z1 := (-(2) * p1 + 2) ^ 5) in *. set (z2 := (-(2) * p2 + 2) ^ 5) in *.
    assert (E1 : z1 / 2 == z1 * (1 # 2)) by (unfold Qdiv; reflexivity).
    assert (E2 : z2 / 2 == z2 * (1 # 2)) by (unfold Qdiv; reflexivity).
    rewrite E1, E2. lra.
Qed.

(** ** The offset normaliser on the component *)

Lemma loopWidthOf_pos (s : Roulette) :
  0 < heroSlotWidthRef s -> (0 < length (baseHeroesRef s))%nat ->
  0 < loopWidthOf s.
Proof.
  intros Hw Hn. unfold loopWidthOf. apply Qmult_lt_0_compat; [| exact Hw].
  change 0 with (inject_Z 0). rewrite <- Zlt_Qlt. lia.
Qed.

Lemma applyVisualOffset_normal (rawOffset : Q) (s : Roulette) (el : Element) :
  rouletteRef s = Some el ->
  0 < heroSlotWidthRef s -> (0 < length (baseHeroesRef s))%nat ->
  applyVisualOffset rawOffset s =
  setTransform (visualOffset rawOffset (loopWidthOf s))
    (set_virtualOffsetRef rawOffset s).
Proof.
  intros Hel Hw Hn. unfold applyVisualOffset. cbn. rewrite Hel.
  destruct (Qeq_bool (heroSlotWidthRef s) 0) eqn:E.
  { apply Qeq_bool_iff in E. lra. }
  unfold loopWidthOf.
  destruct (length (baseHeroesRef s)) eqn:El; [lia |]. reflexivity.
Qed.

Lemma applyVisualOffset_fallback (rawOffset : Q) (s : Roulette) :
  heroSlotWidthRef s == 0 \/ length (baseHeroesRef s) = O ->
  applyVisualOffset rawOffset s =
  setTransform (Num rawOffset) (set_virtualOffsetRef rawOffset s).
Proof.
  intros H. unfold applyVisualOffset, setTransform. cbn.
  destruct (rouletteRef s) as [el |]; [| reflexivity].
  destruct H as [H | H].
  - apply Qeq_bool_iff in H. rewrite H. reflexivity.
  - rewrite H. rewrite orb_true_r. reflexivity.
Qed.

Lemma appliedOffset_setTransform (v : number) (s : Roulette) (el : Element) :
  rouletteRef s = Some el -> appliedOffset (setTransform v s) = Some v.
Proof.
  intros Hel. unfold appliedOffset, setTransform. rewrite Hel. reflexivity.
Qed.


Lemma applyVisualOffset_twice (rawOffset : Q) (s : Roulette) :
  applyVisualOffset rawOffset (applyVisualOffset rawOffset s) =
  applyVisualOffset rawOffset s.
Proof.
  unfold applyVisualOffset, setTransform. cbn.
  destruct (rouletteRef s) as [el |] eqn:Hel; cbn; [| rewrite Hel; reflexivity].
  destruct (_ || _) eqn:E; cbn; rewrite E; reflexivity.
Qed.

(** ** Claims on the easing and the normaliser *)

(** C4: the easing is 0 at 0 and 1 at 1, stays in [0, 1] for every input
    (inputs outside [0, 1] are clamped), is non-decreasing, equals
    [16 p^5] on [0, 1/2) and [1 - (-2p + 2)^5 / 2] on [1/2, 1]. *)
Theorem C4_easing_monotone_clamped :
  mapProgressToDistance 0 = 0 /\
  mapProgressToDistance 1 = 1 /\
  (forall p, 0 <= mapProgressToDistance p /\ mapProgressToDistance p <= 1) /\
  (forall p1 p2, p1 <= p2 -> mapProgressToDistance p1 <= mapProgressToDistance p2) /\
  (forall p, 0 <= p -> p < 1 # 2 -> mapProgressToDistance p == 16 * p ^ 5) /\
  (forall p, 1 # 2 <= p -> p <= 1 ->
             mapProgressToDistance p == 1 - (-(2) * p + 2) ^ 5 / 2).
Proof.
  split; [reflexivity |]. split; [reflexivity |].
  split; [exact ease_range |]. split; [exact ease_mono |]. split.
  - intros p H0 H1. destruct (Qlt_le_dec 0 p) as [Hp | Hp].
    + rewrite ease_lower by lra. reflexivity.
    + rewrite ease_nonpos by lra.
      assert (E : p == 0) by lra. rewrite E, Qpow5. ring.
  - intros p H0 H1. destruct (Qlt_le_dec p 1) as [Hp | Hp].
    + rewrite ease_upper by lra. reflexivity.
    + rewrite ease_ge_one by lra.
      assert (E : p == 1) by lra. rewrite E, Qpow5. field.
Qed.

Lemma C4_easing_witness :
  mapProgressToDistance (1 # 4) <= mapProgressToDistance (3 # 4) /\
  mapProgressToDistance (1 # 4) == 16 * (1 # 4) ^ 5 /\
  mapProgressToDistance (3 # 4) == 1 - (-(2) * (3 # 4) + 2) ^ 5 / 2.
Proof.
  destruct C4_easing_monotone_clamped as (_ & _ & _ & Hmono & Hlo & Hhi).
  split; [apply Hmono; apply Qle_bool_iff; reflexivity |].
  split.
  - apply Hlo; [apply Qle_bool_iff | apply Qlt_bool_iff]; reflexivity.
  - apply Hhi; apply Qle_bool_iff; reflexivity.
Defined.

(** C5: with a positive slot width and a non-empty base list, the
    normaliser computes the double remainder, which is the non-negative
    residue of the raw offset modulo [loopWidth = baseLength * slotWidth];
    the visual offset is that residue shifted by [middleRepeatIndex] loops
    and is the same one loop further; it is what a mounted strip receives,
    and applying the same raw offset again changes nothing. *)
Theorem C5_normalizer_residue_periodic (s : Roulette) (rawOffset : Q) :
  0 < heroSlotWidthRef s ->
  (0 < length (baseHeroesRef s))%nat ->
  let loopWidth := loopWidthOf s in
  exists o v',
    offsetWithinLoop rawOffset loopWidth = Num o /\
    o == rawOffset - loopWidth * inject_Z (Qfloor (rawOffset / loopWidth)) /\
    0 <= o /\
    visualOffset rawOffset loopWidth
      = Num (o - inject_Z middleRepeatIndex * loopWidth) /\
    visualOffset (rawOffset + loopWidth) loopWidth = Num v' /\
    v' == o - inject_Z middleRepeatIndex * loopWidth /\
    (forall el, rouletteRef s = Some el ->
                appliedOffset (applyVisualOffset rawOffset s)
                = Some (visualOffset rawOffset loopWidth)) /\
    applyVisualOffset rawOffset (applyVisualOffset rawOffset s)
      = applyVisualOffset rawOffset s.
Proof.
  intros Hw Hn loopWidth.
  pose proof (loopWidthOf_pos s Hw Hn) as HL. fold loopWidth in HL.
  destruct (offsetWithinLoop_pos rawOffset loopWidth HL) as (o & k & Eo & H0 & H1 & Hk).
  destruct (offsetWithinLoop_pos (rawOffset + loopWidth) loopWidth HL)
    as (o' & k' & Eo' & _).
  exists o, (o' - inject_Z middleRepeatIndex * loopWidth).
  refine (conj Eo (conj _ (conj H0 (conj _ (conj _ (conj _
            (conj _ (applyVisualOffset_twice _ _)))))))).
  - apply offsetWithinLoop_floor; assumption.
  - unfold visualOffset. rewrite Eo. reflexivity.
  - unfold visualOffset. rewrite Eo'. reflexivity.
  - rewrite (offsetWithinLoop_periodic rawOffset loopWidth o o' HL Eo Eo').
    reflexivity.
  - intros el Hel. rewrite (applyVisualOffset_normal _ s el Hel Hw Hn).
    apply (appliedOffset_setTransform _ _ el). exact Hel.
Qed.

Lemma C5_normalizer_witness :
  exists o v',
    offsetWithinLoop (-(3696)) (loopWidthOf demo) = Num o /\
    o == -(3696) - loopWidthOf demo
                   * inject_Z (Qfloor (-(3696) / loopWidthOf demo)) /\
    0 <= o /\
    visualOffset (-(3696)) (loopWidthOf demo)
      = Num (o - inject_Z middleRepeatIndex * loopWidthOf demo) /\
    visualOffset (-(3696) + loopWidthOf demo) (loopWidthOf demo) = Num v' /\
    v' == o - inject_Z middleRepeatIndex * loopWidthOf demo /\
    (forall el, rouletteRef demo = Some el ->
                appliedOffset (applyVisualOffset (-(3696)) demo)
                = Some (visualOffset (-(3696)) (loopWidthOf demo))) /\
    applyVisualOffset (-(3696)) (applyVisualOffset (-(3696)) demo)
      = applyVisualOffset (-(3696)) demo.
Proof.
  apply (C5_normalizer_residue_periodic demo (-(3696)));
    [reflexivity | vm_compute; lia].
Defined.

(** C8: when the slot width is zero or the base list is empty, the raw
    offset itself is written to the strip: no remainder is taken and the
    value applied is the finite raw offset. *)
Theorem C8_normalizer_fallback (s : Roulette) (rawOffset : Q) :
  heroSlotWidthRef s == 0 \/ length (baseHeroesRef s) = O ->
  applyVisualOffset rawOffset s
    = setTransform (Num rawOffset) (set_virtualOffsetRef rawOffset s) /\
  (forall el, rouletteRef s = Some el ->
              appliedOffset (applyVisualOffset rawOffset s) = Some (Num rawOffset)).
Proof.
  intros H. rewrite (applyVisualOffset_fallback rawOffset s H).
  split; [reflexivity |]. intros el Hel.
  apply (appliedOffset_setTransform _ _ el). exact Hel.
Qed.

Lemma C8_fallback_witness :
  applyVisualOffset (-(500)) demoEmpty
    = setTransform (Num (-(500))) (set_virtualOffsetRef (-(500)) demoEmpty) /\
  (forall el, rouletteRef demoEmpty = Some el ->
              appliedOffset (applyVisualOffset (-(500)) demoEmpty)
              = Some (Num (-(500)))).
Proof.
  apply (C8_normalizer_fallback demoEmpty (-(500))). right. reflexivity.
Defined.



(** ** [Math.floor(Math.random() * n)] *)

Lemma floor_random_bound (r : Q) (n : Z) :
  0 <= r -> r < 1 -> (0 < n)%Z ->
  (0 <= Qfloor (r * inject_Z n))%Z /\ (Qfloor (r * inject_Z n) < n)%Z.
Proof.
  intros H0 H1 Hn.
  assert (HN : 0 < inject_Z n) by (change 0 with (inject_Z 0); rewrite <- Zlt_Qlt; lia).
  assert (Hx0 : 0 <= r * inject_Z n) by (apply Qmult_le_0_compat; lra).
  assert (Hx1 : 0 < (1 - r) * inject_Z n) by (apply Qmult_lt_0_compat; lra).
  split.
  - change 0%Z with (Qfloor 0). apply Qfloor_resp_le. exact Hx0.
  - rewrite Zlt_Qlt. pose proof (Qfloor_le (r * inject_Z n)). lra.
Qed.


(** ** The shuffle is a permutation *)

Section Shuffle.
Context {A : Type}.
Implicit Types (l array source : list A) (i j : nat).

Lemma insert_Permutation_cons l j a y :
  l !! j = Some y -> y :: <[j:=a]> l ≡ₚ a :: l.
Proof.
  revert j. induction l as [| x l IH]; intros [| j] H; simpl in *; try discriminate.
  - injection H as ->. apply perm_swap.
  - rewrite perm_swap. rewrite (IH j H). apply perm_swap.
Qed.

Lemma insert_insert_Permutation l i j x y :
  l !! i = Some x -> l !! j = Some y -> <[j:=x]> (<[i:=y]> l) ≡ₚ l.
Proof.
  revert i j. induction l as [| a l IH]; intros [| i] [| j] Hi Hj;
    simpl in *; try discriminate.
  - injection Hi as ->. injection Hj as ->. reflexivity.
  - injection Hi as ->. apply insert_Permutation_cons. exact Hj.
  - injection Hj as ->. apply insert_Permutation_cons. exact Hi.
  - apply perm_skip. apply IH; assumption.
Qed.

Lemma swap_Permutation i j array : swap i j array ≡ₚ array.
Proof.
  unfold swap.
  destruct (array !! i) as [x |] eqn:Hi; [| reflexivity].
  destruct (array !! j) as [y |] eqn:Hj; [| reflexivity].
  apply insert_insert_Permutation; assumption.
Qed.

Lemma shuffleLoop_Permutation rnd pos i array :
  (shuffleLoop rnd pos i array).1 ≡ₚ array.
Proof.
  revert pos array. induction i as [| i IH]; intros pos array; simpl.
  - reflexivity.
  - rewrite IH. apply swap_Permutation.
Qed.

Lemma shuffleList_Permutation rnd pos source :
  (shuffleList rnd pos source).1 ≡ₚ source.
Proof. apply shuffleLoop_Permutation. Qed.


Lemma shuffleList_nil rnd pos : shuffleList rnd pos (@nil A) = ([], pos).
Proof. reflexivity. Qed.

Lemma shuffleLoop_pos rnd pos i array :
  (shuffleLoop rnd pos i array).2 = (pos + i)%nat.
Proof.
  revert pos array. induction i as [| i IH]; intros pos array; simpl.
  - lia.
  - rewrite IH. lia.
Qed.

(** One draw per iteration of the loop. *)
Lemma shuffleList_pos rnd pos source :
  (shuffleList rnd pos source).2 = (pos + (length source - 1))%nat.
Proof. apply shuffleLoop_pos. Qed.
End Shuffle.

Lemma pickRandomIndex_in_range (n : Z) (s : Roulette) :
  unitOracle (rand s) -> (0 < n)%Z ->
  (0 <= (pickRandomIndex n s).1)%Z /\ ((pickRandomIndex n s).1 < n)%Z.
Proof.
  intros Hr Hn. unfold pickRandomIndex, Math_random. cbn.
  destruct (Hr (randPos s)) as [Ha Hb].
  pose proof (floor_random_bound _ n Ha Hb Hn) as H1.
  destruct ((1 <? n)%Z && (Qfloor (rand s (randPos s) * inject_Z n) =? 0)%Z) eqn:E;
    [| exact H1].
  destruct (Qlt_bool (rand s (S (randPos s))) (35 # 100)); [| exact H1]. cbn.
  apply andb_true_iff in E as [E _]. apply Z.ltb_lt in E.
  destruct (Hr (S (S (randPos s)))) as [Hc Hd].
  pose proof (floor_random_bound _ (n - 1) Hc Hd ltac:(lia)). lia.
Qed.

(** When the second draw fires the re-roll, the index comes from the third
    draw and is at least 1. *)
Lemma pickRandomIndex_reroll (n : Z) (s : Roulette) :
  unitOracle (rand s) -> (1 < n)%Z ->
  Qfloor (rand s (randPos s) * inject_Z n) = 0%Z ->
  rand s (S (randPos s)) < 35 # 100 ->
  (pickRandomIndex n s).1
    = (1 + Qfloor (rand s (S (S (randPos s))) * inject_Z (n - 1)))%Z /\
  (1 <= (pickRandomIndex n s).1)%Z /\ ((pickRandomIndex n s).1 < n)%Z.
Proof.
  intros Hr Hn H0 H2. unfold pickRandomIndex, Math_random. cbn.
  rewrite H0. rewrite (proj2 (Z.ltb_lt 1 n) Hn). cbn.
  rewrite (proj2 (Qlt_bool_iff _ _) H2). cbn.
  split; [reflexivity |].
  destruct (Hr (S (S (randPos s)))) as [Hc Hd].
  pose proof (floor_random_bound _ (n - 1) Hc Hd ltac:(lia)). lia.
Qed.

(** Without the re-roll the first draw stands. *)
Lemma pickRandomIndex_keep (n : Z) (s : Roulette) :
  (n <= 1)%Z \/ Qfloor (rand s (randPos s) * inject_Z n) <> 0%Z \/
  35 # 100 <= rand s (S (randPos s)) ->
  (pickRandomIndex n s).1 = Qfloor (rand s (randPos s) * inject_Z n).
Proof.
  intros H. unfold pickRandomIndex, Math_random. cbn.
  destruct ((1 <? n)%Z && (Qfloor (rand s (randPos s) * inject_Z n) =? 0)%Z) eqn:E;
    [| reflexivity].
  apply andb_true_iff in E as [E1 E2]. apply Z.ltb_lt in E1. apply Z.eqb_eq in E2.
  destruct H as [H | [H | H]]; [lia | congruence |].
  rewrite (proj2 (Qlt_bool_false _ _) H). reflexivity.
Qed.

(** ** Normal forms of the state updates *)

Lemma commitShuffled_eq (source : list Hero) (s : Roulette) :
  commitShuffled source s =
  set_baseHeroesState (shuffleList (rand s) (randPos s) source).1
    (set_baseHeroesRef (shuffleList (rand s) (randPos s) source).1
       (set_randPos (shuffleList (rand s) (randPos s) source).2 s)).
Proof.
  unfold commitShuffled. destruct (shuffleList _ _ _). reflexivity.
Qed.

Lemma measureHeroSlotWidth_eq (s : Roulette) :
  exists w,
    measureHeroSlotWidth s = set_heroSlotWidth w.1 (set_heroSlotWidthRef w.2 s) /\
    (0 < heroSlotWidthRef s -> 0 < w.2).
Proof.
  assert (Hid : exists w,
             s = set_heroSlotWidth w.1 (set_heroSlotWidthRef w.2 s) /\
             (0 < heroSlotWidthRef s -> 0 < w.2)).
  { exists (heroSlotWidth s, heroSlotWidthRef s). split; [| auto].
    destruct s; reflexivity. }
  unfold measureHeroSlotWidth.
  destruct (rouletteRef s) as [el |]; [| exact Hid].
  destruct (firstHero el) as [rect |]; [| exact Hid].
  destruct (Qeq_bool (rectWidth rect) 0); [exact Hid |].
  destruct (Qle_bool _ 0) eqn:E; [exact Hid |].
  destruct (Qle_bool _ (1 # 2)); [exact Hid |].
  eexists (_, _). split; [reflexivity |]. intros _. cbn.
  apply Qle_bool_false. exact E.
Qed.

Lemma setTransform_eq (v : number) (s : Roulette) :
  exists r, setTransform v s = set_rouletteRef r s /\
            (forall el, rouletteRef s = Some el -> transform <$> r = Some (Some v)).
Proof.
  unfold setTransform. destruct (rouletteRef s) as [el |] eqn:E.
  - eexists. split; [reflexivity |]. intros ? _. reflexivity.
  - exists None. split; [destruct s; cbn in *; subst; reflexivity |].
    intros ? [=].
Qed.

Lemma applyVisualOffset_eq (rawOffset : Q) (s : Roulette) :
  exists r, applyVisualOffset rawOffset s
            = set_rouletteRef r (set_virtualOffsetRef rawOffset s) /\
            (is_Some r <-> is_Some (rouletteRef s)).
Proof.
  unfold applyVisualOffset, setTransform. cbn.
  destruct (rouletteRef s) as [el |] eqn:E.
  - destruct (_ || _); eexists; (split; [reflexivity |]); split; eauto.
  - exists None. split; [destruct s; cbn in *; subst; reflexivity |].
    split; intros [? [=]].
Qed.

(** ** [spinRoulette] on an idle component with a non-empty pool *)

Lemma availableHeroes_ext (s s' : Roulette) :
  heroes s' = heroes s -> selectedRoles s' = selectedRoles s ->
  bannedHeroIds s' = bannedHeroIds s -> heroesRolesMap s' = heroesRolesMap s ->
  availableHeroes s' = availableHeroes s.
Proof.
  unfold availableHeroes, activeHeroes. intros -> -> -> ->. reflexivity.
Qed.

Lemma pickRandomIndex_state (n : Z) (s : Roulette) :
  exists p, (pickRandomIndex n s).2 = set_randPos p s.
Proof.
  assert (Hset : forall p q, set_randPos p (set_randPos q s) = set_randPos p s)
    by reflexivity.
  unfold pickRandomIndex, Math_random.
  destruct (_ && _); [| eexists; reflexivity].
  destruct (Qlt_bool _ _); cbn; rewrite ?Hset; eexists; reflexivity.
Qed.

Lemma spinRoulette_shape (s : Roulette) :
  isSpinningRef s = false -> availableHeroes s <> [] ->
  exists cb s' s0 k,
    spinRoulette s = requestAnimationFrame cb s' /\
    closureShape cb /\
    Step.shuffledHeroes cb ≡ₚ availableHeroes s /\
    Step.randomIndex cb = (pickRandomIndex (poolSize cb) s0).1 /\
    rand s0 = rand s /\
    Step.extraLoops cb = (2 + Qfloor (rand s k * 4))%Z /\
    (0 < heroSlotWidthRef s -> 0 < Step.slotWidth cb) /\
    baseHeroesRef s' = Step.shuffledHeroes cb /\
    heroSlotWidthRef s' = Step.slotWidth cb /\
    isSpinningRef s' = true /\ isSpinning s' = true /\ selectedHero s' = None /\
    rafQueue s' = afterCancel s /\ rafNext s' = rafNext s /\
    sounds s' = sounds s /\ heroes s' = heroes s /\
    virtualOffsetRef s' = Step.startOffset cb /\
    (is_Some (rouletteRef s') <-> is_Some (rouletteRef s)) /\
    randPos s0 = (randPos s + (length (availableHeroes s) - 1))%nat.
Proof.
  intros Hidle Hpool. unfold spinRoulette. rewrite Hidle.
  set (sc := match animationFrameRef s with Some h => _ | None => s end).
  assert (Hsc : heroes sc = heroes s /\ selectedRoles sc = selectedRoles s /\
                bannedHeroIds sc = bannedHeroIds s /\
                heroesRolesMap sc = heroesRolesMap s /\ rand sc = rand s /\
                rafQueue sc = afterCancel s /\ rafNext sc = rafNext s /\
                sounds sc = sounds s /\ heroSlotWidthRef sc = heroSlotWidthRef s /\
                rouletteRef sc = rouletteRef s /\ randPos sc = randPos s).
  { unfold sc, afterCancel. destruct (animationFrameRef s); repeat split. }
  destruct Hsc as (Hh & Hsr & Hb & Hm & Hrand & Hq & Hn & Hs & Hwd & Hel & Hrp).
  destruct (measureHeroSlotWidth_eq
              (set_selectedHero None (set_isSpinning true (set_isSpinningRef true sc))))
    as (w & -> & Hw).
  rewrite commitShuffled_eq.
  rewrite (availableHeroes_ext s) by assumption.
  cbn [rand randPos set_heroSlotWidth set_heroSlotWidthRef set_selectedHero
       set_isSpinning set_isSpinningRef].
  pose proof (shuffleList_Permutation (rand sc) (randPos sc) (availableHeroes s)) as Hperm.
  pose proof (shuffleList_pos (rand sc) (randPos sc) (availableHeroes s)) as Hp0.
  destruct (shuffleList (rand sc) (randPos sc) (availableHeroes s)) as [sh p0].
  cbn [fst snd] in *.
  cbn [baseHeroesRef set_baseHeroesState set_baseHeroesRef heroSlotWidthRef set_randPos].
  assert (Hlen : (0 < Z.of_nat (length sh))%Z).
  { rewrite (Permutation_length Hperm).
    destruct (availableHeroes s); [congruence | cbn; lia]. }
  rewrite (proj2 (Z.eqb_neq _ 0)) by lia.
  match goal with |- context [pickRandomIndex ?n ?st] =>
    set (spick := st);
    destruct (pickRandomIndex_state n spick) as (p1 & Hst);
    destruct (pickRandomIndex n spick) as [ri s4] eqn:Epick
  end.
  cbn [fst snd] in *. subst s4.
  assert (Hrs : rand spick = rand s) by exact Hrand.
  match goal with |- context [applyVisualOffset ?o ?st] =>
    destruct (applyVisualOffset_eq o st) as (r & -> & Hsome)
  end.
  unfold Math_random.
  cbn [rand randPos set_rouletteRef set_virtualOffsetRef set_randPos].
  exists
    {| Step.shuffledHeroes := sh;
       Step.slotWidth := w.2;
       Step.randomIndex := ri;
       Step.extraLoops := (2 + Qfloor (rand s p1 * 4))%Z;
       Step.randomHero := jsIndex sh ri;
       Step.spinDuration :=
         BASE_SPIN_DURATION
         + inject_Z (2 + Qfloor (rand s p1 * 4)) * SPIN_DURATION_PER_LOOP;
       Step.startOffset :=
         - (inject_Z middleRepeatIndex * inject_Z (Z.of_nat (length sh)) * w.2);
       Step.finalOffset :=
         - (inject_Z (middleRepeatIndex * Z.of_nat (length sh)
                      + (2 + Qfloor (rand s p1 * 4)) * Z.of_nat (length sh) + ri)
            * w.2);
       Step.totalDistance :=
         - (inject_Z (middleRepeatIndex * Z.of_nat (length sh)
                      + (2 + Qfloor (rand s p1 * 4)) * Z.of_nat (length sh) + ri)
            * w.2)
         - - (inject_Z middleRepeatIndex * inject_Z (Z.of_nat (length sh)) * w.2);
       Step.animationStart := 0;
       Step.lastHeroIndex := (-1)%Z |}.
  eexists _, spick, p1.
  split; [unfold spick; cbn; rewrite Hrand; reflexivity |].
  split; [unfold closureShape, poolSize; cbn; repeat split |].
  split; [exact Hperm |].
  split; [unfold poolSize; cbn; rewrite Epick; reflexivity |].
  split; [exact Hrs |].
  split; [reflexivity |].
  split; [intros Hpos; cbn; apply Hw; cbn; rewrite Hwd; exact Hpos |].
  cbn. repeat split; try assumption.
  - intros H. rewrite <- Hel. apply Hsome. exact H.
  - intros H. apply Hsome. cbn. rewrite Hel. exact H.
  - rewrite Hp0, Hrp. reflexivity.
Qed.

Lemma spinRoulette_started (s : Roulette) :
  isSpinningRef s = false -> availableHeroes s <> [] -> unitOracle (rand s) ->
  exists cb s',
    spinRoulette s = requestAnimationFrame cb s' /\
    freshClosure cb /\
    Step.shuffledHeroes cb ≡ₚ availableHeroes s /\
    (0 < heroSlotWidthRef s -> 0 < Step.slotWidth cb) /\
    baseHeroesRef s' = Step.shuffledHeroes cb /\
    heroSlotWidthRef s' = Step.slotWidth cb /\
    isSpinningRef s' = true /\ isSpinning s' = true /\ selectedHero s' = None /\
    rafQueue s' = afterCancel s /\ rafNext s' = rafNext s /\
    sounds s' = sounds s /\ heroes s' = heroes s /\
    virtualOffsetRef s' = Step.startOffset cb /\
    (is_Some (rouletteRef s') <-> is_Some (rouletteRef s)).
Proof.
  intros Hidle Hpool Hr.
  destruct (spinRoulette_shape s Hidle Hpool)
    as (cb & s' & s0 & k & E & Hshape & Hperm & Hri & Hrs & Hloops & Hw & Hb & Hsw
        & Hsp & Hsp' & Hsel & Hq & Hnx & Hs & Hh & Hv & Hel & _).
  exists cb, s'. split; [exact E |].
  split; [| repeat (split; [assumption |]); assumption].
  assert (Hn : (0 < poolSize cb)%Z).
  { unfold poolSize. rewrite (Permutation_length Hperm).
    destruct (availableHeroes s); [congruence | cbn; lia]. }
  split; [| split; [| exact Hshape]].
  - rewrite Hri. apply pickRandomIndex_in_range; [rewrite Hrs; exact Hr | exact Hn].
  - destruct (Hr k) as [H0 H1].
    destruct (floor_random_bound (rand s k) 4 H0 H1 ltac:(lia)) as [Hx0 Hx1].
    change (inject_Z 4) with 4 in Hx0, Hx1. lia.
Qed.

(** ** One frame *)

Lemma set_sounds_id (s : Roulette) : set_sounds (sounds s) s = s.
Proof. destruct s; reflexivity. Qed.

(** The state in which [step] decides whether to go on: the current offset
    applied and the tick, if any, played. *)
Lemma step_eq (timestamp : Q) (cb : Step.closure) (s : Roulette) :
  step timestamp cb s =
  let s1 := applyVisualOffset (currentOffsetAt timestamp cb) s in
  let s2 := set_sounds (sounds s1 ++ tickOf timestamp cb) s1 in
  if Qlt_bool (progressAt timestamp cb) 1 then
    requestAnimationFrame (nextClosure timestamp cb) s2
  else
    playWinSound
      (set_selectedHero (Step.randomHero cb)
         (applyVisualOffset (Step.finalOffset cb)
            (set_isSpinning false
               (set_isSpinningRef false (set_animationFrameRef None s2))))).
Proof.
  unfold step, tickOf, nextClosure, playTickSound. cbv zeta.
  destruct (Qlt_bool 0 (Step.slotWidth cb) && _).
  - destruct (heroIndexAt timestamp cb =? Step.lastHeroIndex cb)%Z.
    + rewrite app_nil_r, set_sounds_id. reflexivity.
    + reflexivity.
  - rewrite app_nil_r, set_sounds_id. reflexivity.
Qed.

Lemma tickOf_cases (timestamp : Q) (cb : Step.closure) :
  tickOf timestamp cb = [] \/
  tickOf timestamp cb = [Tick (Qmax (5 # 100) (1 - progressAt timestamp cb))].
Proof.
  unfold tickOf. destruct (_ && _); [| left; reflexivity].
  destruct (_ =? _)%Z; [left | right]; reflexivity.
Qed.

(** What a frame that does not finish leaves behind. *)
Lemma step_continue (timestamp : Q) (cb : Step.closure) (s : Roulette) :
  progressAt timestamp cb < 1 ->
  exists s',
    step timestamp cb s = requestAnimationFrame (nextClosure timestamp cb) s' /\
    sounds s' = sounds s ++ tickOf timestamp cb /\
    rafQueue s' = rafQueue s /\ rafNext s' = rafNext s /\
    isSpinningRef s' = isSpinningRef s /\ isSpinning s' = isSpinning s /\
    selectedHero s' = selectedHero s /\ heroes s' = heroes s /\
    baseHeroesRef s' = baseHeroesRef s /\
    heroSlotWidthRef s' = heroSlotWidthRef s /\
    virtualOffsetRef s' = currentOffsetAt timestamp cb.
Proof.
  intros Hp. rewrite step_eq. cbv zeta.
  rewrite (proj2 (Qlt_bool_iff _ _) Hp).
  destruct (applyVisualOffset_eq (currentOffsetAt timestamp cb) s) as (r & -> & _).
  eexists. split; [reflexivity |]. cbn. repeat split.
Qed.

(** What the finishing frame leaves behind. *)
Lemma step_finish (timestamp : Q) (cb : Step.closure) (s : Roulette) :
  1 <= progressAt timestamp cb ->
  let s' := step timestamp cb s in
  isSpinningRef s' = false /\ isSpinning s' = false /\
  animationFrameRef s' = None /\
  selectedHero s' = Step.randomHero cb /\
  virtualOffsetRef s' = Step.finalOffset cb /\
  appliedOffset s'
    = appliedOffset (applyVisualOffset (Step.finalOffset cb) s) /\
  sounds s' = sounds s ++ tickOf timestamp cb ++ [Win] /\
  rafQueue s' = rafQueue s /\ rafNext s' = rafNext s /\
  heroes s' = heroes s /\ baseHeroesRef s' = baseHeroesRef s /\
  heroSlotWidthRef s' = heroSlotWidthRef s.
Proof.
  intros Hp s'. subst s'. rewrite step_eq. cbv zeta.
  rewrite (proj2 (Qlt_bool_false _ _) Hp).
  destruct (applyVisualOffset_eq (currentOffsetAt timestamp cb) s) as (r & -> & Hr).
  unfold applyVisualOffset, setTransform, appliedOffset, playWinSound. cbn.
  destruct Hr as [Hr1 Hr2].
  destruct r as [el |], (rouletteRef s) as [el' |] eqn:E.
  - cbn. rewrite ?E. destruct (_ || _); cbn; rewrite <- ?app_assoc; repeat split.
  - exfalso. destruct Hr1 as [? [=]]. eauto.
  - exfalso. destruct Hr2 as [? [=]]. eauto.
  - cbn. rewrite ?E. rewrite <- ?app_assoc. repeat split.
Qed.

(** ** [spinRoulette] on an empty pool *)

Lemma spinRoulette_spinning (s : Roulette) :
  isSpinningRef s = true -> spinRoulette s = s.
Proof. intros H. unfold spinRoulette. rewrite H. reflexivity. Qed.

Lemma spinRoulette_empty (s : Roulette) :
  isSpinningRef s = false -> availableHeroes s = [] ->
  let s' := spinRoulette s in
  isSpinningRef s' = false /\ isSpinning s' = false /\ selectedHero s' = None /\
  animationFrameRef s' = None /\ rafQueue s' = afterCancel s /\
  rafNext s' = rafNext s /\ sounds s' = sounds s /\ heroes s' = heroes s /\
  baseHeroesRef s' = [].
Proof.
  intros Hidle Hpool s'. subst s'. unfold spinRoulette. rewrite Hidle.
  set (sc := match animationFrameRef s with Some h => _ | None => s end).
  assert (Hsc : heroes sc = heroes s /\ selectedRoles sc = selectedRoles s /\
                bannedHeroIds sc = bannedHeroIds s /\
                heroesRolesMap sc = heroesRolesMap s /\
                rafQueue sc = afterCancel s /\ rafNext sc = rafNext s /\
                sounds sc = sounds s /\ animationFrameRef sc = None).
  { unfold sc, afterCancel.
    destruct (animationFrameRef s) eqn:Ea; repeat split; exact Ea. }
  destruct Hsc as (Hh & Hsr & Hb & Hm & Hq & Hn & Hs & Ha).
  destruct (measureHeroSlotWidth_eq
              (set_selectedHero None (set_isSpinning true (set_isSpinningRef true sc))))
    as (w & -> & _).
  rewrite commitShuffled_eq.
  rewrite (availableHeroes_ext s) by assumption.
  rewrite Hpool, shuffleList_nil. cbn. repeat split; assumption.
Qed.

(** ** Operations that leave the animation alone *)

Lemma sameLoop_refl (s : Roulette) : sameLoop s s.
Proof. repeat split. Qed.

Lemma sameLoop_trans (s1 s2 s3 : Roulette) :
  sameLoop s1 s2 -> sameLoop s2 s3 -> sameLoop s1 s3.
Proof.
  unfold sameLoop. intros (-> & -> & -> & -> & -> & -> & ->) H. exact H.
Qed.

Lemma commitShuffled_sameLoop (source : list Hero) (s : Roulette) :
  sameLoop s (commitShuffled source s).
Proof. rewrite commitShuffled_eq. repeat split. Qed.

Lemma applyVisualOffset_sameLoop (rawOffset : Q) (s : Roulette) :
  sameLoop s (applyVisualOffset rawOffset s).
Proof.
  destruct (applyVisualOffset_eq rawOffset s) as (r & -> & _). repeat split.
Qed.

Lemma resetRoulette_sameLoop (s : Roulette) : sameLoop s (resetRoulette s).
Proof.
  unfold resetRoulette.
  eapply sameLoop_trans; [| apply applyVisualOffset_sameLoop].
  eapply sameLoop_trans; [| apply commitShuffled_sameLoop].
  repeat split.
Qed.

Lemma rebuildPool_sameLoop (s : Roulette) : sameLoop s (rebuildPool s).
Proof. apply commitShuffled_sameLoop. Qed.

Lemma toggleRole_sameLoop (role : HeroRole) (s : Roulette) :
  sameLoop s (toggleRole role s).
Proof.
  unfold toggleRole.
  eapply sameLoop_trans; [| apply rebuildPool_sameLoop]. repeat split.
Qed.

Lemma toggleHeroBan_sameLoop (id : string) (s : Roulette) :
  sameLoop s (toggleHeroBan id s).
Proof.
  unfold toggleHeroBan. destruct (isSpinning s); [apply sameLoop_refl |].
  eapply sameLoop_trans; [| apply rebuildPool_sameLoop]. repeat split.
Qed.

(** ** At most one frame loop *)

Lemma oneLoop_sameLoop (s s' : Roulette) :
  sameLoop s s' -> oneLoop s -> oneLoop s'.
Proof.
  unfold sameLoop, oneLoop. intros (-> & _ & -> & _) H. exact H.
Qed.

Lemma afterCancel_nil (s : Roulette) : oneLoop s -> afterCancel s = [].
Proof.
  intros [Hlen Htrack]. unfold afterCancel.
  destruct (rafQueue s) as [| [h cb] [| e q]] eqn:Eq; cbn in Hlen; try lia.
  - destruct (animationFrameRef s); reflexivity.
  - specialize (Htrack (h, cb) ltac:(left)). cbn in Htrack. rewrite Htrack.
    rewrite filter_cons_False by (cbn; intros H; apply H; reflexivity).
    reflexivity.
Qed.

Lemma oneLoop_requestAnimationFrame (cb : Step.closure) (s : Roulette) :
  rafQueue s = [] -> oneLoop (requestAnimationFrame cb s).
Proof.
  intros Hq. unfold oneLoop, requestAnimationFrame. cbn. rewrite Hq. cbn.
  split; [lia |]. intros entry Hin. apply list_elem_of_singleton in Hin.
  subst entry. reflexivity.
Qed.

Lemma oneLoop_spinRoulette (s : Roulette) : oneLoop s -> oneLoop (spinRoulette s).
Proof.
  intros H. destruct (isSpinningRef s) eqn:Hidle.
  { rewrite spinRoulette_spinning by exact Hidle. exact H. }
  destruct (decide (availableHeroes s = [])) as [Hpool | Hpool].
  - destruct (spinRoulette_empty s Hidle Hpool) as (_ & _ & _ & _ & Hq & _).
    unfold oneLoop. rewrite Hq, (afterCancel_nil s H). cbn.
    split; [lia |]. intros entry Hin. inversion Hin.
  - destruct (spinRoulette_shape s Hidle Hpool) as (cb & s' & s0 & k & -> & Hrest).
    apply oneLoop_requestAnimationFrame.
    destruct Hrest as (_ & _ & _ & _ & _ & _ & _ & _ & _ & _ & _ & Hq & _).
    rewrite Hq. apply afterCancel_nil. exact H.
Qed.

Lemma animationFrame_idle (timestamp : Q) (s : Roulette) :
  rafQueue s = [] -> animationFrame timestamp s = s.
Proof.
  intros Hq. unfold animationFrame. rewrite Hq. cbn.
  destruct s; cbn in *; subst; reflexivity.
Qed.

Lemma animationFrame_single (timestamp : Q) (s : Roulette) handle cb :
  rafQueue s = [(handle, cb)] ->
  animationFrame timestamp s = step timestamp cb (set_rafQueue [] s).
Proof. intros Hq. unfold animationFrame. rewrite Hq. reflexivity. Qed.

Lemma oneLoop_step (timestamp : Q) (cb : Step.closure) (s : Roulette) :
  rafQueue s = [] -> oneLoop (step timestamp cb s).
Proof.
  intros Hq. destruct (Qlt_le_dec (progressAt timestamp cb) 1) as [Hp | Hp].
  - destruct (step_continue timestamp cb s Hp) as (s' & -> & _ & Hq' & _).
    apply oneLoop_requestAnimationFrame. rewrite Hq'. exact Hq.
  - destruct (step_finish timestamp cb s Hp)
      as (_ & _ & _ & _ & _ & _ & _ & Hq' & _).
    unfold oneLoop. rewrite Hq', Hq. cbn. split; [lia |].
    intros entry Hin. inversion Hin.
Qed.

Lemma oneLoop_animationFrame (timestamp : Q) (s : Roulette) :
  oneLoop s -> oneLoop (animationFrame timestamp s).
Proof.
  intros H. pose proof H as [Hlen _].
  destruct (rafQueue s) as [| [h cb] [| e q]] eqn:Eq; cbn in Hlen; try lia.
  - rewrite animationFrame_idle by exact Eq. exact H.
  - rewrite (animationFrame_single timestamp s h cb Eq).
    apply oneLoop_step. reflexivity.
Qed.

Lemma oneLoop_unmount (s : Roulette) : oneLoop s -> oneLoop (unmount s).
Proof.
  intros [Hlen Htrack]. unfold unmount.
  destruct (animationFrameRef s) as [h |] eqn:Ea;
    [| unfold oneLoop; rewrite Ea; split; assumption].
  unfold oneLoop, cancelAnimationFrame. cbn. split.
  - etransitivity; [apply length_filter | exact Hlen].
  - intros entry Hin. apply list_elem_of_filter in Hin as [_ Hin].
    rewrite Ea. apply Htrack in Hin. exact Hin.
Qed.

Lemma oneLoop_handle (e : event) (s : Roulette) : oneLoop s -> oneLoop (handle e s).
Proof.
  destruct e; cbn.
  - apply oneLoop_spinRoulette.
  - apply oneLoop_animationFrame.
  - apply oneLoop_sameLoop, resetRoulette_sameLoop.
  - apply oneLoop_sameLoop, toggleRole_sameLoop.
  - apply oneLoop_sameLoop, toggleHeroBan_sameLoop.
  - apply oneLoop_unmount.
Qed.


Lemma oneLoop_mount catalog roles strip rnd : oneLoop (mount catalog roles strip rnd).
Proof.
  unfold mount. apply (oneLoop_sameLoop _ _ (rebuildPool_sameLoop _)).
  split; cbn; [lia |]. intros entry Hin. inversion Hin.
Qed.

(** ** Runs of frames *)

Lemma appliedOffset_applyVisualOffset (rawOffset : Q) (s : Roulette) :
  appliedOffset (applyVisualOffset rawOffset s)
  = match rouletteRef s with
    | Some _ => Some (normalized rawOffset s)
    | None => None
    end.
Proof.
  unfold applyVisualOffset, setTransform, appliedOffset, normalized, loopWidthOf.
  cbn. destruct (rouletteRef s) as [el |] eqn:E; cbn; rewrite ?E; [| reflexivity].
  destruct (_ || _); cbn; reflexivity.
Qed.

Lemma sameSpin_refl (cb : Step.closure) : sameSpin cb cb.
Proof. repeat split. Qed.

Lemma sameSpin_next (timestamp : Q) (cb : Step.closure) :
  sameSpin cb (nextClosure timestamp cb).
Proof. repeat split. Qed.

Lemma sameSpin_trans (cb1 cb2 cb3 : Step.closure) :
  sameSpin cb1 cb2 -> sameSpin cb2 cb3 -> sameSpin cb1 cb3.
Proof.
  unfold sameSpin. intros (-> & -> & -> & -> & -> & -> & -> & -> & ->) H. exact H.
Qed.

Lemma runFrames_cons (t : Q) (rest : list Q) (s : Roulette) :
  runFrames (t :: rest) s = runFrames rest (animationFrame t s).
Proof. reflexivity. Qed.

Lemma runFrames_idle (timestamps : list Q) (s : Roulette) :
  rafQueue s = [] -> runFrames timestamps s = s.
Proof.
  intros Hq. induction timestamps as [| t rest IH]; [reflexivity |].
  rewrite runFrames_cons, animationFrame_idle by exact Hq. exact IH.
Qed.

Lemma step_sameGeometry (timestamp : Q) (cb : Step.closure) (s : Roulette) :
  sameGeometry s (step timestamp cb s).
Proof.
  rewrite step_eq. cbv zeta.
  destruct (applyVisualOffset_eq (currentOffsetAt timestamp cb) s) as (r & -> & Hr).
  destruct (Qlt_bool _ 1).
  - repeat split; cbn; apply Hr.
  - match goal with |- context [applyVisualOffset ?o ?st] =>
      destruct (applyVisualOffset_eq o st) as (r' & -> & Hr')
    end.
    cbn in Hr'. repeat split; cbn; intros H.
    + apply Hr, Hr', H.
    + apply Hr', Hr, H.
Qed.

Lemma normalized_sameGeometry (rawOffset : Q) (s s' : Roulette) :
  sameGeometry s s' -> normalized rawOffset s' = normalized rawOffset s.
Proof.
  intros (_ & Hw & Hb & _). unfold normalized, loopWidthOf. rewrite Hw, Hb.
  reflexivity.
Qed.

(** After any number of frames a spin is either still pending with a closure
    of the same spin, or finished with its winner published and its final
    offset applied. *)
Lemma runFrames_outcome (timestamps : list Q) :
  forall (s : Roulette) handle cb,
    rafQueue s = [(handle, cb)] ->
    let sf := runFrames timestamps s in
    sameGeometry s sf /\
    ((exists handle' cb',
         rafQueue sf = [(handle', cb')] /\ sameSpin cb cb' /\
         isSpinningRef sf = isSpinningRef s /\ selectedHero sf = selectedHero s)
     \/
     (rafQueue sf = [] /\ isSpinningRef sf = false /\ isSpinning sf = false /\
      animationFrameRef sf = None /\ selectedHero sf = Step.randomHero cb /\
      virtualOffsetRef sf = Step.finalOffset cb /\
      appliedOffset sf
        = match rouletteRef s with
          | Some _ => Some (normalized (Step.finalOffset cb) s)
          | None => None
          end)).
Proof.
  induction timestamps as [| t rest IH]; intros s h cb Hq; cbv zeta.
  - split; [repeat split; auto |]. left. exists h, cb.
    repeat split. exact Hq.
  - rewrite runFrames_cons, (animationFrame_single t s h cb Hq).
    pose proof (step_sameGeometry t cb (set_rafQueue [] s)) as Hgeo.
    destruct (Qlt_le_dec (progressAt t cb) 1) as [Hp | Hp].
    + destruct (step_continue t cb (set_rafQueue [] s) Hp)
        as (s' & E & _ & Hq' & _ & Hsp & _ & Hsel & _).
      rewrite E in *. cbn in Hq', Hsp, Hsel.
      specialize (IH (requestAnimationFrame (nextClosure t cb) s')
                     (rafNext s') (nextClosure t cb)).
      cbn in IH. rewrite Hq' in IH. specialize (IH eq_refl).
      destruct IH as [Hgeo' IH]. split.
      { destruct Hgeo as (G1 & G2 & G3 & G4), Hgeo' as (G1' & G2' & G3' & G4').
        cbn in *. repeat split; try congruence; intros H.
        - apply G1, G1', H.
        - apply G1', G1, H. }
      destruct IH as [(h' & cb' & Hq'' & Hsame & Hsp' & Hsel') | Hfin].
      * left. exists h', cb'. split; [exact Hq'' |].
        split; [eapply sameSpin_trans; [apply sameSpin_next | exact Hsame] |].
        cbn in Hsp', Hsel'. split; congruence.
      * right. destruct Hfin as (F1 & F2 & F3 & F4 & F5 & F6 & F7).
        repeat split; try assumption.
        cbn in F7. rewrite F7.
        destruct Hgeo as (G1 & G2 & G3 & G4). cbn in G1, G2, G3.
        assert (Hn : normalized (Step.finalOffset cb) s'
                     = normalized (Step.finalOffset cb) s).
        { unfold normalized, loopWidthOf. cbn in *.
          rewrite <- G2, <- G3. reflexivity. }
        change (Step.finalOffset (nextClosure t cb)) with (Step.finalOffset cb).
        rewrite <- Hn.
        destruct (rouletteRef s') as [el |] eqn:E1,
                 (rouletteRef s) as [el' |] eqn:E2; try reflexivity.
        -- exfalso. destruct G1 as [G1 _]. destruct G1 as [? [=]]. eauto.
        -- exfalso. destruct G1 as [_ G1]. destruct G1 as [? [=]]. eauto.
    + destruct (step_finish t cb (set_rafQueue [] s) Hp)
        as (F1 & F2 & F3 & F4 & F5 & F6 & _ & F8 & _).
      cbn in F8. rewrite runFrames_idle by exact F8.
      split; [exact Hgeo |]. right.
      repeat split; try assumption.
      rewrite F6, appliedOffset_applyVisualOffset. reflexivity.
Qed.

(** ** Progress and tick ratios along a spin *)

Lemma startOf_next (t : Q) (cb : Step.closure) :
  startOf t (nextClosure t cb) = startOf t cb.
Proof.
  unfold startOf, nextClosure. cbn. unfold startOf.
  destruct (Qeq_bool (Step.animationStart cb) 0) eqn:E.
  - destruct (Qeq_bool t 0); reflexivity.
  - rewrite E. reflexivity.
Qed.

Lemma progressAt_next (t : Q) (cb : Step.closure) :
  progressAt t (nextClosure t cb) = progressAt t cb.
Proof. unfold progressAt. rewrite startOf_next. reflexivity. Qed.

Lemma progressAt_mono (t0 t : Q) (cb : Step.closure) :
  0 < Step.spinDuration cb -> t0 <= t ->
  progressAt t0 cb <= progressAt t cb.
Proof.
  intros Hd Ht. unfold progressAt, startOf.
  apply Q.min_le_compat_r.
  assert (Hinv : 0 <= / Step.spinDuration cb) by (apply Qinv_le_0_compat; lra).
  unfold Qdiv. apply Qmult_le_compat_r; [| exact Hinv].
  destruct (Qeq_bool (Step.animationStart cb) 0); lra.
Qed.

Lemma progressAt_fresh (t : Q) (cb : Step.closure) :
  Step.animationStart cb = 0 -> progressAt t cb == 0.
Proof.
  intros E. unfold progressAt, startOf. rewrite E. cbn.
  assert (E0 : (t - t) / Step.spinDuration cb == 0) by (unfold Qdiv; ring).
  rewrite E0. apply Q.min_l. lra.
Qed.

Lemma ratio_mono (p p' : Q) :
  p <= p' -> Qmax (5 # 100) (1 - p') <= Qmax (5 # 100) (1 - p).
Proof. intros H. apply Q.max_le_compat_l. lra. Qed.

Lemma nonincreasing_weaken (hi hi' : Q) (ratios : list Q) :
  hi <= hi' -> nonincreasing hi ratios -> nonincreasing hi' ratios.
Proof.
  destruct ratios as [| r rest]; cbn; [auto |].
  intros H [H1 H2]. split; [lra | exact H2].
Qed.

Lemma tickRatios_app (l1 l2 : list Sound) :
  tickRatios (l1 ++ l2) = tickRatios l1 ++ tickRatios l2.
Proof. apply omap_app. Qed.

Lemma winCalls_app (l1 l2 : list Sound) :
  winCalls (l1 ++ l2) = winCalls l1 ++ winCalls l2.
Proof. apply omap_app. Qed.

(** The ticks of the frames of one spin, from a pending closure on: they
    start below the ratio of the earliest possible frame and never go up. *)
Lemma runFrames_ticks (timestamps : list Q) :
  forall (t0 : Q) (s : Roulette) handle cb,
    rafQueue s = [(handle, cb)] ->
    0 < Step.spinDuration cb ->
    nondecreasing t0 timestamps ->
    exists new,
      sounds (runFrames timestamps s) = sounds s ++ new /\
      nonincreasing (Qmax (5 # 100) (1 - progressAt t0 cb)) (tickRatios new) /\
      Forall (fun r => 5 # 100 <= r) (tickRatios new) /\
      (length (winCalls new) <= 1)%nat.
Proof.
  induction timestamps as [| t rest IH]; intros t0 s h cb Hq Hd Hts.
  - exists []. rewrite app_nil_r. repeat split; [constructor | cbn; lia].
  - destruct Hts as [Ht Hrest].
    rewrite runFrames_cons, (animationFrame_single t s h cb Hq).
    pose proof (progressAt_mono t0 t cb Hd Ht) as Hmono.
    pose proof (ratio_mono _ _ Hmono) as Hratio.
    assert (Hfloor : 5 # 100 <= Qmax (5 # 100) (1 - progressAt t cb))
      by apply Q.le_max_l.
    destruct (Qlt_le_dec (progressAt t cb) 1) as [Hp | Hp].
    + destruct (step_continue t cb (set_rafQueue [] s) Hp)
        as (s' & -> & Hs & Hq' & _).
      cbn in Hs, Hq'.
      destruct (IH t (requestAnimationFrame (nextClosure t cb) s')
                  (rafNext s') (nextClosure t cb))
        as (new & Hnew & Hsorted & Hall & Hwin);
        [cbn; rewrite Hq'; reflexivity | exact Hd | exact Hrest |].
      rewrite progressAt_next in Hsorted.
      exists (tickOf t cb ++ new). cbn in Hnew. rewrite Hnew, Hs, app_assoc.
      split; [reflexivity |]. rewrite tickRatios_app, winCalls_app.
      destruct (tickOf_cases t cb) as [-> | ->]; cbn.
      * split; [| split; [exact Hall | exact Hwin]].
        eapply nonincreasing_weaken; eassumption.
      * split; [split; assumption |].
        split; [constructor; assumption | exact Hwin].
    + destruct (step_finish t cb (set_rafQueue [] s) Hp)
        as (_ & _ & _ & _ & _ & _ & Hs & Hq' & _).
      cbn in Hs, Hq'. rewrite runFrames_idle by exact Hq'.
      exists (tickOf t cb ++ [Win]). split; [exact Hs |].
      rewrite tickRatios_app, winCalls_app. cbn. rewrite app_nil_r.
      destruct (tickOf_cases t cb) as [-> | ->]; cbn.
      * split; [exact I | split; [constructor | lia]].
      * split; [split; [assumption | exact I] |].
        split; [repeat constructor; assumption | lia].
Qed.

(** ** The pool and the catalog *)

Lemma activeHeroes_of_nil (s : Roulette) : heroes s = [] -> activeHeroes s = [].
Proof.
  intros H. unfold activeHeroes. rewrite H.
  destruct (_ =? _)%nat; destruct (_ =? _)%nat; reflexivity.
Qed.

Lemma availableHeroes_nil (s : Roulette) :
  availableHeroes s = [] <-> heroes s = [].
Proof.
  unfold availableHeroes. split.
  - destruct (activeHeroes s) as [| x l] eqn:E; cbn; [auto | discriminate].
  - intros H. rewrite (activeHeroes_of_nil s H), H. reflexivity.
Qed.

Lemma availableHeroes_fallback (s : Roulette) :
  activeHeroes s = [] -> availableHeroes s = heroes s.
Proof. intros H. unfold availableHeroes. rewrite H. reflexivity. Qed.

(** ** Spinning needs a pool *)

Lemma spinningHasPool_sameLoop (s s' : Roulette) :
  sameLoop s s' -> spinningHasPool s -> spinningHasPool s'.
Proof.
  unfold sameLoop, spinningHasPool. intros (_ & _ & _ & -> & _ & -> & _) H. exact H.
Qed.

Lemma spinningHasPool_spinRoulette (s : Roulette) :
  spinningHasPool s -> spinningHasPool (spinRoulette s).
Proof.
  intros H. destruct (isSpinningRef s) eqn:Hidle.
  { rewrite spinRoulette_spinning by exact Hidle. exact H. }
  destruct (decide (availableHeroes s = [])) as [Hpool | Hpool].
  - destruct (spinRoulette_empty s Hidle Hpool) as (Hs & _).
    intros Hsp. congruence.
  - destruct (spinRoulette_shape s Hidle Hpool) as (cb & s' & s0 & k & -> & Hrest).
    destruct Hrest as (_ & _ & _ & _ & _ & _ & _ & _ & _ & _ & _ & _ & _ & _ & Hh & _).
    intros _. cbn. rewrite Hh. intros E. apply Hpool, availableHeroes_nil, E.
Qed.

Lemma spinningHasPool_step (timestamp : Q) (cb : Step.closure) (s s0 : Roulette) :
  heroes s = heroes s0 -> isSpinningRef s = isSpinningRef s0 ->
  spinningHasPool s0 -> spinningHasPool (step timestamp cb s).
Proof.
  intros Hh Hsp H.
  destruct (Qlt_le_dec (progressAt timestamp cb) 1) as [Hp | Hp].
  - destruct (step_continue timestamp cb s Hp)
      as (s' & -> & _ & _ & _ & Hsp' & _ & _ & Hh' & _).
    unfold spinningHasPool. cbn. rewrite Hsp', Hh', Hsp, Hh. exact H.
  - destruct (step_finish timestamp cb s Hp) as (Hs & _).
    intros E. congruence.
Qed.

Lemma spinningHasPool_handle (e : event) (s : Roulette) :
  oneLoop s -> spinningHasPool s -> spinningHasPool (handle e s).
Proof.
  intros Hone H. destruct e; cbn.
  - apply spinningHasPool_spinRoulette, H.
  - pose proof Hone as [Hlen _].
    destruct (rafQueue s) as [| [h cb] [| e q]] eqn:Eq; cbn in Hlen; try lia.
    + rewrite animationFrame_idle by exact Eq. exact H.
    + rewrite (animationFrame_single timestamp s h cb Eq).
      apply (spinningHasPool_step _ _ _ s); [reflexivity | reflexivity | exact H].
  - apply (spinningHasPool_sameLoop s), H. apply resetRoulette_sameLoop.
  - apply (spinningHasPool_sameLoop s), H. apply toggleRole_sameLoop.
  - apply (spinningHasPool_sameLoop s), H. apply toggleHeroBan_sameLoop.
  - unfold unmount. destruct (animationFrameRef s); exact H.
Qed.

Lemma reachable_invariants (events : list event) (s : Roulette) :
  oneLoop s -> spinningHasPool s ->
  oneLoop (run events s) /\ spinningHasPool (run events s).
Proof.
  revert s. induction events as [| e events IH]; intros s H1 H2; cbn.
  - split; assumption.
  - apply IH; [apply oneLoop_handle, H1 | apply spinningHasPool_handle; assumption].
Qed.

Lemma spinningHasPool_mount catalog roles strip rnd :
  spinningHasPool (mount catalog roles strip rnd).
Proof.
  unfold mount. eapply spinningHasPool_sameLoop; [apply rebuildPool_sameLoop |].
  intros E. discriminate E.
Qed.

(** ** The queue and the sounds of a spin *)

(** The queue right after a spin has started from a state with at most one
    tracked callback: the new callback alone. *)
Lemma spinRoulette_queue (s : Roulette) :
  oneLoop s -> isSpinningRef s = false -> availableHeroes s <> [] ->
  unitOracle (rand s) ->
  exists cb,
    rafQueue (spinRoulette s) = [(rafNext s, cb)] /\
    animationFrameRef (spinRoulette s) = Some (rafNext s) /\
    isSpinningRef (spinRoulette s) = true /\
    selectedHero (spinRoulette s) = None /\
    sounds (spinRoulette s) = sounds s /\
    baseHeroesRef (spinRoulette s) = Step.shuffledHeroes cb /\
    heroSlotWidthRef (spinRoulette s) = Step.slotWidth cb /\
    (is_Some (rouletteRef (spinRoulette s)) <-> is_Some (rouletteRef s)) /\
    freshClosure cb /\
    Step.shuffledHeroes cb ≡ₚ availableHeroes s /\
    (0 < heroSlotWidthRef s -> 0 < Step.slotWidth cb).
Proof.
  intros Hone Hidle Hpool Hr.
  destruct (spinRoulette_started s Hidle Hpool Hr)
    as (cb & s' & -> & Hfresh & Hperm & Hw & Hb & Hsw & Hsp & _ & Hsel & Hq & Hn
        & Hs & _ & _ & Hel).
  exists cb. cbn. rewrite Hq, (afterCancel_nil s Hone), Hn. cbn.
  split; [reflexivity |]. split; [reflexivity |].
  repeat (split; [assumption |]). assumption.
Qed.


Lemma spinDuration_pos (cb : Step.closure) :
  freshClosure cb -> 0 < Step.spinDuration cb.
Proof.
  intros (_ & [He _] & _ & -> & _).
  assert (H : inject_Z 2 <= inject_Z (Step.extraLoops cb)) by (rewrite <- Zle_Qle; lia).
  change (inject_Z 2) with 2 in H.
  unfold BASE_SPIN_DURATION, SPIN_DURATION_PER_LOOP. lra.
Qed.

(** Facts about the example components. *)
Lemma demo_oracle : unitOracle (rand demo).
Proof.
  intros k. split; [apply Qle_bool_iff | apply Qlt_bool_iff]; reflexivity.
Qed.

Lemma demo_oneLoop : oneLoop demo.
Proof.
  split; [vm_compute; lia |]. intros entry Hin. vm_compute in Hin. inversion Hin.
Qed.

Lemma demo_pool : availableHeroes demo <> [].
Proof. vm_compute. discriminate. Qed.

(** C7: every frame of a spin that plays a tick passes it
    [max(0.05, 1 - progress)] for the progress of that frame; over the
    frames of one spin with timestamps that never go back, the ratios of
    the ticks never go up, start at most at 1, and each is at least 0.05,
    hence positive. *)
Theorem C7_tick_ratio_decays (s : Roulette) (t0 : Q) (timestamps : list Q) :
  oneLoop s -> isSpinningRef s = false -> availableHeroes s <> [] ->
  unitOracle (rand s) -> nondecreasing t0 timestamps ->
  (forall t cb st,
      tickRatios (sounds (step t cb st))
      = tickRatios (sounds st) ++ tickRatios (tickOf t cb) /\
      (tickOf t cb = [] \/
       tickOf t cb = [Tick (Qmax (5 # 100) (1 - progressAt t cb))])) /\
  exists new,
    sounds (runFrames timestamps (spinRoulette s)) = sounds s ++ new /\
    nonincreasing 1 (tickRatios new) /\
    Forall (fun r => 5 # 100 <= r /\ 0 < r) (tickRatios new).
Proof.
  intros Hone Hidle Hpool Hr Hts. split.
  - intros t cb st. split; [| apply tickOf_cases].
    destruct (Qlt_le_dec (progressAt t cb) 1) as [Hp | Hp].
    + destruct (step_continue t cb st Hp) as (s' & -> & Hs & _).
      cbn. rewrite Hs. apply tickRatios_app.
    + destruct (step_finish t cb st Hp) as (_ & _ & _ & _ & _ & _ & Hs & _).
      rewrite Hs, !tickRatios_app. cbn. rewrite app_nil_r. reflexivity.
  - destruct (spinRoulette_queue s Hone Hidle Hpool Hr)
      as (cb & Hq & _ & _ & _ & Hs & _ & _ & _ & Hfresh & _).
    destruct (runFrames_ticks timestamps t0 (spinRoulette s) (rafNext s) cb Hq
                (spinDuration_pos cb Hfresh) Hts)
      as (new & Hnew & Hsorted & Hall & _).
    exists new. rewrite Hnew, Hs. split; [reflexivity |]. split.
    + eapply nonincreasing_weaken; [| exact Hsorted].
      destruct Hfresh as (_ & _ & _ & _ & _ & _ & _ & Hstart & _).
      rewrite (progressAt_fresh t0 cb Hstart). apply Q.max_lub; lra.
    + eapply Forall_impl; [exact Hall |]. cbn. intros r Hr5. split; lra.
Qed.

Lemma C7_tick_ratio_witness :
  exists new,
    sounds (runFrames [1000; 5000; 9000; 30000] (spinRoulette demo))
    = sounds demo ++ new /\
    nonincreasing 1 (tickRatios new) /\
    Forall (fun r => 5 # 100 <= r /\ 0 < r) (tickRatios new).
Proof.
  apply (C7_tick_ratio_decays demo 0 [1000; 5000; 9000; 30000]);
    [exact demo_oneLoop | reflexivity | exact demo_pool | exact demo_oracle |].
  cbn. repeat split; apply Qle_bool_iff; reflexivity.
Defined.

Lemma jsIndex_in_range {A : Type} (array : list A) (i : Z) :
  (0 <= i)%Z -> (i < Z.of_nat (length array))%Z ->
  exists x, jsIndex array i = Some x /\ array !! Z.to_nat i = Some x.
Proof.
  intros H0 H1. unfold jsIndex.
  rewrite (proj2 (Z.ltb_ge i 0)) by lia.
  destruct (lookup_lt_is_Some_2 array (Z.to_nat i)) as [x Hx]; [lia |].
  exists x. split; exact Hx.
Qed.

(** The index a spin chooses and the hero it stores, for the functions
    [spinRoulette] and [step] alone, over the list the spin draws from. *)
Lemma spinRoulette_index_and_winner (s : Roulette) :
  isSpinningRef s = false -> availableHeroes s <> [] -> unitOracle (rand s) ->
  exists cb s' hero,
    spinRoulette s = requestAnimationFrame cb s' /\
    poolSize cb = Z.of_nat (length (availableHeroes s)) /\
    ((0 <= Step.randomIndex cb)%Z /\ (Step.randomIndex cb < poolSize cb)%Z) /\
    (let p := (randPos s + (length (availableHeroes s) - 1))%nat in
     let n := poolSize cb in
     ((1 < n)%Z ->
      Qfloor (rand s p * inject_Z n) = 0%Z ->
      rand s (S p) < 35 # 100 ->
      Step.randomIndex cb
        = (1 + Qfloor (rand s (S (S p)) * inject_Z (n - 1)))%Z /\
      (1 <= Step.randomIndex cb)%Z /\ (Step.randomIndex cb < n)%Z) /\
     ((n <= 1)%Z \/ Qfloor (rand s p * inject_Z n) <> 0%Z \/
      35 # 100 <= rand s (S p) ->
      Step.randomIndex cb = Qfloor (rand s p * inject_Z n))) /\
    baseHeroesRef (spinRoulette s) = Step.shuffledHeroes cb /\
    Step.shuffledHeroes cb ≡ₚ availableHeroes s /\
    Step.shuffledHeroes cb !! Z.to_nat (Step.randomIndex cb) = Some hero /\
    Step.randomHero cb = Some hero /\
    hero ∈ availableHeroes s /\
    (length (availableHeroes s) = 1%nat -> availableHeroes s = [hero]) /\
    (oneLoop s ->
     forall timestamps,
       let sf := runFrames timestamps (spinRoulette s) in
       (isSpinningRef sf = true /\ selectedHero sf = None) \/
       (isSpinningRef sf = false /\ selectedHero sf = Some hero)).
Proof.
  intros Hidle Hpool Hr.
  destruct (spinRoulette_shape s Hidle Hpool)
    as (cb & s' & s0 & k & E & Hshape & Hperm & Hri & Hrs & _ & _ & Hb & _ & Hsp
        & _ & Hsel & Hq & _ & _ & _ & _ & _ & Hp).
  assert (Hsize : poolSize cb = Z.of_nat (length (availableHeroes s)))
    by (unfold poolSize; rewrite (Permutation_length Hperm); reflexivity).
  assert (Hn : (0 < poolSize cb)%Z).
  { rewrite Hsize. destruct (availableHeroes s); [congruence | cbn; lia]. }
  assert (Hr0 : unitOracle (rand s0)) by (rewrite Hrs; exact Hr).
  pose proof (pickRandomIndex_in_range (poolSize cb) s0 Hr0 Hn) as Hrange.
  rewrite <- Hri in Hrange.
  destruct (jsIndex_in_range (Step.shuffledHeroes cb) (Step.randomIndex cb))
    as (hero & Hjs & Hlook); [apply Hrange | apply Hrange |].
  assert (Hhero : Step.randomHero cb = Some hero)
    by (destruct Hshape as (-> & _); exact Hjs).
  assert (Hin : hero ∈ availableHeroes s).
  { rewrite <- Hperm. eapply list_elem_of_lookup_2. exact Hlook. }
  exists cb, s', hero.
  split; [exact E |]. split; [exact Hsize |]. split; [exact Hrange |].
  split.
  { cbv zeta. rewrite <- Hp, <- Hrs, Hri. split.
    - intros H1 H2 H3. apply pickRandomIndex_reroll; assumption.
    - apply pickRandomIndex_keep. }
  split; [rewrite E; cbn; exact Hb |].
  split; [exact Hperm |]. split; [exact Hlook |]. split; [exact Hhero |].
  split; [exact Hin |]. split.
  { intros Hlen. destruct (availableHeroes s) as [| x [| y l]]; cbn in Hlen; try lia.
    apply list_elem_of_singleton in Hin. subst. reflexivity. }
  intros Hone timestamps sf.
  assert (Hqueue : rafQueue (spinRoulette s) = [(rafNext s', cb)]).
  { rewrite E. cbn. rewrite Hq, (afterCancel_nil s Hone). reflexivity. }
  destruct (runFrames_outcome timestamps (spinRoulette s) _ cb Hqueue) as [_ Hout].
  fold sf in Hout.
  assert (Hsp0 : isSpinningRef (spinRoulette s) = true) by (rewrite E; exact Hsp).
  assert (Hsel0 : selectedHero (spinRoulette s) = None) by (rewrite E; exact Hsel).
  destruct Hout as [(h' & cb' & _ & _ & Hsp' & Hsel') | (_ & F2 & _ & _ & F5 & _)].
  - left. split; congruence.
  - right. split; congruence.
Qed.

(** A first frame at a non-zero timestamp and a second one a full spin
    duration later finish the spin. *)
Lemma two_frames_finish (s : Roulette) handle cb (t1 t2 : Q) :
  rafQueue s = [(handle, cb)] ->
  Step.animationStart cb = 0 -> 0 < Step.spinDuration cb ->
  ~ t1 == 0 -> t1 + Step.spinDuration cb <= t2 ->
  isSpinningRef (runFrames [t1; t2] s) = false.
Proof.
  intros Hq Hstart Hd Ht1 Ht2.
  rewrite runFrames_cons, (animationFrame_single t1 s handle cb Hq).
  assert (Hp1 : progressAt t1 cb < 1) by (rewrite (progressAt_fresh t1 cb Hstart); lra).
  destruct (step_continue t1 cb (set_rafQueue [] s) Hp1) as (s' & -> & _ & Hq' & _).
  cbn in Hq'.
  rewrite runFrames_cons,
    (animationFrame_single t2 _ (rafNext s') (nextClosure t1 cb))
    by (cbn; rewrite Hq'; reflexivity).
  assert (Hp2 : 1 <= progressAt t2 (nextClosure t1 cb)).
  { unfold progressAt, startOf, nextClosure. cbn. unfold startOf.
    rewrite Hstart. change (Qeq_bool 0 0) with true. cbv iota.
    destruct (Qeq_bool t1 0) eqn:E; [apply Qeq_bool_iff in E; contradiction |].
    apply Q.min_glb; [| lra].
    apply Qle_shift_div_l; [exact Hd | lra]. }
  rewrite runFrames_idle.
  - apply (step_finish t2 (nextClosure t1 cb) _ Hp2).
  - destruct (step_finish t2 (nextClosure t1 cb)
                (set_rafQueue [] (requestAnimationFrame (nextClosure t1 cb) s')) Hp2)
      as (_ & _ & _ & _ & _ & _ & _ & Hq2 & _).
    exact Hq2.
Qed.



Lemma baseHeroesRef_commitShuffled (source : list Hero) (s : Roulette) :
  baseHeroesRef (commitShuffled source s) ≡ₚ source.
Proof. rewrite commitShuffled_eq. cbn. apply shuffleList_Permutation. Qed.

Lemma baseHeroesRef_resetRoulette (s : Roulette) :
  baseHeroesRef (resetRoulette s) ≡ₚ availableHeroes s.
Proof.
  unfold resetRoulette.
  match goal with |- context [applyVisualOffset ?o ?st] =>
    destruct (applyVisualOffset_eq o st) as (r & -> & _)
  end.
  cbn [baseHeroesRef set_rouletteRef set_virtualOffsetRef].
  rewrite baseHeroesRef_commitShuffled.
  apply reflexive_eq, availableHeroes_ext; reflexivity.
Qed.

(** The winner a starting spin stores, for any non-empty pool. *)
Lemma spinRoulette_winner (s : Roulette) :
  isSpinningRef s = false -> availableHeroes s <> [] -> unitOracle (rand s) ->
  exists cb s' hero,
    spinRoulette s = requestAnimationFrame cb s' /\
    isSpinningRef (spinRoulette s) = true /\
    baseHeroesRef (spinRoulette s) = Step.shuffledHeroes cb /\
    Step.shuffledHeroes cb ≡ₚ availableHeroes s /\
    Step.randomHero cb = Some hero /\ hero ∈ availableHeroes s.
Proof.
  intros Hidle Hpool Hr.
  destruct (spinRoulette_started s Hidle Hpool Hr)
    as (cb & s' & E & Hfresh & Hperm & _ & Hb & _ & Hsp & _).
  destruct Hfresh as (Hrange & _ & Hhero & _).
  destruct (jsIndex_in_range (Step.shuffledHeroes cb) (Step.randomIndex cb))
    as (hero & Hjs & Hlook); [apply Hrange | apply Hrange |].
  exists cb, s', hero. rewrite E. cbn.
  split; [reflexivity |]. split; [exact Hsp |]. split; [exact Hb |].
  split; [exact Hperm |]. split; [congruence |].
  rewrite <- Hperm. eapply list_elem_of_lookup_2. exact Hlook.
Qed.

(** C9: when the filtered list is empty and the catalog is not, the source
    list of the spin, of the rebuild effect and of the reset is the whole
    catalog: each commits a permutation of the catalog, and a spin from the
    idle phase starts and stores a winner taken from the catalog; a spin
    from the idle phase ends idle at once exactly when the catalog is
    empty. *)
Theorem C9_empty_filter_falls_back_to_catalog :
  (forall s,
      activeHeroes s = [] -> heroes s <> [] -> unitOracle (rand s) ->
      availableHeroes s = heroes s /\
      baseHeroesRef (rebuildPool s) ≡ₚ heroes s /\
      baseHeroesRef (resetRoulette s) ≡ₚ heroes s /\
      (isSpinningRef s = false ->
       exists cb s' hero,
         spinRoulette s = requestAnimationFrame cb s' /\
         isSpinningRef (spinRoulette s) = true /\
         baseHeroesRef (spinRoulette s) ≡ₚ heroes s /\
         Step.randomHero cb = Some hero /\ hero ∈ heroes s)) /\
  (forall s,
      isSpinningRef s = false ->
      (isSpinningRef (spinRoulette s) = false <-> heroes s = [])).
Proof.
  split.
  - intros s Hactive Hcat Hr.
    pose proof (availableHeroes_fallback s Hactive) as Hav.
    split; [exact Hav |].
    split; [unfold rebuildPool; rewrite baseHeroesRef_commitShuffled, Hav; reflexivity |].
    split; [rewrite baseHeroesRef_resetRoulette, Hav; reflexivity |].
    intros Hidle.
    assert (Hpool : availableHeroes s <> []) by (rewrite Hav; exact Hcat).
    destruct (spinRoulette_winner s Hidle Hpool Hr)
      as (cb & s' & hero & E & Hsp & Hb & Hperm & Hhero & Hin).
    exists cb, s', hero. rewrite <- Hav.
    split; [exact E |]. split; [exact Hsp |].
    split; [rewrite Hb; exact Hperm |]. split; assumption.
  - intros s Hidle. split.
    + intros Hdone. apply availableHeroes_nil.
      destruct (decide (availableHeroes s = [])) as [Hpool | Hpool]; [exact Hpool |].
      destruct (spinRoulette_shape s Hidle Hpool) as (cb & s' & s0 & k & E & Hrest).
      destruct Hrest as (_ & _ & _ & _ & _ & _ & _ & _ & Hsp & _).
      rewrite E in Hdone. cbn in Hdone. congruence.
    + intros Hcat. apply availableHeroes_nil in Hcat.
      apply (spinRoulette_empty s Hidle Hcat).
Qed.

Lemma demoBanned_oracle : unitOracle (rand demoBanned).
Proof.
  intros k. split; [apply Qle_bool_iff | apply Qlt_bool_iff]; reflexivity.
Qed.

Lemma C9_fallback_witness :
  availableHeroes demoBanned = heroes demoBanned /\
  baseHeroesRef (rebuildPool demoBanned) ≡ₚ heroes demoBanned /\
  baseHeroesRef (resetRoulette demoBanned) ≡ₚ heroes demoBanned /\
  (exists cb s' hero,
      spinRoulette demoBanned = requestAnimationFrame cb s' /\
      isSpinningRef (spinRoulette demoBanned) = true /\
      baseHeroesRef (spinRoulette demoBanned) ≡ₚ heroes demoBanned /\
      Step.randomHero cb = Some hero /\ hero ∈ heroes demoBanned) /\
  (isSpinningRef (spinRoulette demoEmpty) = false <-> heroes demoEmpty = []).
Proof.
  destruct C9_empty_filter_falls_back_to_catalog as [Hfall Hexit].
  destruct (Hfall demoBanned) as (H1 & H2 & H3 & H4);
    [vm_compute; reflexivity | vm_compute; discriminate | exact demoBanned_oracle |].
  split; [exact H1 |]. split; [exact H2 |]. split; [exact H3 |].
  split; [apply H4; reflexivity |].
  apply Hexit. reflexivity.
Defined.

(** * Further properties of the code *)

(** ** Role mapping *)

Lemma mapRoleIdToHeroRole_rolesOf (roleIds : list string) :
  mapRoleIdToHeroRole roleIds
  = rolesOf (bool_decide ("CARRY" ∈ roleIds)) (bool_decide ("NUKER" ∈ roleIds))
            (bool_decide ("PUSHER" ∈ roleIds)) (bool_decide ("INITIATOR" ∈ roleIds))
            (bool_decide ("DURABLE" ∈ roleIds)) (bool_decide ("SUPPORT" ∈ roleIds))
            (bool_decide ("DISABLER" ∈ roleIds)).
Proof.
  cbv delta [mapRoleIdToHeroRole]. cbv beta.
  match goal with
  | |- (let hasRole := ?v in @?body hasRole) = ?rhs => change (body v = rhs)
  end.
  cbv beta.
  generalize (bool_decide ("CARRY" ∈ roleIds)), (bool_decide ("NUKER" ∈ roleIds)),
    (bool_decide ("PUSHER" ∈ roleIds)), (bool_decide ("INITIATOR" ∈ roleIds)),
    (bool_decide ("DURABLE" ∈ roleIds)), (bool_decide ("SUPPORT" ∈ roleIds)),
    (bool_decide ("DISABLER" ∈ roleIds)).
  clear roleIds.
  intros c n p i d s x. destruct c, n, p, i, d, s, x; vm_compute; reflexivity.
Qed.

(** X1: [mapRoleIdToHeroRole] has a closed form in the presence of seven role
    ids: carry for CARRY, mid for NUKER or PUSHER, offlane for INITIATOR or
    DURABLE without CARRY, hard support for SUPPORT and soft support for
    SUPPORT with DISABLER, NUKER, INITIATOR or PUSHER, in this order.  The
    three additional checks and the fallback of the source never add a
    role, and the final removal of duplicates removes nothing. *)
Theorem mapRoleIdToHeroRole_closed_form (roleIds : list string) :
  let has (role : string) : bool := bool_decide (role ∈ roleIds) in
  mapRoleIdToHeroRole roleIds
  = (if has "CARRY" then [carry] else [])
    ++ (if has "NUKER" || has "PUSHER" then [mid] else [])
    ++ (if has "INITIATOR" || (has "DURABLE" && negb (has "CARRY"))
        then [offlane] else [])
    ++ (if has "SUPPORT" then
          hard_support
          :: (if has "DISABLER" || has "NUKER" || has "INITIATOR" || has "PUSHER"
              then [soft_support] else [])
        else []).
Proof. intros has. rewrite mapRoleIdToHeroRole_rolesOf. reflexivity. Qed.

Lemma rolesOf_NoDup (c n p i d s x : bool) : NoDup (rolesOf c n p i d s x).
Proof.
  destruct c, n, p, i, d, s, x; apply (bool_decide_unpack _); vm_compute; exact I.
Qed.

(** X2: the roles have no duplicate; there is none exactly when the ids contain
    none of CARRY, NUKER, PUSHER, INITIATOR, DURABLE and SUPPORT; and the
    result depends on the ids only through which of them are present. *)
Theorem mapRoleIdToHeroRole_nodup_empty (roleIds : list string) :
  NoDup (mapRoleIdToHeroRole roleIds) /\
  (mapRoleIdToHeroRole roleIds = [] <->
   ("CARRY" ∉ roleIds) /\ ("NUKER" ∉ roleIds) /\ ("PUSHER" ∉ roleIds) /\
   ("INITIATOR" ∉ roleIds) /\ ("DURABLE" ∉ roleIds) /\ ("SUPPORT" ∉ roleIds)) /\
  (forall roleIds' : list string,
      (forall id, id ∈ roleIds <-> id ∈ roleIds') ->
      mapRoleIdToHeroRole roleIds' = mapRoleIdToHeroRole roleIds).
Proof.
  split; [rewrite mapRoleIdToHeroRole_rolesOf; apply rolesOf_NoDup |].
  split.
  - rewrite mapRoleIdToHeroRole_rolesOf.
    destruct (bool_decide_reflect ("CARRY" ∈ roleIds)),
      (bool_decide_reflect ("NUKER" ∈ roleIds)),
      (bool_decide_reflect ("PUSHER" ∈ roleIds)),
      (bool_decide_reflect ("INITIATOR" ∈ roleIds)),
      (bool_decide_reflect ("DURABLE" ∈ roleIds)),
      (bool_decide_reflect ("SUPPORT" ∈ roleIds)),
      (bool_decide ("DISABLER" ∈ roleIds)); cbn;
      (split; [discriminate || tauto | tauto || (intros; reflexivity)]).
  - intros roleIds' Hsame. rewrite !mapRoleIdToHeroRole_rolesOf.
    assert (Hb : forall id : string,
               bool_decide (id ∈ roleIds') = bool_decide (id ∈ roleIds))
      by (intros id; apply bool_decide_ext; symmetry; apply Hsame).
    rewrite !Hb. reflexivity.
Qed.

(** ** Shuffle and strip *)



Lemma lookup_mjoin_replicate {A : Type} (k : nat) (base : list A) (i : nat) :
  (i < k * length base)%nat ->
  mjoin (replicate k base) !! i = base !! (i mod length base)%nat.
Proof.
  revert i. induction k as [| k IH]; intros i Hi; [lia |].
  change (mjoin (replicate (S k) base)) with (base ++ mjoin (replicate k base)).
  destruct (decide (i < length base)%nat) as [Hlt | Hge].
  - rewrite lookup_app_l by exact Hlt. rewrite Nat.mod_small by exact Hlt. reflexivity.
  - rewrite lookup_app_r by lia. rewrite IH by (cbn in Hi; lia).
    f_equal.
    replace i with ((i - length base) + 1 * length base)%nat at 2 by lia.
    rewrite Nat.Div0.mod_add. reflexivity.
Qed.

Lemma length_mjoin_replicate {A : Type} (k : nat) (base : list A) :
  length (mjoin (replicate k base)) = (k * length base)%nat.
Proof.
  induction k as [| k IH]; [reflexivity |].
  change (mjoin (replicate (S k) base)) with (base ++ mjoin (replicate k base)).
  rewrite length_app, IH. lia.
Qed.

Lemma buildLoopedHeroes_lookup (base : list Hero) (i : nat) :
  (i < REPEAT_COUNT * length base)%nat ->
  buildLoopedHeroes base !! i = base !! (i mod length base)%nat.
Proof.
  intros Hi. unfold buildLoopedHeroes.
  destruct (length base) eqn:El; [lia |]. cbn [Nat.eqb]. rewrite <- El.
  apply lookup_mjoin_replicate. rewrite El. exact Hi.
Qed.

Lemma buildLoopedHeroes_length (base : list Hero) :
  length (buildLoopedHeroes base) = (REPEAT_COUNT * length base)%nat.
Proof.
  unfold buildLoopedHeroes. destruct (length base) eqn:El; [cbn; lia |].
  cbn [Nat.eqb]. rewrite length_mjoin_replicate, El. reflexivity.
Qed.

Lemma buildLoopedHeroes_elem_of (base : list Hero) (hero : Hero) :
  hero ∈ buildLoopedHeroes base <-> hero ∈ base.
Proof.
  split.
  - intros Hin. apply list_elem_of_lookup in Hin as [i Hi].
    assert (Hlt : (i < REPEAT_COUNT * length base)%nat)
      by (rewrite <- buildLoopedHeroes_length; eapply lookup_lt_Some; exact Hi).
    rewrite (buildLoopedHeroes_lookup base i Hlt) in Hi.
    eapply list_elem_of_lookup_2. exact Hi.
  - intros Hin. apply list_elem_of_lookup in Hin as [i Hi].
    assert (Hlt : (i < length base)%nat) by (eapply lookup_lt_Some; exact Hi).
    apply list_elem_of_lookup. exists i.
    rewrite buildLoopedHeroes_lookup by (unfold REPEAT_COUNT; lia).
    rewrite Nat.mod_small by exact Hlt. exact Hi.
Qed.

(** X4: the looped strip has [REPEAT_COUNT] times the length of its base, shows
    at index [i] the hero at index [i mod length] of the base, holds exactly
    the heroes of the base, and is empty for an empty base. *)
Theorem buildLoopedHeroes_layout (base : list Hero) :
  length (buildLoopedHeroes base) = (REPEAT_COUNT * length base)%nat /\
  (forall i, (i < REPEAT_COUNT * length base)%nat ->
             buildLoopedHeroes base !! i = base !! (i mod length base)%nat) /\
  (forall hero, hero ∈ buildLoopedHeroes base <-> hero ∈ base) /\
  buildLoopedHeroes [] = [].
Proof.
  split; [apply buildLoopedHeroes_length |].
  split; [apply buildLoopedHeroes_lookup |].
  split; [apply buildLoopedHeroes_elem_of | reflexivity].
Qed.

Lemma buildLoopedHeroes_witness :
  buildLoopedHeroes [Axe; Bane; Lina] !! 16%nat = Some Bane.
Proof.
  destruct (buildLoopedHeroes_layout [Axe; Bane; Lina]) as (_ & Hlook & _).
  rewrite Hlook by (vm_compute; lia). reflexivity.
Defined.

(** ** Role and ban filters *)

Lemma selectedRoles_nil (s : Roulette) :
  (length (selectedRoles s) =? 0)%nat = true <-> selectedRoles s = [].
Proof.
  rewrite Nat.eqb_eq. destruct (selectedRoles s); cbn; split; congruence.
Qed.

Lemma bannedHeroIds_empty (s : Roulette) :
  (size (bannedHeroIds s) =? 0)%nat = true <-> bannedHeroIds s = ∅.
Proof.
  rewrite Nat.eqb_eq, size_empty_iff. split; [apply leibniz_equiv | intros ->; reflexivity].
Qed.

Lemma activeHeroes_spec (s : Roulette) :
  (forall hero,
      hero ∈ activeHeroes s <->
      hero ∈ heroes s /\
      heroId hero ∉ bannedHeroIds s /\
      (selectedRoles s = [] \/
       exists role, role ∈ default [] (heroesRolesMap s !! displayName hero) /\
                    role ∈ selectedRoles s)) /\
  sublist (activeHeroes s) (heroes s) /\
  (selectedRoles s = [] -> bannedHeroIds s = ∅ -> activeHeroes s = heroes s).
Proof.
  unfold activeHeroes.
  destruct (length (selectedRoles s) =? 0)%nat eqn:Er;
    destruct (size (bannedHeroIds s) =? 0)%nat eqn:Eb.
  - apply selectedRoles_nil in Er. apply bannedHeroIds_empty in Eb.
    rewrite Er, Eb. split; [| split; [reflexivity | reflexivity]].
    intros hero. split; [intros H; repeat split; [exact H | set_solver | left; reflexivity] | tauto].
  - apply selectedRoles_nil in Er. rewrite Er.
    split; [| split; [apply sublist_filter |]].
    + intros hero. rewrite list_elem_of_filter.
      split; [intros [H1 H2]; repeat split; [exact H2 | exact H1 | left; reflexivity] | tauto].
    + intros _ Hb. apply bannedHeroIds_empty in Hb. congruence.
  - apply bannedHeroIds_empty in Eb. rewrite Eb.
    assert (Hne : selectedRoles s <> [])
      by (intros H; apply selectedRoles_nil in H; congruence).
    split; [| split; [apply sublist_filter | contradiction]].
    intros hero. rewrite list_elem_of_filter. cbv zeta. rewrite Exists_exists.
    split.
    + intros [H1 H2]. repeat split; [exact H2 | set_solver | right; exact H1].
    + intros (H1 & _ & [H3 | H3]); [contradiction | split; assumption].
  - assert (Hne : selectedRoles s <> [])
      by (intros H; apply selectedRoles_nil in H; congruence).
    split; [| split; [| contradiction]].
    + intros hero. rewrite !list_elem_of_filter. cbv zeta. rewrite Exists_exists.
      split.
      * intros (H1 & H2 & H3). repeat split; [exact H3 | exact H1 | right; exact H2].
      * intros (H1 & H2 & [H3 | H3]); [contradiction | repeat split; assumption].
    + etransitivity; apply sublist_filter.
Qed.

(** X5: a hero is active exactly when it is in the catalog, is not banned, and,
    if any role is selected, has one of the selected roles in the role map
    (a hero without an entry has none); the active list keeps the order of
    the catalog, and is the catalog itself without roles and bans. *)
Theorem activeHeroes_characterised (s : Roulette) :
  (forall hero,
      hero ∈ activeHeroes s <->
      hero ∈ heroes s /\
      heroId hero ∉ bannedHeroIds s /\
      (selectedRoles s = [] \/
       exists role, role ∈ default [] (heroesRolesMap s !! displayName hero) /\
                    role ∈ selectedRoles s)) /\
  sublist (activeHeroes s) (heroes s) /\
  (selectedRoles s = [] -> bannedHeroIds s = ∅ -> activeHeroes s = heroes s).
Proof. exact (activeHeroes_spec s). Qed.

Lemma activeHeroes_witness :
  activeHeroes demo = heroes demo /\
  (Axe ∈ activeHeroes demoBanned <->
   Axe ∈ heroes demoBanned /\
   heroId Axe ∉ bannedHeroIds demoBanned /\
   (selectedRoles demoBanned = [] \/
    exists role, role ∈ default [] (heroesRolesMap demoBanned !! displayName Axe) /\
                 role ∈ selectedRoles demoBanned)).
Proof.
  split.
  - apply (activeHeroes_characterised demo); reflexivity.
  - apply (activeHeroes_characterised demoBanned).
Defined.

Lemma commitShuffled_filters (source : list Hero) (s : Roulette) :
  selectedRoles (commitShuffled source s) = selectedRoles s /\
  bannedHeroIds (commitShuffled source s) = bannedHeroIds s /\
  heroesRolesMap (commitShuffled source s) = heroesRolesMap s /\
  heroes (commitShuffled source s) = heroes s.
Proof. rewrite commitShuffled_eq. repeat split. Qed.

(** X6: toggling a role flips its membership in the selection and that of no
    other role, keeps a selection free of duplicates so, and a second toggle
    of a role that was not selected restores the selection. *)
Theorem toggleRole_flips (role : HeroRole) (s : Roulette) :
  (role ∈ selectedRoles (toggleRole role s) <-> role ∉ selectedRoles s) /\
  (forall r, r <> role ->
             (r ∈ selectedRoles (toggleRole role s) <-> r ∈ selectedRoles s)) /\
  (NoDup (selectedRoles s) -> NoDup (selectedRoles (toggleRole role s))) /\
  (role ∉ selectedRoles s ->
   selectedRoles (toggleRole role (toggleRole role s)) = selectedRoles s).
Proof.
  assert (Hsel : forall s0, selectedRoles (toggleRole role s0)
            = if bool_decide (role ∈ selectedRoles s0)
              then filter (fun r => r <> role) (selectedRoles s0)
              else selectedRoles s0 ++ [role]).
  { intros s0. unfold toggleRole, rebuildPool.
    rewrite (proj1 (commitShuffled_filters _ _)). reflexivity. }
  rewrite !Hsel.
  destruct (bool_decide_reflect (role ∈ selectedRoles s)) as [Hin | Hnin].
  - split; [rewrite list_elem_of_filter; tauto |].
    split; [intros r Hr; rewrite list_elem_of_filter; tauto |].
    split; [apply NoDup_filter | contradiction].
  - split; [rewrite elem_of_app, list_elem_of_singleton; tauto |].
    split.
    { intros r Hr. rewrite elem_of_app, list_elem_of_singleton. tauto. }
    split.
    { intros Hnd. apply NoDup_app. repeat split; [exact Hnd | | apply NoDup_singleton].
      intros x Hx Hx'. apply list_elem_of_singleton in Hx'. subst. contradiction. }
    intros _. rewrite bool_decide_true by (rewrite elem_of_app, list_elem_of_singleton; tauto).
    rewrite filter_app, filter_cons_False, filter_nil, app_nil_r by tauto.
    clear Hsel. induction (selectedRoles s) as [| x l IH]; [reflexivity |].
    rewrite filter_cons_True by (intros ->; apply Hnin; left).
    f_equal. apply IH. intros H. apply Hnin. right. exact H.
Qed.

Lemma toggleRole_witness :
  selectedRoles (toggleRole carry (toggleRole carry demo)) = selectedRoles demo.
Proof.
  apply (toggleRole_flips carry demo). vm_compute. inversion 1.
Defined.

(** X7: while the component shows itself spinning a ban toggle changes nothing;
    otherwise it flips the ban of that id and of no other, a second toggle
    restores the ban set, the strip is rebuilt as a shuffle of the new
    source list, and once the id is banned no active hero has it. *)
Theorem toggleHeroBan_flips (id : string) (s : Roulette) :
  (isSpinning s = true -> toggleHeroBan id s = s) /\
  (isSpinning s = false ->
   (id ∈ bannedHeroIds (toggleHeroBan id s) <-> id ∉ bannedHeroIds s) /\
   (forall id', id' <> id ->
                (id' ∈ bannedHeroIds (toggleHeroBan id s) <-> id' ∈ bannedHeroIds s)) /\
   bannedHeroIds (toggleHeroBan id (toggleHeroBan id s)) = bannedHeroIds s /\
   baseHeroesRef (toggleHeroBan id s) ≡ₚ availableHeroes (toggleHeroBan id s) /\
   (id ∉ bannedHeroIds s ->
    forall hero, hero ∈ activeHeroes (toggleHeroBan id s) -> heroId hero <> id)).
Proof.
  split; [intros H; unfold toggleHeroBan; rewrite H; reflexivity |].
  intros Hidle.
  assert (Hspin : forall s0, isSpinning (rebuildPool s0) = isSpinning s0).
  { intros s0. unfold rebuildPool. rewrite commitShuffled_eq. reflexivity. }
  assert (Hban : forall s0, isSpinning s0 = false ->
            bannedHeroIds (toggleHeroBan id s0)
            = if bool_decide (id ∈ bannedHeroIds s0)
              then bannedHeroIds s0 ∖ {[id]} else bannedHeroIds s0 ∪ {[id]}).
  { intros s0 H0. unfold toggleHeroBan, rebuildPool. rewrite H0.
    rewrite (proj1 (proj2 (commitShuffled_filters _ _))). reflexivity. }
  assert (Hidle' : isSpinning (toggleHeroBan id s) = false).
  { unfold toggleHeroBan. rewrite Hidle, Hspin. exact Hidle. }
  rewrite (Hban _ Hidle'), !(Hban s Hidle).
  destruct (bool_decide_reflect (id ∈ bannedHeroIds s)) as [Hin | Hnin].
  - split; [set_solver |]. split; [set_solver |]. split.
    { rewrite bool_decide_false by set_solver.
      apply set_eq. intros x. destruct (decide (x = id)); set_solver. }
    split; [| contradiction].
    unfold toggleHeroBan, rebuildPool. rewrite Hidle.
    rewrite baseHeroesRef_commitShuffled.
    apply reflexive_eq. symmetry. apply availableHeroes_ext; apply commitShuffled_filters.
  - split; [set_solver |]. split; [set_solver |]. split.
    { rewrite bool_decide_true by set_solver. set_solver. }
    split.
    { unfold toggleHeroBan, rebuildPool. rewrite Hidle.
      rewrite baseHeroesRef_commitShuffled.
      apply reflexive_eq. symmetry. apply availableHeroes_ext; apply commitShuffled_filters. }
    intros _ hero Hhero Heq.
    apply (activeHeroes_spec (toggleHeroBan id s)) in Hhero
      as (_ & Hnb & _).
    apply Hnb. rewrite (Hban s Hidle), bool_decide_false by exact Hnin.
    set_solver.
Qed.

Lemma toggleHeroBan_witness :
  bannedHeroIds (toggleHeroBan "2" (toggleHeroBan "2" demo)) = bannedHeroIds demo /\
  (forall hero, hero ∈ activeHeroes (toggleHeroBan "2" demo) -> heroId hero <> "2").
Proof.
  destruct (toggleHeroBan_flips "2" demo) as [_ H].
  destruct H as (_ & _ & H3 & _ & H5); [reflexivity |].
  split; [exact H3 |]. apply H5. vm_compute. set_solver.
Defined.

(** ** Slot width *)

Lemma Qeq_bool_false_of_neq (a b : Q) : ~ a == b -> Qeq_bool a b = false.
Proof.
  intros H. destruct (Qeq_bool a b) eqn:E; [| reflexivity].
  apply Qeq_bool_iff in E. contradiction.
Qed.

Lemma measureHeroSlotWidth_cases (s : Roulette) :
  measureHeroSlotWidth s = s \/
  exists el rect,
    rouletteRef s = Some el /\ firstHero el = Some rect /\
    let c := rectWidth rect + marginLeft rect + marginRight rect in
    ~ rectWidth rect == 0 /\ 0 < c /\ 1 # 2 < Qabs (c - heroSlotWidthRef s) /\
    measureHeroSlotWidth s = set_heroSlotWidth c (set_heroSlotWidthRef c s).
Proof.
  unfold measureHeroSlotWidth.
  destruct (rouletteRef s) as [el |] eqn:Eel; [| left; reflexivity].
  destruct (firstHero el) as [rect |] eqn:Erect; [| left; reflexivity].
  destruct (Qeq_bool (rectWidth rect) 0) eqn:E0; [left; reflexivity |].
  destruct (Qle_bool _ 0) eqn:E1; [left; reflexivity |].
  destruct (Qle_bool _ (1 # 2)) eqn:E2; [left; reflexivity |].
  right. exists el, rect. cbv zeta.
  split; [reflexivity |]. split; [exact Erect |].
  split; [apply Qeq_bool_neq; exact E0 |].
  split; [apply Qle_bool_false; exact E1 |].
  split; [apply Qle_bool_false; exact E2 | reflexivity].
Qed.

(** ** State mirrors and the strip along the events *)

Lemma inSync_fields (s s' : Roulette) :
  heroes s' = heroes s -> selectedRoles s' = selectedRoles s ->
  bannedHeroIds s' = bannedHeroIds s -> heroesRolesMap s' = heroesRolesMap s ->
  heroSlotWidthRef s' = heroSlotWidthRef s -> heroSlotWidth s' = heroSlotWidth s ->
  baseHeroesState s' = baseHeroesState s -> baseHeroesRef s' = baseHeroesRef s ->
  (isSpinning s = isSpinningRef s -> isSpinning s' = isSpinningRef s') ->
  inSync s -> inSync s'.
Proof.
  intros Hh Hr Hb Hm Hwr Hw Hbs Hbr Hsp (H1 & H2 & H3 & H4 & H5).
  unfold inSync.
  rewrite (availableHeroes_ext s s') by assumption.
  rewrite Hwr, Hw, Hbs, Hbr. repeat split; auto.
Qed.

Lemma inSync_applyVisualOffset (rawOffset : Q) (s : Roulette) :
  inSync s -> inSync (applyVisualOffset rawOffset s).
Proof.
  destruct (applyVisualOffset_eq rawOffset s) as (r & -> & _).
  apply inSync_fields; auto.
Qed.

Lemma inSync_step (timestamp : Q) (cb : Step.closure) (s : Roulette) :
  inSync s -> inSync (step timestamp cb s).
Proof.
  intros H. rewrite step_eq. cbv zeta.
  apply (inSync_applyVisualOffset (currentOffsetAt timestamp cb)) in H.
  revert H. generalize (applyVisualOffset (currentOffsetAt timestamp cb) s).
  intros s1 H.
  destruct (Qlt_bool (progressAt timestamp cb) 1).
  - revert H. apply inSync_fields; auto.
  - unfold playWinSound.
    match goal with |- inSync (set_sounds _ (set_selectedHero _ (applyVisualOffset ?o ?st))) =>
      assert (H' : inSync (applyVisualOffset o st))
    end.
    { apply inSync_applyVisualOffset. revert H. apply inSync_fields; auto. }
    revert H'.
    match goal with |- inSync ?st -> _ => generalize st end.
    intros s2. apply inSync_fields; auto.
Qed.

Lemma inSync_rebuildPool (s : Roulette) :
  0 < heroSlotWidthRef s -> heroSlotWidth s = heroSlotWidthRef s ->
  isSpinning s = isSpinningRef s -> inSync (rebuildPool s).
Proof.
  intros Hpos Hw Hsp. unfold rebuildPool, inSync.
  destruct (commitShuffled_filters (availableHeroes s) s) as (Hr & Hb & Hm & Hh).
  rewrite (availableHeroes_ext s (commitShuffled (availableHeroes s) s)) by assumption.
  split; [rewrite commitShuffled_eq; exact Hpos |].
  split; [rewrite commitShuffled_eq; exact Hw |].
  split; [rewrite commitShuffled_eq; reflexivity |].
  split; [rewrite commitShuffled_eq; exact Hsp |].
  apply baseHeroesRef_commitShuffled.
Qed.

Lemma inSync_resetRoulette (s : Roulette) : inSync s -> inSync (resetRoulette s).
Proof.
  intros (Hpos & Hw & Hb & Hsp & Hperm). unfold resetRoulette.
  apply inSync_applyVisualOffset.
  apply (inSync_rebuildPool (set_selectedHero None s)); assumption.
Qed.

Lemma inSync_spinRoulette (s : Roulette) : inSync s -> inSync (spinRoulette s).
Proof.
  intros H. unfold spinRoulette.
  destruct (isSpinningRef s) eqn:Hidle; [exact H |].
  set (sc := match animationFrameRef s with Some h => _ | None => s end).
  assert (Hsc : inSync sc).
  { unfold sc. destruct (animationFrameRef s); [| exact H].
    revert H. apply inSync_fields; auto. }
  clearbody sc. clear H Hidle s.
  set (sm := set_selectedHero None (set_isSpinning true (set_isSpinningRef true sc))).
  assert (Hsm : inSync sm) by (revert Hsc; apply inSync_fields; auto).
  clearbody sm. clear Hsc sc.
  assert (Hmeas : inSync (measureHeroSlotWidth sm)).
  { destruct Hsm as (H1 & H2 & H3 & H4 & H5).
    destruct (measureHeroSlotWidth_cases sm)
      as [E | (el & rect & _ & _ & _ & Hc & _ & E)]; rewrite E.
    - repeat split; assumption.
    - unfold inSync. rewrite (availableHeroes_ext sm) by reflexivity.
      repeat split; assumption. }
  revert Hmeas. generalize (measureHeroSlotWidth sm). clear sm Hsm. intros s1 Hs1.
  assert (Hs2 : inSync (commitShuffled (availableHeroes s1) s1)).
  { destruct Hs1 as (H1 & H2 & H3 & H4 & H5).
    apply (inSync_rebuildPool s1); assumption. }
  revert Hs2. generalize (commitShuffled (availableHeroes s1) s1).
  generalize (heroSlotWidthRef s1). clear s1 Hs1.
  intros slotWidth s2 Hs2.
  destruct (Z.of_nat (length (baseHeroesRef s2)) =? 0)%Z.
  - revert Hs2. apply inSync_fields; auto.
  - match goal with |- context [pickRandomIndex ?n ?st] =>
      destruct (pickRandomIndex_state n st) as (p1 & Hst);
      destruct (pickRandomIndex n st) as [ri s4]
    end.
    cbn [fst snd] in Hst. subst s4. cbv zeta.
    match goal with |- context [applyVisualOffset ?o ?st] =>
      assert (Hs3 : inSync (applyVisualOffset o st))
    end.
    { apply inSync_applyVisualOffset. revert Hs2. apply inSync_fields; auto. }
    revert Hs3.
    match goal with |- inSync ?st -> _ => generalize st end.
    intros s3. apply inSync_fields; auto.
Qed.

Lemma inSync_handle (e : event) (s : Roulette) : inSync s -> inSync (handle e s).
Proof.
  intros H. destruct e; cbn [handle].
  - apply inSync_spinRoulette, H.
  - unfold animationFrame.
    assert (H0 : inSync (set_rafQueue [] s))
      by (revert H; apply inSync_fields; auto).
    revert H0. generalize (set_rafQueue [] s).
    induction (rafQueue s) as [| entry q IH]; intros s0 H0; cbn [fold_left];
      [exact H0 |].
    apply IH, inSync_step, H0.
  - apply inSync_resetRoulette, H.
  - destruct H as (H1 & H2 & H3 & H4 & H5). unfold toggleRole.
    apply inSync_rebuildPool; assumption.
  - unfold toggleHeroBan. destruct (isSpinning s) eqn:E; [exact H |].
    destruct H as (H1 & H2 & H3 & H4 & H5).
    apply inSync_rebuildPool; assumption.
  - unfold unmount. destruct (animationFrameRef s); [| exact H].
    revert H. apply inSync_fields; auto.
Qed.

Lemma inSync_run (events : list event) (s : Roulette) :
  inSync s -> inSync (run events s).
Proof.
  revert s. induction events as [| e events IH]; intros s H; [exact H |].
  apply (IH (handle e s)), inSync_handle, H.
Qed.

Lemma inSync_mount catalog roles strip rnd : inSync (mount catalog roles strip rnd).
Proof.
  unfold mount. apply inSync_rebuildPool; reflexivity.
Qed.

(** X10: in every state reached from mount by spins, frames, resets, filter
    toggles and unmounting, and after any measurement of the slot in such a
    state: the slot width is positive, the state copies of the slot width,
    of the base list and of the spinning flag equal their refs, the base
    list is a shuffle of the list the filters currently give, and the
    rendered strip holds exactly these heroes, [REPEAT_COUNT] times
    each run of them. *)
Theorem reachable_strip_in_sync (catalog : list Hero)
    (roles : gmap string (list HeroRole)) (strip : option Element)
    (rnd : nat -> Q) (events : list event) :
  let reached := run events (mount catalog roles strip rnd) in
  forall measured : bool,
  let s := if measured then measureHeroSlotWidth reached else reached in
  0 < heroSlotWidthRef s /\
  heroSlotWidth s = heroSlotWidthRef s /\
  baseHeroesState s = baseHeroesRef s /\
  isSpinning s = isSpinningRef s /\
  baseHeroesRef s ≡ₚ availableHeroes s /\
  length (loopedHeroes s) = (REPEAT_COUNT * length (availableHeroes s))%nat /\
  (forall hero, hero ∈ loopedHeroes s <-> hero ∈ availableHeroes s).
Proof.
  intros reached measured s.
  assert (Hr : inSync reached) by apply inSync_run, inSync_mount.
  assert (H : inSync s).
  { subst s. destruct measured; [| exact Hr].
    destruct Hr as (H1 & H2 & H3 & H4 & H5).
    destruct (measureHeroSlotWidth_cases reached)
      as [E | (el & rect & _ & _ & _ & Hc & _ & E)]; rewrite E.
    - repeat split; assumption.
    - unfold inSync.
      rewrite (availableHeroes_ext reached
                 (set_heroSlotWidth _ (set_heroSlotWidthRef _ reached)))
        by reflexivity.
      repeat split; assumption. }
  clearbody s. destruct H as (H1 & H2 & H3 & H4 & H5).
  split; [exact H1 |]. split; [exact H2 |]. split; [exact H3 |].
  split; [exact H4 |]. split; [exact H5 |].
  unfold loopedHeroes. rewrite H3. split.
  - rewrite buildLoopedHeroes_length, H5. reflexivity.
  - intros hero. rewrite buildLoopedHeroes_elem_of, H5. reflexivity.
Qed.

(** ** Easing and travel of a spin *)

(** X11: the easing curve is point-symmetric about (1/2, 1/2): the progress
    [1 - p] is mapped to one minus the image of [p], for every [p]; half of
    the time gives half of the distance. *)
Theorem mapProgressToDistance_symmetric (p : Q) :
  mapProgressToDistance (1 - p) == 1 - mapProgressToDistance p /\
  mapProgressToDistance (1 # 2) == 1 # 2.
Proof.
  assert (Hhalf : mapProgressToDistance (1 # 2) == 1 # 2).
  { rewrite ease_upper by lra. rewrite Qpow5. field. }
  split; [| exact Hhalf].
  destruct (Qlt_le_dec 0 p) as [H0 | H0].
  2: { rewrite (ease_nonpos p) by exact H0. rewrite ease_ge_one by lra. ring. }
  destruct (Qlt_le_dec p 1) as [H1 | H1].
  2: { rewrite (ease_ge_one p) by exact H1. rewrite ease_nonpos by lra. ring. }
  destruct (Qlt_le_dec p (1 # 2)) as [Hl | Hu].
  - rewrite (ease_lower p) by assumption. rewrite ease_upper by lra.
    rewrite !Qpow5. field.
  - rewrite (ease_upper p) by assumption.
    destruct (Qlt_le_dec (1 # 2) p) as [Hgt | Hle].
    + rewrite ease_lower by lra. rewrite !Qpow5. field.
    + rewrite ease_upper by lra. rewrite !Qpow5.
      assert (Hp : p == 1 # 2) by lra. rewrite Hp. reflexivity.
Qed.

Lemma currentOffsetAt_between (t : Q) (cb : Step.closure) :
  Step.totalDistance cb == Step.finalOffset cb - Step.startOffset cb ->
  Step.totalDistance cb <= 0 ->
  Step.finalOffset cb <= currentOffsetAt t cb /\
  currentOffsetAt t cb <= Step.startOffset cb.
Proof.
  intros Htd Hneg. unfold currentOffsetAt.
  destruct (ease_range (progressAt t cb)) as [H0 H1].
  revert H0 H1. generalize (mapProgressToDistance (progressAt t cb)). intros e H0 H1.
  assert (Hprod : Step.totalDistance cb <= Step.totalDistance cb * e).
  { assert (H : 0 <= (- Step.totalDistance cb) * (1 - e))
      by (apply Qmult_le_0_compat; lra).
    lra. }
  assert (Hprod' : Step.totalDistance cb * e <= 0).
  { assert (H : 0 <= (- Step.totalDistance cb) * e)
      by (apply Qmult_le_0_compat; lra).
    lra. }
  lra.
Qed.

Lemma currentOffsetAt_mono (t1 t2 : Q) (cb : Step.closure) :
  0 < Step.spinDuration cb -> Step.totalDistance cb <= 0 -> t1 <= t2 ->
  currentOffsetAt t2 cb <= currentOffsetAt t1 cb.
Proof.
  intros Hd Hneg Ht. unfold currentOffsetAt.
  pose proof (ease_mono _ _ (progressAt_mono t1 t2 cb Hd Ht)) as He.
  revert He. generalize (mapProgressToDistance (progressAt t1 cb)),
    (mapProgressToDistance (progressAt t2 cb)). intros e1 e2 He.
  assert (H : 0 <= (- Step.totalDistance cb) * (e2 - e1))
    by (apply Qmult_le_0_compat; lra).
  lra.
Qed.

Lemma currentOffsetAt_fresh (t : Q) (cb : Step.closure) :
  Step.animationStart cb = 0 -> currentOffsetAt t cb == Step.startOffset cb.
Proof.
  intros H. unfold currentOffsetAt.
  rewrite ease_nonpos by (rewrite (progressAt_fresh t cb H); lra). ring.
Qed.

Lemma currentOffsetAt_next (t : Q) (cb : Step.closure) :
  currentOffsetAt t (nextClosure t cb) = currentOffsetAt t cb.
Proof. unfold currentOffsetAt. rewrite progressAt_next. reflexivity. Qed.

(** The distance of a spin: between two and six loops, to the left. *)
Lemma freshClosure_travel (cb : Step.closure) :
  freshClosure cb -> 0 < Step.slotWidth cb -> (0 < poolSize cb)%Z ->
  let L := inject_Z (poolSize cb) * Step.slotWidth cb in
  0 < L /\
  Step.startOffset cb == - (inject_Z middleRepeatIndex * L) /\
  2 * L <= Step.startOffset cb - Step.finalOffset cb /\
  Step.startOffset cb - Step.finalOffset cb < 6 * L /\
  Step.totalDistance cb <= 0 /\
  (11800 <= Step.spinDuration cb /\ Step.spinDuration cb <= 17200).
Proof.
  intros ((Hri0 & Hri1) & (He0 & He1) & (_ & Hdur & Hstart & Hfinal & Htd & _)) Hw Hn L.
  assert (HnQ : 0 < inject_Z (poolSize cb)).
  { change 0 with (inject_Z 0). rewrite <- Zlt_Qlt. exact Hn. }
  assert (HL : 0 < L) by (apply Qmult_lt_0_compat; assumption).
  assert (Hdiff : Step.startOffset cb - Step.finalOffset cb
                  == inject_Z (Step.extraLoops cb * poolSize cb + Step.randomIndex cb)
                     * Step.slotWidth cb).
  { rewrite Hstart, Hfinal. rewrite !inject_Z_plus, !inject_Z_mult. ring. }
  assert (Hlo : inject_Z (2 * poolSize cb)
                <= inject_Z (Step.extraLoops cb * poolSize cb + Step.randomIndex cb))
    by (rewrite <- Zle_Qle; nia).
  assert (Hhi : inject_Z (Step.extraLoops cb * poolSize cb + Step.randomIndex cb)
                < inject_Z (6 * poolSize cb))
    by (rewrite <- Zlt_Qlt; nia).
  rewrite !inject_Z_mult in Hlo, Hhi.
  change (inject_Z 2) with 2 in Hlo. change (inject_Z 6) with 6 in Hhi.
  revert Hdiff Hlo Hhi.
  generalize (inject_Z (Step.extraLoops cb * poolSize cb + Step.randomIndex cb)).
  intros k Hdiff Hlo Hhi.
  assert (H2 : 2 * L <= k * Step.slotWidth cb).
  { unfold L. assert (H : 0 <= (k - 2 * inject_Z (poolSize cb)) * Step.slotWidth cb)
      by (apply Qmult_le_0_compat; lra).
    lra. }
  assert (H6 : k * Step.slotWidth cb < 6 * L).
  { unfold L. assert (H : 0 < (6 * inject_Z (poolSize cb) - k) * Step.slotWidth cb)
      by (apply Qmult_lt_0_compat; lra).
    lra. }
  split; [exact HL |].
  split; [rewrite Hstart; unfold L; ring |].
  split; [lra |]. split; [lra |].
  split; [rewrite Htd; lra |].
  rewrite Hdur. unfold BASE_SPIN_DURATION, SPIN_DURATION_PER_LOOP.
  assert (H2e : inject_Z 2 <= inject_Z (Step.extraLoops cb))
    by (rewrite <- Zle_Qle; exact He0).
  assert (H5e : inject_Z (Step.extraLoops cb) <= inject_Z 5)
    by (rewrite <- Zle_Qle; exact He1).
  change (inject_Z 2) with 2 in H2e. change (inject_Z 5) with 5 in H5e.
  revert H2e H5e. generalize (inject_Z (Step.extraLoops cb)). intros e H2e H5e.
  split; lra.
Qed.

Lemma runFrames_offset_between (timestamps : list Q) :
  forall (s : Roulette) handle cb,
    rafQueue s = [(handle, cb)] ->
    Step.totalDistance cb == Step.finalOffset cb - Step.startOffset cb ->
    Step.totalDistance cb <= 0 ->
    Step.finalOffset cb <= virtualOffsetRef s /\
    virtualOffsetRef s <= Step.startOffset cb ->
    Step.finalOffset cb <= virtualOffsetRef (runFrames timestamps s) /\
    virtualOffsetRef (runFrames timestamps s) <= Step.startOffset cb.
Proof.
  induction timestamps as [| t rest IH]; intros s h cb Hq Htd Hneg Hs; [exact Hs |].
  rewrite runFrames_cons, (animationFrame_single t s h cb Hq).
  destruct (Qlt_le_dec (progressAt t cb) 1) as [Hp | Hp].
  - destruct (step_continue t cb (set_rafQueue [] s) Hp)
      as (s' & -> & _ & Hq' & _ & _ & _ & _ & _ & _ & _ & Hv).
    cbn in Hq'.
    apply (IH _ (rafNext s') (nextClosure t cb));
      [cbn; rewrite Hq'; reflexivity | exact Htd | exact Hneg |].
    cbn. rewrite Hv. apply currentOffsetAt_between; assumption.
  - destruct (step_finish t cb (set_rafQueue [] s) Hp)
      as (_ & _ & _ & _ & F5 & _ & _ & F8 & _).
    cbn in F8. rewrite runFrames_idle by exact F8. rewrite F5.
    split; [apply Qle_refl |]. lra.
Qed.

Lemma runFrames_offset_step (timestamps : list Q) (t : Q) :
  forall (t0 : Q) (s : Roulette) handle cb,
    rafQueue s = [(handle, cb)] ->
    Step.totalDistance cb == Step.finalOffset cb - Step.startOffset cb ->
    Step.totalDistance cb <= 0 -> 0 < Step.spinDuration cb ->
    virtualOffsetRef s == currentOffsetAt t0 cb ->
    nondecreasing t0 (timestamps ++ [t]) ->
    virtualOffsetRef (runFrames (timestamps ++ [t]) s)
    <= virtualOffsetRef (runFrames timestamps s).
Proof.
  induction timestamps as [| t1 rest IH]; intros t0 s h cb Hq Htd Hneg Hd Hs Hts.
  - destruct Hts as [Ht _]. cbn [app].
    rewrite runFrames_cons, (animationFrame_single t s h cb Hq).
    change (runFrames [] ?x) with x. rewrite Hs.
    destruct (Qlt_le_dec (progressAt t cb) 1) as [Hp | Hp].
    + destruct (step_continue t cb (set_rafQueue [] s) Hp)
        as (s' & -> & _ & _ & _ & _ & _ & _ & _ & _ & _ & Hv).
      cbn. rewrite Hv. apply currentOffsetAt_mono; assumption.
    + destruct (step_finish t cb (set_rafQueue [] s) Hp)
        as (_ & _ & _ & _ & F5 & _).
      rewrite F5. apply currentOffsetAt_between; assumption.
  - destruct Hts as [Ht Hts]. cbn [app].
    rewrite !runFrames_cons, (animationFrame_single t1 s h cb Hq).
    destruct (Qlt_le_dec (progressAt t1 cb) 1) as [Hp | Hp].
    + destruct (step_continue t1 cb (set_rafQueue [] s) Hp)
        as (s' & -> & _ & Hq' & _ & _ & _ & _ & _ & _ & _ & Hv).
      cbn in Hq'.
      apply (IH t1 _ (rafNext s') (nextClosure t1 cb));
        [cbn; rewrite Hq'; reflexivity | exact Htd | exact Hneg | exact Hd | | exact Hts].
      cbn. rewrite Hv, currentOffsetAt_next. reflexivity.
    + destruct (step_finish t1 cb (set_rafQueue [] s) Hp)
        as (_ & _ & _ & _ & _ & _ & _ & F8 & _).
      cbn in F8. rewrite !runFrames_idle by exact F8. apply Qle_refl.
Qed.

(** ** Where a finished spin leaves the strip *)



(** ** Reset *)



(** ** How long a spin lasts *)

Lemma progressAt_lt_one (t : Q) (cb : Step.closure) :
  0 < Step.spinDuration cb ->
  (progressAt t cb < 1 <-> t < startOf t cb + Step.spinDuration cb).
Proof.
  intros Hd. unfold progressAt. cbv zeta.
  set (x := (t - startOf t cb) / Step.spinDuration cb).
  assert (Hx : x < 1 <-> t < startOf t cb + Step.spinDuration cb).
  { unfold x. split; intros H.
    - assert (E : t - startOf t cb == x * Step.spinDuration cb)
        by (unfold x; field; lra).
      assert (H' : x * Step.spinDuration cb < 1 * Step.spinDuration cb)
        by (apply Qmult_lt_compat_r; assumption).
      lra.
    - apply Qlt_shift_div_r; [exact Hd | lra]. }
  rewrite <- Hx. split; intros H.
  - destruct (Qlt_le_dec x 1) as [Hlt | Hge]; [exact Hlt |].
    rewrite Q.min_r in H by exact Hge. lra.
  - rewrite Q.min_l by lra. exact H.
Qed.

Lemma startOf_started (t : Q) (cb : Step.closure) :
  ~ Step.animationStart cb == 0 -> startOf t cb = Step.animationStart cb.
Proof.
  intros H. unfold startOf. rewrite Qeq_bool_false_of_neq by exact H. reflexivity.
Qed.

Lemma runFrames_running (timestamps : list Q) :
  forall (s : Roulette) handle cb,
    rafQueue s = [(handle, cb)] -> isSpinningRef s = true ->
    ~ Step.animationStart cb == 0 -> 0 < Step.spinDuration cb ->
    (isSpinningRef (runFrames timestamps s) = true <->
     Forall (fun t => t < Step.animationStart cb + Step.spinDuration cb) timestamps).
Proof.
  induction timestamps as [| t rest IH]; intros s h cb Hq Hsp Ha Hd.
  - split; [constructor | intros _; exact Hsp].
  - rewrite runFrames_cons, (animationFrame_single t s h cb Hq).
    rewrite Forall_cons.
    pose proof (progressAt_lt_one t cb Hd) as Hlt.
    rewrite (startOf_started t cb Ha) in Hlt.
    destruct (Qlt_le_dec (progressAt t cb) 1) as [Hp | Hp].
    + destruct (step_continue t cb (set_rafQueue [] s) Hp)
        as (s' & -> & _ & Hq' & _ & Hsp' & _).
      cbn in Hq', Hsp'.
      rewrite (IH _ (rafNext s') (nextClosure t cb));
        [| cbn; rewrite Hq'; reflexivity | cbn; rewrite Hsp'; exact Hsp
         | cbn; rewrite (startOf_started t cb Ha); exact Ha | exact Hd].
      cbn [Step.animationStart Step.spinDuration nextClosure].
      rewrite (startOf_started t cb Ha). tauto.
    + destruct (step_finish t cb (set_rafQueue [] s) Hp)
        as (F1 & _ & _ & _ & _ & _ & _ & F8 & _).
      cbn in F8. rewrite runFrames_idle by exact F8. rewrite F1.
      split; [discriminate |]. intros [H _]. apply Hlt in H. lra.
Qed.

(** X15: a spin lasts its [spinDuration], measured from the timestamp of its
    first frame: with a first frame at a non-zero timestamp [t1], the spin
    is still running after further frames exactly when each of them came
    before [t1 + spinDuration]; the first frame itself never ends the spin
    and leaves the raw offset at the start offset. *)
Theorem spin_lasts_spinDuration (s : Roulette) (t1 : Q) (timestamps : list Q) :
  oneLoop s -> isSpinningRef s = false -> availableHeroes s <> [] ->
  unitOracle (rand s) -> ~ t1 == 0 ->
  exists cb,
    rafQueue (spinRoulette s) = [(rafNext s, cb)] /\
    isSpinningRef (runFrames [t1] (spinRoulette s)) = true /\
    virtualOffsetRef (runFrames [t1] (spinRoulette s)) == Step.startOffset cb /\
    (isSpinningRef (runFrames (t1 :: timestamps) (spinRoulette s)) = true <->
     Forall (fun t => t < t1 + Step.spinDuration cb) timestamps).
Proof.
  intros Hone Hidle Hpool Hr Ht1.
  destruct (spinRoulette_queue s Hone Hidle Hpool Hr)
    as (cb & Hq & _ & Hsp & _ & _ & _ & _ & _ & Hfresh & _).
  pose proof (spinDuration_pos cb Hfresh) as Hd.
  pose proof Hfresh as (_ & _ & (_ & _ & _ & _ & _ & Hstart & _)).
  assert (Hp : progressAt t1 cb < 1)
    by (rewrite (progressAt_fresh t1 cb Hstart); reflexivity).
  assert (Hs1 : startOf t1 cb = t1) by (unfold startOf; rewrite Hstart; reflexivity).
  exists cb. split; [exact Hq |].
  rewrite !runFrames_cons, (animationFrame_single t1 _ _ cb Hq).
  destruct (step_continue t1 cb (set_rafQueue [] (spinRoulette s)) Hp)
    as (s' & -> & _ & Hq' & _ & Hsp' & _ & _ & _ & _ & _ & Hv).
  cbn in Hq', Hsp'.
  change (runFrames [] ?x) with x.
  split; [cbn; rewrite Hsp'; exact Hsp |].
  split; [cbn; rewrite Hv; apply currentOffsetAt_fresh; exact Hstart |].
  rewrite (runFrames_running timestamps _ (rafNext s') (nextClosure t1 cb));
    [| cbn; rewrite Hq'; reflexivity | cbn; rewrite Hsp'; exact Hsp
     | cbn; rewrite Hs1; exact Ht1 | exact Hd].
  cbn [Step.animationStart Step.spinDuration nextClosure]. rewrite Hs1. tauto.
Qed.

Lemma spin_lasts_spinDuration_witness :
  exists cb,
    rafQueue (spinRoulette demo) = [(rafNext demo, cb)] /\
    isSpinningRef (runFrames [1000] (spinRoulette demo)) = true /\
    (isSpinningRef (runFrames [1000; 5000] (spinRoulette demo)) = true <->
     Forall (fun t => t < 1000 + Step.spinDuration cb) [5000]).
Proof.
  destruct (spin_lasts_spinDuration demo 1000 [5000] demo_oneLoop eq_refl
              demo_pool demo_oracle)
    as (cb & H1 & H2 & _ & H4); [intros H; discriminate H |].
  exists cb. split; [exact H1 |]. split; [exact H2 | exact H4].
Defined.

(** ** The item filter *)

Lemma insertByWinRate_Permutation (x : HeroStartingItem) (l : list HeroStartingItem) :
  insertByWinRate x l ≡ₚ x :: l.
Proof.
  induction l as [| y rest IH]; cbn [insertByWinRate]; [reflexivity |].
  destruct (Qlt_bool _ _); [reflexivity |].
  rewrite IH. apply Permutation_swap.
Qed.

Lemma insertByWinRate_sorted (x : HeroStartingItem) (l : list HeroStartingItem) :
  StronglySorted byWinRate l -> StronglySorted byWinRate (insertByWinRate x l).
Proof.
  induction l as [| y rest IH]; intros Hs; cbn [insertByWinRate].
  - constructor; constructor.
  - apply StronglySorted_inv in Hs as [Hrest Hall].
    destruct (Qlt_bool (winsAverage y) (winsAverage x)) eqn:E.
    + apply Qlt_bool_iff in E.
      constructor; [constructor; assumption |].
      constructor; [unfold byWinRate; lra |].
      eapply Forall_impl; [exact Hall |]. unfold byWinRate. intros z Hz. cbn in *. lra.
    + apply Qlt_bool_false in E.
      constructor; [apply IH, Hrest |].
      rewrite insertByWinRate_Permutation. constructor; [exact E | exact Hall].
Qed.

Lemma sortByWinRate_spec (l : list HeroStartingItem) :
  sortByWinRate l ≡ₚ l /\ StronglySorted byWinRate (sortByWinRate l).
Proof.
  unfold sortByWinRate.
  assert (H : forall acc, StronglySorted byWinRate acc ->
                fold_left (fun acc x => insertByWinRate x acc) l acc ≡ₚ acc ++ l /\
                StronglySorted byWinRate
                  (fold_left (fun acc x => insertByWinRate x acc) l acc)).
  { induction l as [| x rest IH]; intros acc Hacc; cbn [fold_left].
    - rewrite app_nil_r. split; [reflexivity | exact Hacc].
    - destruct (IH (insertByWinRate x acc) (insertByWinRate_sorted x acc Hacc))
        as [Hp Hs].
      split; [| exact Hs].
      rewrite Hp, insertByWinRate_Permutation.
      rewrite (Permutation_middle acc rest x). reflexivity. }
  destruct (H [] ltac:(constructor)) as [Hp Hs]. split; [exact Hp | exact Hs].
Qed.

Lemma mapGet_mapSet (key k : Z) (value : HeroStartingItem)
    (m : list (Z * HeroStartingItem)) :
  mapGet k (mapSet key value m)
  = if (key =? k)%Z then Some value else mapGet k m.
Proof.
  induction m as [| [k0 v0] rest IH]; cbn [mapGet mapSet].
  - reflexivity.
  - destruct (Z.eqb_spec k0 key) as [-> | Hne]; cbn [mapGet].
    + destruct (Z.eqb_spec key k); reflexivity.
    + rewrite IH. destruct (Z.eqb_spec k0 k) as [-> | Hne'].
      * destruct (Z.eqb_spec key k); [congruence | reflexivity].
      * reflexivity.
Qed.

Lemma elem_of_mapSet (key : Z) (value : HeroStartingItem)
    (m : list (Z * HeroStartingItem)) (e : Z * HeroStartingItem) :
  e ∈ mapSet key value m -> e = (key, value) \/ e ∈ m.
Proof.
  induction m as [| [k0 v0] rest IH]; cbn [mapSet]; intros H.
  - apply list_elem_of_singleton in H. left. exact H.
  - destruct (Z.eqb_spec k0 key) as [-> | Hne].
    + apply elem_of_cons in H as [-> | H]; [left; reflexivity |].
      right. right. exact H.
    + apply elem_of_cons in H as [-> | H]; [right; left |].
      destruct (IH H) as [-> | H']; [left; reflexivity | right; right; exact H'].
Qed.

Lemma mapGet_elem_of (k : Z) (v : HeroStartingItem) (m : list (Z * HeroStartingItem)) :
  mapGet k m = Some v -> exists k0, (k0, v) ∈ m /\ k0 = k.
Proof.
  induction m as [| [k0 v0] rest IH]; cbn [mapGet]; [discriminate |].
  destruct (Z.eqb_spec k0 k) as [-> | Hne].
  - intros [= ->]. exists k. split; [left | reflexivity].
  - intros H. destruct (IH H) as (k1 & Hin & ->). exists k. split; [right; exact Hin | reflexivity].
Qed.

Lemma mapSet_keys (key : Z) (value : HeroStartingItem)
    (m : list (Z * HeroStartingItem)) :
  NoDup (map fst m) -> NoDup (map fst (mapSet key value m)).
Proof.
  induction m as [| [k0 v0] rest IH]; cbn [mapSet map fst]; intros H.
  - constructor; [apply not_elem_of_nil | constructor].
  - apply NoDup_cons in H as [Hnotin Hrest].
    destruct (Z.eqb_spec k0 key) as [-> | Hne]; cbn [map fst].
    + constructor; assumption.
    + constructor; [| apply IH, Hrest].
      intros Hin. apply list_elem_of_fmap in Hin as ([k1 v1] & -> & Hin).
      cbn in Hne.
      apply elem_of_mapSet in Hin as [[= -> ->] | Hin]; [congruence |].
      apply Hnotin. apply list_elem_of_fmap. exists (k1, v1). split; [reflexivity | exact Hin].
Qed.

Lemma keepBest_invariant (minWinRate : Q) (seen : list HeroStartingItem)
    (kept : list (Z * HeroStartingItem)) (item : HeroStartingItem) :
  NoDup (map fst kept) ->
  (forall k v, (k, v) ∈ kept -> itemId v = k /\ v ∈ seen /\ minWinRate <= winsAverage v) ->
  (forall x, x ∈ seen -> minWinRate <= winsAverage x ->
             exists v, mapGet (itemId x) kept = Some v /\
                       (matchCount x <= matchCount v)%Z) ->
  let kept' := keepBest minWinRate kept item in
  NoDup (map fst kept') /\
  (forall k v, (k, v) ∈ kept' ->
               itemId v = k /\ v ∈ seen ++ [item] /\ minWinRate <= winsAverage v) /\
  (forall x, x ∈ seen ++ [item] -> minWinRate <= winsAverage x ->
             exists v, mapGet (itemId x) kept' = Some v /\
                       (matchCount x <= matchCount v)%Z).
Proof.
  intros Hnd Hel Hall kept'.
  assert (Hold : forall k v, (k, v) ∈ kept ->
                   itemId v = k /\ v ∈ seen ++ [item] /\ minWinRate <= winsAverage v).
  { intros k v Hin. destruct (Hel k v Hin) as (H1 & H2 & H3).
    repeat split; [exact H1 | apply elem_of_app; left; exact H2 | exact H3]. }
  unfold kept', keepBest.
  destruct (Qle_bool minWinRate (winsAverage item)) eqn:Erate.
  - apply Qle_bool_iff in Erate.
    assert (Hset : let kept1 := mapSet (itemId item) item kept in
              (forall v0, mapGet (itemId item) kept = Some v0 ->
                          (matchCount v0 < matchCount item)%Z) ->
              NoDup (map fst kept1) /\
              (forall k v, (k, v) ∈ kept1 ->
                 itemId v = k /\ v ∈ seen ++ [item] /\ minWinRate <= winsAverage v) /\
              (forall x, x ∈ seen ++ [item] -> minWinRate <= winsAverage x ->
                 exists v, mapGet (itemId x) kept1 = Some v /\
                           (matchCount x <= matchCount v)%Z)).
    { intros kept1 Hbetter. split; [apply mapSet_keys, Hnd |]. split.
      - intros k v Hin. apply elem_of_mapSet in Hin as [[= -> ->] | Hin].
        + repeat split; [apply elem_of_app; right; left | exact Erate].
        + apply Hold, Hin.
      - intros x Hx Hr. unfold kept1. rewrite mapGet_mapSet.
        destruct (Z.eqb_spec (itemId item) (itemId x)) as [E | E].
        + exists item. split; [reflexivity |].
          apply elem_of_app in Hx as [Hx | Hx].
          * destruct (Hall x Hx Hr) as (v & Hv & Hle).
            rewrite <- E in Hv. specialize (Hbetter v Hv). lia.
          * apply list_elem_of_singleton in Hx. subst x. lia.
        + apply elem_of_app in Hx as [Hx | Hx]; [apply Hall; assumption |].
          apply list_elem_of_singleton in Hx. subst x. congruence. }
    destruct (mapGet (itemId item) kept) as [existing |] eqn:Eget.
    + destruct (Z.ltb_spec (matchCount existing) (matchCount item)) as [Hlt | Hge].
      * apply Hset. intros v0 [= <-]. exact Hlt.
      * split; [exact Hnd |]. split; [exact Hold |].
        intros x Hx Hr. apply elem_of_app in Hx as [Hx | Hx]; [apply Hall; assumption |].
        apply list_elem_of_singleton in Hx. subst x.
        exists existing. split; [exact Eget | exact Hge].
    + apply Hset. intros v0 [=].
  - split; [exact Hnd |]. split; [exact Hold |].
    intros x Hx Hr. apply elem_of_app in Hx as [Hx | Hx]; [apply Hall; assumption |].
    apply list_elem_of_singleton in Hx. subst x.
    apply Qle_bool_iff in Hr. congruence.
Qed.

Lemma fold_keepBest_invariant (minWinRate : Q) (items : list HeroStartingItem) :
  forall (seen : list HeroStartingItem) (kept : list (Z * HeroStartingItem)),
    NoDup (map fst kept) ->
    (forall k v, (k, v) ∈ kept ->
                 itemId v = k /\ v ∈ seen /\ minWinRate <= winsAverage v) ->
    (forall x, x ∈ seen -> minWinRate <= winsAverage x ->
               exists v, mapGet (itemId x) kept = Some v /\
                         (matchCount x <= matchCount v)%Z) ->
    let kept' := fold_left (keepBest minWinRate) items kept in
    NoDup (map fst kept') /\
    (forall k v, (k, v) ∈ kept' ->
                 itemId v = k /\ v ∈ seen ++ items /\ minWinRate <= winsAverage v) /\
    (forall x, x ∈ seen ++ items -> minWinRate <= winsAverage x ->
               exists v, mapGet (itemId x) kept' = Some v /\
                         (matchCount x <= matchCount v)%Z).
Proof.
  induction items as [| item rest IH]; intros seen kept Hnd Hel Hall; cbn [fold_left].
  - rewrite app_nil_r. split; [exact Hnd |]. split; [exact Hel | exact Hall].
  - destruct (keepBest_invariant minWinRate seen kept item Hnd Hel Hall)
      as (H1 & H2 & H3).
    specialize (IH (seen ++ [item]) _ H1 H2 H3).
    rewrite <- app_assoc in IH. exact IH.
Qed.

(** X16: [filterItems] returns items of its input whose win rate is at least the
    minimum, at most one per item id, in descending order of win rate; and
    for every input item that passes the minimum it returns an item of the
    same id with at least as many matches. *)
Theorem filterItems_best_per_id (items : list HeroStartingItem) (minWinRate : Q) :
  let result := filterItems items minWinRate in
  (forall x, x ∈ result -> x ∈ items /\ minWinRate <= winsAverage x) /\
  NoDup (map itemId result) /\
  StronglySorted (fun a b => winsAverage b <= winsAverage a) result /\
  (forall x, x ∈ items -> minWinRate <= winsAverage x ->
             exists y, y ∈ result /\ itemId y = itemId x /\
                       (matchCount x <= matchCount y)%Z).
Proof.
  intros result. unfold result, filterItems. cbv zeta.
  destruct (fold_keepBest_invariant minWinRate items [] []) as (Hnd & Hel & Hall).
  { constructor. }
  { intros k v Hin. apply elem_of_nil in Hin. contradiction. }
  { intros x Hin. apply elem_of_nil in Hin. contradiction. }
  cbn [app] in Hel, Hall.
  set (kept := fold_left (keepBest minWinRate) items []) in *.
  destruct (sortByWinRate_spec (map snd kept)) as [Hperm Hsorted].
  assert (Hin : forall y, y ∈ sortByWinRate (map snd kept) <->
                          exists k, (k, y) ∈ kept).
  { intros y. rewrite Hperm, list_elem_of_fmap. split.
    - intros ([k v] & -> & H). exists k. exact H.
    - intros (k & H). exists (k, y). split; [reflexivity | exact H]. }
  split.
  { intros x Hx. apply Hin in Hx as (k & Hx). destruct (Hel k x Hx) as (_ & H2 & H3).
    split; assumption. }
  split.
  { rewrite Hperm.
    replace (map itemId (map snd kept)) with (map fst kept); [exact Hnd |].
    rewrite map_map. apply map_ext_in. intros [k v] Hkv.
    apply list_elem_of_In in Hkv. destruct (Hel k v Hkv) as (H1 & _). cbn. congruence. }
  split; [exact Hsorted |].
  intros x Hx Hr. destruct (Hall x Hx Hr) as (v & Hv & Hle).
  apply mapGet_elem_of in Hv as (k0 & Hkv & ->).
  exists v. split; [apply Hin; eexists; exact Hkv |].
  split; [apply (Hel _ _ Hkv) | exact Hle].
Qed.

(** ** The teams of the recommendation dialog *)

Lemma someId_false (id : string) (team : list Hero) :
  someId id team = false <-> id ∉ map heroId team.
Proof.
  unfold someId. induction team as [| h rest IH]; cbn [existsb map].
  - split; [intros _; apply not_elem_of_nil | reflexivity].
  - rewrite orb_false_iff, IH, not_elem_of_cons, bool_decide_eq_false.
    split; intros [H1 H2]; (split; [congruence | exact H2]).
Qed.

Lemma filter_heroId_NoDup (id : string) (team rest : list Hero) :
  NoDup (map heroId (team ++ rest)) ->
  NoDup (map heroId (filter (fun h => heroId h <> id) team ++ rest)).
Proof.
  intros H. eapply sublist_NoDup; [exact H |].
  apply (fmap_sublist heroId), sublist_app; [apply sublist_filter | reflexivity].
Qed.

Lemma teamsOk_applyTeamAction (t : Teams) (a : teamAction) :
  teamsOk t -> teamsOk (applyTeamAction t a).
Proof.
  intros (Hmy & Henemy & Hnd). destruct a as [selected | hero | id | hero | id];
    cbn [applyTeamAction].
  - unfold teamsOk, openTeams. cbn.
    split; [lia |]. split; [lia |]. apply NoDup_singleton.
  - unfold addHeroToMyTeam.
    destruct (Nat.leb_spec 5 (length (myTeamHeroes t))) as [Hfull | Hroom];
      [repeat split; assumption |].
    destruct (someId (heroId hero) (myTeamHeroes t)) eqn:E1;
      [repeat split; assumption |].
    destruct (someId (heroId hero) (enemyTeamHeroes t)) eqn:E2;
      [repeat split; assumption |].
    apply someId_false in E1, E2.
    unfold teamsOk. cbn [myTeamHeroes enemyTeamHeroes].
    split; [rewrite length_app; cbn; lia |]. split; [exact Henemy |].
    rewrite <- app_assoc. cbn [app].
    rewrite map_app in *. cbn [map].
    rewrite <- Permutation_middle. apply NoDup_cons. split; [| exact Hnd].
    rewrite elem_of_app. tauto.
  - unfold removeHeroFromMyTeam, teamsOk. cbn [myTeamHeroes enemyTeamHeroes].
    split; [etransitivity; [apply length_filter | exact Hmy] |].
    split; [exact Henemy |]. apply filter_heroId_NoDup, Hnd.
  - unfold addHeroToEnemyTeam.
    destruct (Nat.leb_spec 5 (length (enemyTeamHeroes t))) as [Hfull | Hroom];
      [repeat split; assumption |].
    destruct (someId (heroId hero) (enemyTeamHeroes t)) eqn:E1;
      [repeat split; assumption |].
    destruct (someId (heroId hero) (myTeamHeroes t)) eqn:E2;
      [repeat split; assumption |].
    apply someId_false in E1, E2.
    unfold teamsOk. cbn [myTeamHeroes enemyTeamHeroes].
    split; [exact Hmy |]. split; [rewrite length_app; cbn; lia |].
    rewrite app_assoc, map_app. cbn [map].
    rewrite Permutation_app_comm. cbn [app]. apply NoDup_cons. split; [| exact Hnd].
    rewrite map_app, elem_of_app. tauto.
  - unfold removeHeroFromEnemyTeam, teamsOk. cbn [myTeamHeroes enemyTeamHeroes].
    split; [exact Hmy |].
    split; [etransitivity; [apply length_filter | exact Henemy] |].
    rewrite map_app, Permutation_app_comm, <- map_app.
    apply filter_heroId_NoDup.
    rewrite map_app, Permutation_app_comm, <- map_app. exact Hnd.
Qed.

Lemma filter_heroId_absent (id : string) (team : list Hero) :
  id ∉ map heroId team -> filter (fun h => heroId h <> id) team = team.
Proof.
  induction team as [| h rest IH]; [reflexivity |].
  cbn [map]. rewrite not_elem_of_cons. intros [Hne Hrest].
  rewrite filter_cons_True by congruence. rewrite IH by exact Hrest. reflexivity.
Qed.

(** X17: whatever the sequence of openings of the dialog, additions and
    removals, each team holds at most five heroes and no hero id occurs
    twice in the two teams together; and adding a hero that is in neither
    of the user's team then removing it by id restores the teams. *)
Theorem teams_stay_consistent :
  (forall actions : list teamAction,
      let t := fold_left applyTeamAction actions initialTeams in
      (length (myTeamHeroes t) <= 5)%nat /\
      (length (enemyTeamHeroes t) <= 5)%nat /\
      NoDup (map heroId (myTeamHeroes t ++ enemyTeamHeroes t))) /\
  (forall hero t,
      heroId hero ∉ map heroId (myTeamHeroes t) ->
      removeHeroFromMyTeam (heroId hero) (addHeroToMyTeam hero t) = t) /\
  (forall hero t,
      heroId hero ∉ map heroId (enemyTeamHeroes t) ->
      removeHeroFromEnemyTeam (heroId hero) (addHeroToEnemyTeam hero t) = t).
Proof.
  split.
  { intros actions.
    assert (H : forall t, teamsOk t -> teamsOk (fold_left applyTeamAction actions t)).
    { induction actions as [| a rest IH]; intros t Ht; [exact Ht |].
      apply IH, teamsOk_applyTeamAction, Ht. }
    apply H. unfold teamsOk, initialTeams. cbn.
    split; [lia |]. split; [lia |]. constructor. }
  split.
  - intros hero [my enemy] Habsent. cbn in Habsent.
    unfold addHeroToMyTeam, removeHeroFromMyTeam. cbn [myTeamHeroes enemyTeamHeroes].
    destruct (5 <=? length my)%nat; cbn [myTeamHeroes enemyTeamHeroes];
      [rewrite filter_heroId_absent by exact Habsent; reflexivity |].
    rewrite (proj2 (someId_false _ _) Habsent).
    destruct (someId (heroId hero) enemy); cbn [myTeamHeroes enemyTeamHeroes].
    + rewrite filter_heroId_absent by exact Habsent. reflexivity.
    + rewrite filter_app, filter_heroId_absent by exact Habsent.
      rewrite filter_cons_False by (intros H; apply H; reflexivity).
      rewrite filter_nil, app_nil_r. reflexivity.
  - intros hero [my enemy] Habsent. cbn in Habsent.
    unfold addHeroToEnemyTeam, removeHeroFromEnemyTeam.
    cbn [myTeamHeroes enemyTeamHeroes].
    destruct (5 <=? length enemy)%nat; cbn [myTeamHeroes enemyTeamHeroes];
      [rewrite filter_heroId_absent by exact Habsent; reflexivity |].
    rewrite (proj2 (someId_false _ _) Habsent).
    destruct (someId (heroId hero) my); cbn [myTeamHeroes enemyTeamHeroes].
    + rewrite filter_heroId_absent by exact Habsent. reflexivity.
    + rewrite filter_app, filter_heroId_absent by exact Habsent.
      rewrite filter_cons_False by (intros H; apply H; reflexivity).
      rewrite filter_nil, app_nil_r. reflexivity.
Qed.

(** ** Unmounting *)



(** ** The tick sound *)

Lemma nonincreasing_Forall (hi : Q) (ratios : list Q) :
  nonincreasing hi ratios -> Forall (fun r => r <= hi) ratios.
Proof.
  revert hi. induction ratios as [| r rest IH]; intros hi H; [constructor |].
  destruct H as [Hr Hrest]. constructor; [exact Hr |].
  eapply Forall_impl; [apply IH, Hrest |]. cbn. intros x Hx. lra.
Qed.

(** X19: every tick of a spin whose frames have timestamps that never go back
    is played at a rate between 0.8175 and 1.15, with a gain that starts
    between 0.184 and 0.26 and ramps down to a lower target, for at most
    0.35 seconds and at most the length of the buffer. *)
Theorem tick_sound_in_range (s : Roulette) (t0 : Q) (timestamps : list Q) :
  oneLoop s -> isSpinningRef s = false -> availableHeroes s <> [] ->
  unitOracle (rand s) -> nondecreasing t0 timestamps ->
  exists new,
    sounds (runFrames timestamps (spinRoulette s)) = sounds s ++ new /\
    Forall (fun speedRatio =>
              forall bufferDuration,
                let nodes := tickNodes speedRatio bufferDuration in
                (8175 # 10000 <= playbackRate nodes /\ playbackRate nodes <= 115 # 100) /\
                (184 # 1000 <= gainStart nodes /\ gainStart nodes <= 26 # 100) /\
                gainTarget nodes < gainStart nodes /\
                maxDuration nodes <= 35 # 100 /\ maxDuration nodes <= bufferDuration)
           (tickRatios new).
Proof.
  intros Hone Hidle Hpool Hr Hts.
  destruct (spinRoulette_queue s Hone Hidle Hpool Hr)
    as (cb & Hq & _ & _ & _ & Hs & _ & _ & _ & Hfresh & _).
  destruct (runFrames_ticks timestamps t0 (spinRoulette s) (rafNext s) cb Hq
              (spinDuration_pos cb Hfresh) Hts)
    as (new & Hnew & Hsorted & Hall & _).
  exists new. rewrite Hnew, Hs. split; [reflexivity |].
  assert (Hup : Forall (fun r => r <= 1) (tickRatios new)).
  { apply nonincreasing_Forall.
    eapply nonincreasing_weaken; [| exact Hsorted].
    destruct Hfresh as (_ & _ & _ & _ & _ & _ & _ & Hstart & _).
    rewrite (progressAt_fresh t0 cb Hstart). apply Q.max_lub; lra. }
  rewrite Forall_forall in *. intros r Hin bufferDuration nodes.
  specialize (Hall r Hin). specialize (Hup r Hin). cbn beta in Hall, Hup.
  unfold nodes, tickNodes. cbn [playbackRate gainStart gainTarget maxDuration].
  repeat split; try lra; [apply Q.le_min_r | apply Q.le_min_l].
Qed.

Lemma tick_sound_in_range_witness :
  exists new,
    sounds (runFrames [1000; 5000; 9000; 30000] (spinRoulette demo))
    = sounds demo ++ new /\
    Forall (fun speedRatio =>
              forall bufferDuration,
                let nodes := tickNodes speedRatio bufferDuration in
                (8175 # 10000 <= playbackRate nodes /\ playbackRate nodes <= 115 # 100) /\
                (184 # 1000 <= gainStart nodes /\ gainStart nodes <= 26 # 100) /\
                gainTarget nodes < gainStart nodes /\
                maxDuration nodes <= 35 # 100 /\ maxDuration nodes <= bufferDuration)
           (tickRatios new).
Proof.
  apply (tick_sound_in_range demo 0 [1000; 5000; 9000; 30000]);
    [exact demo_oneLoop | reflexivity | exact demo_pool | exact demo_oracle |].
  cbn. repeat split; apply Qle_bool_iff; reflexivity.
Defined.

(** * The spin and the effects of the component *)

(** ** What a spin leaves to the effects *)

Lemma availableHeroes_active (s : Roulette) :
  activeHeroes s <> [] -> availableHeroes s = activeHeroes s.
Proof.
  intros H. unfold availableHeroes. destruct (activeHeroes s); [congruence | reflexivity].
Qed.

Lemma bannedHeroIds_step (timestamp : Q) (cb : Step.closure) (s : Roulette) :
  bannedHeroIds (step timestamp cb s) = bannedHeroIds s.
Proof.
  rewrite step_eq. cbv zeta.
  destruct (applyVisualOffset_eq (currentOffsetAt timestamp cb) s) as (r & -> & _).
  destruct (Qlt_bool (progressAt timestamp cb) 1); [reflexivity |].
  match goal with |- context [applyVisualOffset ?o ?st] =>
    destruct (applyVisualOffset_eq o st) as (r' & -> & _)
  end.
  reflexivity.
Qed.

Lemma bannedHeroIds_runFrames (timestamps : list Q) (s : Roulette) :
  bannedHeroIds (runFrames timestamps s) = bannedHeroIds s.
Proof.
  revert s. induction timestamps as [| t rest IH]; intros s; [reflexivity |].
  rewrite runFrames_cons, IH. unfold animationFrame.
  change (bannedHeroIds s) with (bannedHeroIds (set_rafQueue [] s)).
  generalize (set_rafQueue [] s).
  induction (rafQueue s) as [| entry q IHq]; intros s0; cbn [fold_left]; [reflexivity |].
  rewrite IHq. apply bannedHeroIds_step.
Qed.

Lemma bannedHeroIds_spinRoulette (s : Roulette) :
  bannedHeroIds (spinRoulette s) = bannedHeroIds s.
Proof.
  unfold spinRoulette. destruct (isSpinningRef s); [reflexivity |].
  set (sc := match animationFrameRef s with Some h => _ | None => s end).
  assert (Hsc : bannedHeroIds sc = bannedHeroIds s)
    by (unfold sc; destruct (animationFrameRef s); reflexivity).
  rewrite <- Hsc. clearbody sc.
  set (sm := set_selectedHero None (set_isSpinning true (set_isSpinningRef true sc))).
  change (bannedHeroIds sc) with (bannedHeroIds sm). clearbody sm.
  destruct (measureHeroSlotWidth_eq sm) as (w & -> & _).
  set (s1 := set_heroSlotWidth w.1 (set_heroSlotWidthRef w.2 sm)).
  change (bannedHeroIds sm) with (bannedHeroIds s1).
  generalize (heroSlotWidthRef s1). clearbody s1. intros slotWidth.
  destruct (commitShuffled_filters (availableHeroes s1) s1) as (_ & <- & _).
  generalize (commitShuffled (availableHeroes s1) s1). intros s2.
  destruct (Z.of_nat (length (baseHeroesRef s2)) =? 0)%Z; [reflexivity |].
  match goal with |- context [pickRandomIndex ?n ?st] =>
    destruct (pickRandomIndex_state n st) as (p1 & Hst);
    destruct (pickRandomIndex n st) as [ri s4]
  end.
  cbn [fst snd] in Hst. subst s4. cbv zeta.
  match goal with |- context [applyVisualOffset ?o ?st] =>
    destruct (applyVisualOffset_eq o st) as (r & -> & _)
  end.
  reflexivity.
Qed.

(** The frames of a spin that has finished have called [playWinSound]
    exactly once. *)
Lemma runFrames_finished_win (timestamps : list Q) :
  forall (s : Roulette) handle cb,
    rafQueue s = [(handle, cb)] ->
    rafQueue (runFrames timestamps s) = [] ->
    exists new,
      sounds (runFrames timestamps s) = sounds s ++ new /\ winCalls new = [tt].
Proof.
  induction timestamps as [| t rest IH]; intros s h cb Hq Hdone.
  - change (runFrames [] s) with s in Hdone. congruence.
  - revert Hdone. rewrite runFrames_cons, (animationFrame_single t s h cb Hq).
    assert (Htick : winCalls (tickOf t cb) = [])
      by (destruct (tickOf_cases t cb) as [-> | ->]; reflexivity).
    destruct (Qlt_le_dec (progressAt t cb) 1) as [Hp | Hp].
    + destruct (step_continue t cb (set_rafQueue [] s) Hp)
        as (s' & -> & Hs & Hq' & _).
      cbn in Hs, Hq'. intros Hdone.
      destruct (IH (requestAnimationFrame (nextClosure t cb) s')
                  (rafNext s') (nextClosure t cb))
        as (new & Hnew & Hwin); [cbn; rewrite Hq'; reflexivity | exact Hdone |].
      exists (tickOf t cb ++ new). cbn in Hnew. rewrite Hnew, Hs, app_assoc.
      split; [reflexivity |]. rewrite winCalls_app, Htick. exact Hwin.
    + destruct (step_finish t cb (set_rafQueue [] s) Hp)
        as (_ & _ & _ & _ & _ & _ & Hs & Hq' & _).
      cbn in Hs, Hq'. rewrite runFrames_idle by exact Hq'. intros _.
      exists (tickOf t cb ++ [Win]). split; [exact Hs |].
      rewrite winCalls_app, Htick. reflexivity.
Qed.


(** What a spin over a non-empty filtered list gives: the closure of its
    first frame alone in the queue, a winner that is an active hero, and
    frames that finish. *)
Lemma spin_over_active_pool (s : Roulette) :
  oneLoop s -> isSpinningRef s = false -> activeHeroes s <> [] ->
  unitOracle (rand s) ->
  exists cb hero,
    rafQueue (spinRoulette s) = [(rafNext s, cb)] /\
    freshClosure cb /\
    Step.randomHero cb = Some hero /\
    hero ∈ activeHeroes s /\ heroId hero ∉ bannedHeroIds s /\
    isSpinningRef (spinRoulette s) = true /\
    selectedHero (spinRoulette s) = None /\
    sounds (spinRoulette s) = sounds s.
Proof.
  intros Hone Hidle Hactive Hr.
  assert (Hpool : availableHeroes s <> [])
    by (rewrite availableHeroes_active; assumption).
  destruct (spinRoulette_queue s Hone Hidle Hpool Hr)
    as (cb & Hq & _ & Hsp & Hsel & Hs & _ & _ & _ & Hfresh & Hperm & _).
  pose proof Hfresh as (Hrange & _ & Hhero & _).
  destruct (jsIndex_in_range (Step.shuffledHeroes cb) (Step.randomIndex cb))
    as (hero & Hjs & Hlook); [apply Hrange | apply Hrange |].
  assert (Hin : hero ∈ activeHeroes s).
  { rewrite <- (availableHeroes_active s Hactive), <- Hperm.
    eapply list_elem_of_lookup_2. exact Hlook. }
  exists cb, hero. split; [exact Hq |]. split; [exact Hfresh |].
  split; [congruence |]. split; [exact Hin |].
  split; [apply (activeHeroes_spec s), Hin |].
  repeat split; assumption.
Qed.

(** Along the frames of a spin over a non-empty filtered list neither
    effect has anything to do: no banned winner is shown, and the idle
    effect asks for no re-centring. *)
Lemma spin_effects_quiet (s : Roulette) (timestamps : list Q) :
  oneLoop s -> isSpinningRef s = false -> activeHeroes s <> [] ->
  unitOracle (rand s) ->
  let sf := runFrames timestamps (spinRoulette s) in
  dropBannedSelection sf = sf /\ idleRecentre sf = None.
Proof.
  intros Hone Hidle Hactive Hr sf.
  destruct (spin_over_active_pool s Hone Hidle Hactive Hr)
    as (cb & hero & Hq & _ & Hhero & _ & Hnb & Hsp & Hsel & _).
  destruct (runFrames_outcome timestamps (spinRoulette s) _ cb Hq) as [_ Hout].
  fold sf in Hout. unfold dropBannedSelection, idleRecentre.
  destruct Hout as [(h' & cb' & _ & _ & Hsp' & Hsel') | (_ & F2 & _ & _ & F5 & _)].
  - rewrite Hsel', Hsel, Hsp', Hsp. split; reflexivity.
  - rewrite F5, Hhero, F2.
    assert (Hb : bannedHeroIds sf = bannedHeroIds s)
      by (unfold sf; rewrite bannedHeroIds_runFrames; apply bannedHeroIds_spinRoulette).
    rewrite Hb, bool_decide_false by exact Hnb. split; reflexivity.
Qed.

(** A first frame at a non-zero timestamp, a second one a spin duration
    later and any further frames leave a finished spin: idle, nothing
    pending, the stored hero published, one call of [playWinSound]. *)
Lemma spin_finishes (s : Roulette) handle cb (t1 t2 : Q) (rest : list Q) :
  rafQueue s = [(handle, cb)] -> isSpinningRef s = true ->
  Step.animationStart cb = 0 -> 0 < Step.spinDuration cb ->
  ~ t1 == 0 -> t1 + Step.spinDuration cb <= t2 ->
  let sf := runFrames (t1 :: t2 :: rest) s in
  isSpinningRef sf = false /\ isSpinning sf = false /\ rafQueue sf = [] /\
  animationFrameRef sf = None /\
  selectedHero sf = Step.randomHero cb /\
  virtualOffsetRef sf = Step.finalOffset cb /\
  exists new, sounds sf = sounds s ++ new /\ winCalls new = [tt].
Proof.
  intros Hq Hsp Hstart Hd Ht1 Ht2 sf.
  pose proof (two_frames_finish s handle cb t1 t2 Hq Hstart Hd Ht1 Ht2) as Hfin.
  destruct (runFrames_outcome [t1; t2] s handle cb Hq) as [_ Hout].
  destruct Hout as [(h' & cb' & _ & _ & Hsp' & _) | (F1 & F2 & F3 & F4 & F5 & F6 & _)];
    [congruence |].
  destruct (runFrames_finished_win [t1; t2] s handle cb Hq F1) as (new & Hnew & Hwin).
  assert (E : sf = runFrames [t1; t2] s).
  { unfold sf. rewrite !runFrames_cons.
    change (runFrames [] ?x) with x. apply runFrames_idle.
    rewrite !runFrames_cons in F1. exact F1. }
  rewrite E. repeat (split; [assumption |]). exists new. split; assumption.
Qed.

(** The winner the effect on the ban set leaves. *)
Lemma dropBannedSelection_winner (s : Roulette) (hero : Hero) :
  selectedHero s = Some hero ->
  selectedHero (dropBannedSelection s)
  = if bool_decide (heroId hero ∈ bannedHeroIds s) then None else Some hero.
Proof.
  intros H. unfold dropBannedSelection. rewrite H.
  destruct (bool_decide (heroId hero ∈ bannedHeroIds s)); [reflexivity | exact H].
Qed.

Lemma dropBannedSelection_none (s : Roulette) :
  selectedHero s = None -> dropBannedSelection s = s.
Proof. intros H. unfold dropBannedSelection. rewrite H. reflexivity. Qed.

(** ** Claims on the spin controller *)

(** C1 (as the code has it): a spin requested while the catalog is empty,
    which is when the list the spin draws from is empty, schedules no frame
    callback and plays nothing; from the idle phase it ends idle with no
    winner and no recorded frame handle; and in every state the component
    can reach, an empty catalog means the phase is idle.  When only the
    filtered list is empty, the catalog being non-empty, a spin requested
    from the idle phase is not a no-op: it draws from the whole catalog,
    enters the spinning phase and schedules its first frame.
    [spinRoulette] is a total function of the state: none of its steps can
    raise. *)
Theorem C1_spin_on_empty_catalog_is_noop :
  (forall s, availableHeroes s = [] <-> heroes s = []) /\
  (forall s,
      heroes s = [] ->
      let s' := spinRoulette s in
      rafNext s' = rafNext s /\ sounds s' = sounds s /\
      (forall entry, entry ∈ rafQueue s' -> entry ∈ rafQueue s) /\
      (isSpinningRef s = false ->
       isSpinningRef s' = false /\ isSpinning s' = false /\
       selectedHero s' = None /\ animationFrameRef s' = None)) /\
  (forall s,
      oneLoop s -> isSpinningRef s = false -> unitOracle (rand s) ->
      activeHeroes s = [] -> heroes s <> [] ->
      let s' := spinRoulette s in
      exists cb,
        rafQueue s' = [(rafNext s, cb)] /\
        animationFrameRef s' = Some (rafNext s) /\
        isSpinningRef s' = true /\
        Step.shuffledHeroes cb ≡ₚ heroes s) /\
  (forall catalog roles strip rnd events,
      let s := run events (mount catalog roles strip rnd) in
      heroes s = [] -> isSpinningRef s = false).
Proof.
  split; [exact availableHeroes_nil |].
  split; [| split].
  - intros s Hcat s'. subst s'.
    assert (Hpool : availableHeroes s = []) by (apply availableHeroes_nil; exact Hcat).
    destruct (isSpinningRef s) eqn:Hidle.
    + rewrite spinRoulette_spinning by exact Hidle.
      split; [reflexivity |]. split; [reflexivity |].
      split; [auto | discriminate].
    + destruct (spinRoulette_empty s Hidle Hpool)
        as (H1 & H2 & H3 & H4 & H5 & H6 & H7 & _).
      split; [exact H6 |]. split; [exact H7 |]. split; [| intros _; auto].
      intros entry. rewrite H5. unfold afterCancel.
      destruct (animationFrameRef s); [| auto].
      intros Hin. apply list_elem_of_filter in Hin. apply Hin.
  - intros s Hone Hidle Hr Hactive Hcat s'. subst s'.
    assert (Hav : availableHeroes s = heroes s)
      by (apply availableHeroes_fallback; exact Hactive).
    assert (Hpool : availableHeroes s <> []) by (rewrite Hav; exact Hcat).
    destruct (spinRoulette_queue s Hone Hidle Hpool Hr)
      as (cb & Hq & Ha & Hsp & _ & _ & _ & _ & _ & _ & Hperm & _).
    exists cb. rewrite <- Hav. repeat split; assumption.
  - intros catalog roles strip rnd events s Hcat.
    destruct (reachable_invariants events (mount catalog roles strip rnd)
                (oneLoop_mount _ _ _ _) (spinningHasPool_mount _ _ _ _))
      as [_ Hinv].
    fold s in Hinv. destruct (isSpinningRef s) eqn:E; [| reflexivity].
    exfalso. apply (Hinv E). exact Hcat.
Qed.

Lemma C1_empty_catalog_witness :
  let s' := spinRoulette demoEmpty in
  rafNext s' = rafNext demoEmpty /\ sounds s' = sounds demoEmpty /\
  isSpinningRef s' = false /\ isSpinning s' = false /\
  selectedHero s' = None /\ animationFrameRef s' = None /\
  (heroes (run [Spin; Frame 16; Reset; Spin] demoEmpty) = [] ->
   isSpinningRef (run [Spin; Frame 16; Reset; Spin] demoEmpty) = false).
Proof.
  destruct C1_spin_on_empty_catalog_is_noop as (_ & Hnoop & _ & Hreach).
  destruct (Hnoop demoEmpty) as (H1 & H2 & _ & H4); [reflexivity |].
  destruct H4 as (H5 & H6 & H7 & H8); [reflexivity |].
  repeat (split; [assumption |]).
  apply (Hreach [] ∅ (Some demoStrip) (fun _ => 1 # 2) [Spin; Frame 16; Reset; Spin]).
Defined.

(** C1 as stated fails: on the demo component with its three heroes banned
    the filtered list is empty and the phase idle, and a spin enters the
    spinning phase and schedules a frame callback. *)
Lemma C1_filtered_out_pool_counterexample :
  activeHeroes demoBanned = [] /\ isSpinningRef demoBanned = false /\
  rafQueue demoBanned = [] /\
  let s' := spinRoulette demoBanned in
  isSpinningRef s' = true /\ isSpinning s' = true /\
  animationFrameRef s' = Some 1%positive /\
  length (rafQueue s') = 1%nat /\
  s' <> demoBanned.
Proof.
  split; [vm_compute; reflexivity |].
  split; [vm_compute; reflexivity |].
  split; [vm_compute; reflexivity |].
  cbv zeta.
  split; [vm_compute; reflexivity |].
  split; [vm_compute; reflexivity |].
  split; [vm_compute; reflexivity |].
  split; [vm_compute; reflexivity |].
  intros E. apply (f_equal isSpinningRef) in E. vm_compute in E. discriminate E.
Qed.


(** C2 (as the code has it): on an idle component with a non-empty list
    to draw from and draws in [0, 1), the index chosen by a spin lies in
    [0, poolSize); when the list has more than one hero, the first draw
    after the shuffle gives index 0 and the second is below 0.35, the index
    is the re-rolled one, [1 + floor(third draw * (poolSize - 1))], and lies
    in [1, poolSize), otherwise it is the index of the first draw; the hero
    stored for publication is the one at that index of the shuffled list
    just committed, a member of the list before the spin and of the
    catalog; a list of one hero yields that hero.  The spin finishes: after
    a first frame at a non-zero timestamp, a frame a spin duration later and
    any further frames, the phase is idle.  The winner the component shows
    once the effect on the ban set has run is none while the spin runs, and
    after it that hero unless it is banned, none if it is.  When the
    filtered list is not empty, the hero is one of it, hence not banned:
    the frames publish it, and neither that effect nor the idle effect has
    anything to do. *)
Theorem C2_selected_index_and_winner (s : Roulette) :
  isSpinningRef s = false -> availableHeroes s <> [] -> unitOracle (rand s) ->
  exists cb s' hero,
    spinRoulette s = requestAnimationFrame cb s' /\
    poolSize cb = Z.of_nat (length (availableHeroes s)) /\
    ((0 <= Step.randomIndex cb)%Z /\ (Step.randomIndex cb < poolSize cb)%Z) /\
    (let p := (randPos s + (length (availableHeroes s) - 1))%nat in
     let n := poolSize cb in
     ((1 < n)%Z ->
      Qfloor (rand s p * inject_Z n) = 0%Z ->
      rand s (S p) < 35 # 100 ->
      Step.randomIndex cb
        = (1 + Qfloor (rand s (S (S p)) * inject_Z (n - 1)))%Z /\
      (1 <= Step.randomIndex cb)%Z /\ (Step.randomIndex cb < n)%Z) /\
     ((n <= 1)%Z \/ Qfloor (rand s p * inject_Z n) <> 0%Z \/
      35 # 100 <= rand s (S p) ->
      Step.randomIndex cb = Qfloor (rand s p * inject_Z n))) /\
    baseHeroesRef (spinRoulette s) = Step.shuffledHeroes cb /\
    Step.shuffledHeroes cb ≡ₚ availableHeroes s /\
    Step.shuffledHeroes cb !! Z.to_nat (Step.randomIndex cb) = Some hero /\
    Step.randomHero cb = Some hero /\
    hero ∈ availableHeroes s /\ hero ∈ heroes s /\
    (length (availableHeroes s) = 1%nat -> availableHeroes s = [hero]) /\
    (activeHeroes s <> [] ->
     availableHeroes s = activeHeroes s /\ hero ∈ activeHeroes s /\
     heroId hero ∉ bannedHeroIds s) /\
    (oneLoop s ->
     (forall t1 t2 rest,
         ~ t1 == 0 -> t1 + Step.spinDuration cb <= t2 ->
         isSpinningRef (runFrames (t1 :: t2 :: rest) (spinRoulette s)) = false) /\
     (forall timestamps,
         let sf := runFrames timestamps (spinRoulette s) in
         (isSpinningRef sf = true /\ selectedHero (dropBannedSelection sf) = None) \/
         (isSpinningRef sf = false /\
          selectedHero (dropBannedSelection sf)
          = if bool_decide (heroId hero ∈ bannedHeroIds s) then None
            else Some hero)) /\
     (activeHeroes s <> [] ->
      forall timestamps,
        let sf := runFrames timestamps (spinRoulette s) in
        dropBannedSelection sf = sf /\ idleRecentre sf = None /\
        (isSpinningRef sf = false -> selectedHero sf = Some hero))).
Proof.
  intros Hidle Hpool Hr.
  destruct (spinRoulette_index_and_winner s Hidle Hpool Hr)
    as (cb & s' & hero & E & Hsize & Hrange & Hroll & Hb & Hperm & Hlook & Hhero
        & Hin & Hone1 & Hframes).
  exists cb, s', hero.
  split; [exact E |]. split; [exact Hsize |]. split; [exact Hrange |].
  split; [exact Hroll |]. split; [exact Hb |]. split; [exact Hperm |].
  split; [exact Hlook |]. split; [exact Hhero |]. split; [exact Hin |].
  split.
  { revert Hin. unfold availableHeroes.
    destruct (0 <? length (activeHeroes s))%nat; [| auto].
    intros Hin. apply (activeHeroes_spec s), Hin. }
  split; [exact Hone1 |]. split.
  { intros Hactive. pose proof (availableHeroes_active s Hactive) as Hav.
    split; [exact Hav |]. rewrite Hav in Hin. split; [exact Hin |].
    apply (activeHeroes_spec s), Hin. }
  intros Hone.
  destruct (spinRoulette_queue s Hone Hidle Hpool Hr)
    as (cb2 & Hq & _ & Hsp & _ & _ & _ & _ & _ & Hfresh & _).
  assert (Ecb : cb2 = cb).
  { revert Hq. rewrite E. cbn.
    destruct (rafQueue s') as [| e [| e' q]]; cbn; intros [=]; congruence. }
  subst cb2.
  split; [| split].
  - intros t1 t2 rest Ht1 Ht2.
    pose proof Hfresh as (_ & _ & (_ & _ & _ & _ & _ & Hstart & _)).
    apply (spin_finishes (spinRoulette s) (rafNext s) cb t1 t2 rest Hq Hsp Hstart
             (spinDuration_pos cb Hfresh) Ht1 Ht2).
  - intros timestamps sf.
    assert (Hbn : bannedHeroIds sf = bannedHeroIds s)
      by (unfold sf; rewrite bannedHeroIds_runFrames; apply bannedHeroIds_spinRoulette).
    destruct (Hframes Hone timestamps) as [[H1 H2] | [H1 H2]]; fold sf in H1, H2.
    + left. split; [exact H1 |]. rewrite (dropBannedSelection_none sf H2). exact H2.
    + right. split; [exact H1 |].
      rewrite (dropBannedSelection_winner sf hero H2), Hbn. reflexivity.
  - intros Hactive timestamps sf.
    destruct (spin_effects_quiet s timestamps Hone Hidle Hactive Hr) as [Q1 Q2].
    split; [exact Q1 |]. split; [exact Q2 |].
    intros Hdone. destruct (Hframes Hone timestamps) as [[H1 _] | [_ H2]];
      [fold sf in H1; congruence | exact H2].
Qed.

(** On the component whose oracle gives 0, then 0.1, then 0.9 at the choice
    of the index, the re-roll fires: the index is 2, the hero is the one at
    index 2 of the shuffled list, and frames at 1000 and 30000 publish it. *)
Lemma C2_reroll_witness :
  exists cb s' hero,
    spinRoulette demoReroll = requestAnimationFrame cb s' /\
    Step.randomIndex cb = 2%Z /\
    Step.shuffledHeroes cb !! 2%nat = Some hero /\
    Step.randomHero cb = Some hero /\
    hero ∈ activeHeroes demoReroll /\
    selectedHero (runFrames [1000; 30000] (spinRoulette demoReroll)) = Some hero.
Proof.
  assert (Hr : unitOracle (rand demoReroll)).
  { intros k. cbn.
    do 7 (destruct k as [| k];
          [split; [apply Qle_bool_iff | apply Qlt_bool_iff]; reflexivity |]).
    split; [apply Qle_bool_iff | apply Qlt_bool_iff]; reflexivity. }
  assert (Hpool : availableHeroes demoReroll <> []) by (vm_compute; discriminate).
  assert (Hactive : activeHeroes demoReroll <> []) by (vm_compute; discriminate).
  assert (Hone : oneLoop demoReroll).
  { split; [vm_compute; lia |]. intros entry Hin. vm_compute in Hin. inversion Hin. }
  destruct (C2_selected_index_and_winner demoReroll eq_refl Hpool Hr)
    as (cb & s' & hero & E & Hsize & _ & [Hreroll _] & _ & _ & Hlook & Hhero & _
        & _ & _ & Hact & Hpub).
  cbv zeta in Hreroll. rewrite Hsize in Hreroll.
  destruct Hreroll as (Hidx & _);
    [vm_compute; reflexivity | vm_compute; reflexivity | vm_compute; reflexivity |].
  assert (Hidx2 : Step.randomIndex cb = 2%Z) by (rewrite Hidx; vm_compute; reflexivity).
  rewrite Hidx2 in Hlook.
  destruct (Hact Hactive) as (_ & Hin & _).
  destruct (Hpub Hone) as (_ & _ & Hshown).
  destruct (Hshown Hactive [1000; 30000]) as (_ & _ & Hsel).
  exists cb, s', hero. split; [exact E |]. split; [exact Hidx2 |].
  split; [exact Hlook |]. split; [exact Hhero |]. split; [exact Hin |].
  apply Hsel. vm_compute. reflexivity.
Defined.

(** C2 as stated fails: on the demo component with its three heroes banned
    the filtered list is empty and the spin draws from the catalog; the
    frames publish the hero stored by the spin, which is banned, and the
    effect on the ban set clears it: the component shows no winner, and the
    idle effect asks for the strip to be re-centred. *)
Lemma C2_banned_fallback_counterexample :
  let sf := runFrames [1000; 30000] (spinRoulette demoBanned) in
  activeHeroes demoBanned = [] /\
  exists cb hero,
    rafQueue (spinRoulette demoBanned) = [(1%positive, cb)] /\
    Step.shuffledHeroes cb <> [] /\ Step.randomHero cb = Some hero /\
    isSpinningRef sf = false /\
    selectedHero sf = Some hero /\ heroId hero ∈ bannedHeroIds sf /\
    selectedHero (dropBannedSelection sf) = None /\
    idleRecentre (dropBannedSelection sf) = Some (- (504)).
Proof.
  split; [vm_compute; reflexivity |].
  eexists. eexists. split; [vm_compute; reflexivity |].
  split; [vm_compute; discriminate |].
  split; [vm_compute; reflexivity |].
  split; [vm_compute; reflexivity |].
  split; [vm_compute; reflexivity |].
  split; [apply (bool_decide_unpack _); vm_compute; exact I |].
  split; vm_compute; reflexivity.
Qed.






(** ** Revised properties of the spin and the geometry *)

(** The travel of a spin, for the functions [spinRoulette] and [step] alone. *)
Lemma spin_travel (s : Roulette) :
  oneLoop s -> isSpinningRef s = false -> availableHeroes s <> [] ->
  unitOracle (rand s) -> 0 < heroSlotWidthRef s ->
  exists cb,
    rafQueue (spinRoulette s) = [(rafNext s, cb)] /\
    let L := inject_Z (poolSize cb) * Step.slotWidth cb in
    0 < L /\
    virtualOffsetRef (spinRoulette s) = Step.startOffset cb /\
    Step.startOffset cb == - (inject_Z middleRepeatIndex * L) /\
    2 * L <= Step.startOffset cb - Step.finalOffset cb /\
    Step.startOffset cb - Step.finalOffset cb < 6 * L /\
    (11800 <= Step.spinDuration cb /\ Step.spinDuration cb <= 17200) /\
    (forall timestamps,
        let x := virtualOffsetRef (runFrames timestamps (spinRoulette s)) in
        Step.finalOffset cb <= x /\ x <= Step.startOffset cb) /\
    (forall t0 timestamps t,
        nondecreasing t0 (timestamps ++ [t]) ->
        virtualOffsetRef (runFrames (timestamps ++ [t]) (spinRoulette s))
        <= virtualOffsetRef (runFrames timestamps (spinRoulette s))).
Proof.
  intros Hone Hidle Hpool Hr Hw.
  destruct (spinRoulette_started s Hidle Hpool Hr)
    as (cb & s' & E & Hfresh & Hperm & Hsw & _ & _ & _ & _ & _ & Hq & Hn & _ & _
        & Hv & _).
  specialize (Hsw Hw).
  assert (Hq0 : rafQueue (spinRoulette s) = [(rafNext s, cb)]).
  { rewrite E. cbn. rewrite Hq, (afterCancel_nil s Hone), Hn. reflexivity. }
  assert (Hv0 : virtualOffsetRef (spinRoulette s) = Step.startOffset cb)
    by (rewrite E; exact Hv).
  assert (Hpos : (0 < poolSize cb)%Z).
  { unfold poolSize. rewrite (Permutation_length Hperm).
    destruct (availableHeroes s); [congruence | cbn; lia]. }
  destruct (freshClosure_travel cb Hfresh Hsw Hpos) as (HL & H1 & H2 & H3 & H4 & H5).
  pose proof Hfresh as (_ & _ & (_ & _ & _ & _ & Htd & Hstart & _)).
  assert (Htd' : Step.totalDistance cb == Step.finalOffset cb - Step.startOffset cb)
    by (rewrite Htd; reflexivity).
  exists cb. split; [exact Hq0 |]. cbv zeta.
  split; [exact HL |]. split; [exact Hv0 |]. split; [exact H1 |].
  split; [exact H2 |]. split; [exact H3 |]. split; [exact H5 |]. split.
  - intros timestamps.
    apply (runFrames_offset_between timestamps _ _ cb Hq0 Htd' H4).
    rewrite Hv0. split; [lra | apply Qle_refl].
  - intros t0 timestamps t Hts.
    apply (runFrames_offset_step timestamps t t0 _ _ cb Hq0 Htd' H4);
      [apply spinDuration_pos, Hfresh | | exact Hts].
    rewrite Hv0, currentOffsetAt_fresh by exact Hstart. reflexivity.
Qed.


(** X8: the hero a spin started from the idle phase stores as its winner is
    a hero of the list the spin draws from and of the catalog; when the
    filters leave some hero, it is an active hero: one that is not banned
    and, if roles are selected, has one of them. *)
Theorem spin_winner_passes_filters (s : Roulette) :
  isSpinningRef s = false -> availableHeroes s <> [] -> unitOracle (rand s) ->
  exists cb s' hero,
    spinRoulette s = requestAnimationFrame cb s' /\
    Step.randomHero cb = Some hero /\
    hero ∈ availableHeroes s /\ hero ∈ heroes s /\
    (activeHeroes s <> [] ->
     hero ∈ activeHeroes s /\
     heroId hero ∉ bannedHeroIds s /\
     (selectedRoles s = [] \/
      exists role, role ∈ default [] (heroesRolesMap s !! displayName hero) /\
                   role ∈ selectedRoles s)).
Proof.
  intros Hidle Hpool Hr.
  destruct (spinRoulette_winner s Hidle Hpool Hr)
    as (cb & s' & hero & E & _ & _ & _ & Hhero & Hin).
  exists cb, s', hero. split; [exact E |]. split; [exact Hhero |].
  split; [exact Hin |]. split.
  - unfold availableHeroes in Hin.
    destruct (0 <? length (activeHeroes s))%nat; [| exact Hin].
    apply (activeHeroes_spec s), Hin.
  - intros Hactive. rewrite (availableHeroes_active s Hactive) in Hin.
    split; [exact Hin |]. apply (activeHeroes_spec s) in Hin. apply Hin.
Qed.

Lemma spin_winner_passes_filters_witness :
  exists cb s' hero,
    spinRoulette (toggleHeroBan "3" demo) = requestAnimationFrame cb s' /\
    Step.randomHero cb = Some hero /\
    hero ∈ heroes (toggleHeroBan "3" demo) /\
    heroId hero ∉ bannedHeroIds (toggleHeroBan "3" demo).
Proof.
  destruct (spin_winner_passes_filters (toggleHeroBan "3" demo))
    as (cb & s' & hero & E & Hhero & _ & Hcat & Hactive).
  - reflexivity.
  - vm_compute. discriminate.
  - intros k. split; [apply Qle_bool_iff | apply Qlt_bool_iff]; reflexivity.
  - destruct Hactive as (_ & Hnb & _); [vm_compute; discriminate |].
    exists cb, s', hero. repeat split; assumption.
Defined.

(** X9: on a strip whose first slot is rendered with a non-zero width,
    measuring sets state and ref of the slot width to the width of that
    slot plus its two margins, when this sum is positive and differs from
    the current ref by more than 0.5, and changes nothing otherwise; it
    changes nothing without a strip or without a first slot; so every
    change is to that sum; measuring twice is measuring once; a positive
    width stays positive and a state equal to its ref stays so. *)
Theorem measureHeroSlotWidth_stable (s : Roulette) :
  (forall el rect,
      rouletteRef s = Some el -> firstHero el = Some rect ->
      let c := rectWidth rect + marginLeft rect + marginRight rect in
      (~ rectWidth rect == 0 -> 0 < c -> 1 # 2 < Qabs (c - heroSlotWidthRef s) ->
       measureHeroSlotWidth s = set_heroSlotWidth c (set_heroSlotWidthRef c s)) /\
      (rectWidth rect == 0 \/ c <= 0 \/ Qabs (c - heroSlotWidthRef s) <= 1 # 2 ->
       measureHeroSlotWidth s = s)) /\
  (rouletteRef s = None -> measureHeroSlotWidth s = s) /\
  (forall el, rouletteRef s = Some el -> firstHero el = None ->
              measureHeroSlotWidth s = s) /\
  (measureHeroSlotWidth s = s \/
   exists el rect,
     rouletteRef s = Some el /\ firstHero el = Some rect /\
     let c := rectWidth rect + marginLeft rect + marginRight rect in
     0 < c /\ 1 # 2 < Qabs (c - heroSlotWidthRef s) /\
     measureHeroSlotWidth s = set_heroSlotWidth c (set_heroSlotWidthRef c s) /\
     heroSlotWidthRef (measureHeroSlotWidth s) = c /\
     heroSlotWidth (measureHeroSlotWidth s) = c) /\
  measureHeroSlotWidth (measureHeroSlotWidth s) = measureHeroSlotWidth s /\
  (0 < heroSlotWidthRef s -> 0 < heroSlotWidthRef (measureHeroSlotWidth s)) /\
  (heroSlotWidth s = heroSlotWidthRef s ->
   heroSlotWidth (measureHeroSlotWidth s)
   = heroSlotWidthRef (measureHeroSlotWidth s)).
Proof.
  split.
  { intros el rect Hel Hrect c. unfold measureHeroSlotWidth. rewrite Hel, Hrect.
    fold c. split.
    - intros Hw Hc Hd.
      rewrite (Qeq_bool_false_of_neq _ _ Hw).
      rewrite (proj2 (Qle_bool_false _ _) Hc).
      rewrite (proj2 (Qle_bool_false _ _) Hd). reflexivity.
    - intros [Hw | [Hc | Hd]].
      + rewrite (proj2 (Qeq_bool_iff _ _) Hw). reflexivity.
      + destruct (Qeq_bool (rectWidth rect) 0); [reflexivity |].
        rewrite (proj2 (Qle_bool_iff _ _) Hc). reflexivity.
      + destruct (Qeq_bool (rectWidth rect) 0); [reflexivity |].
        destruct (Qle_bool c 0); [reflexivity |].
        rewrite (proj2 (Qle_bool_iff _ _) Hd). reflexivity. }
  split; [intros Hel; unfold measureHeroSlotWidth; rewrite Hel; reflexivity |].
  split.
  { intros el Hel Hfirst. unfold measureHeroSlotWidth. rewrite Hel, Hfirst.
    reflexivity. }
  destruct (measureHeroSlotWidth_cases s)
    as [E | (el & rect & Eel & Erect & Hw & Hc & Hd & E)]; cbv zeta in *.
  - rewrite !E. split; [left; reflexivity |].
    split; [reflexivity |]. split; auto.
  - rewrite E. split.
    { right. exists el, rect. repeat split; assumption. }
    split; [| split; [intros _; exact Hc | reflexivity]].
    unfold measureHeroSlotWidth at 1. cbn. rewrite Eel, Erect.
    rewrite (Qeq_bool_false_of_neq _ _ Hw).
    rewrite (proj2 (Qle_bool_false _ 0) Hc).
    match goal with |- context [Qle_bool (Qabs ?x) ?y] =>
      assert (Hz : Qle_bool (Qabs x) y = true)
    end.
    { apply Qle_bool_iff, Qabs_Qle_condition. split; lra. }
    rewrite Hz. reflexivity.
Qed.

Lemma measureHeroSlotWidth_witness :
  heroSlotWidthRef (measureHeroSlotWidth demoNarrow) = 120 + 10 + 10 /\
  measureHeroSlotWidth (measureHeroSlotWidth demoNarrow)
  = measureHeroSlotWidth demoNarrow /\
  0 < heroSlotWidthRef (measureHeroSlotWidth demoNarrow) /\
  heroSlotWidth (measureHeroSlotWidth demoNarrow)
  = heroSlotWidthRef (measureHeroSlotWidth demoNarrow).
Proof.
  destruct (measureHeroSlotWidth_stable demoNarrow)
    as (Hset & _ & _ & _ & H3 & H4 & H5).
  split.
  { destruct (Hset {| transform := None;
                      firstHero := Some {| rectWidth := 120; marginLeft := 10;
                                           marginRight := 10 |} |}
                   {| rectWidth := 120; marginLeft := 10; marginRight := 10 |})
      as [Hc _]; [reflexivity | reflexivity |].
    cbv zeta in Hc. rewrite Hc; [reflexivity | | |].
    - intros H. discriminate H.
    - reflexivity.
    - apply Qlt_bool_iff. reflexivity. }
  split; [exact H3 |].
  split; [apply H4; reflexivity | apply H5; reflexivity].
Defined.

(** X12: a spin over a non-empty filtered list travels to the left by at
    least two and less than six loops of the strip, from the start of the
    middle repeat, in 11.8 to 17.2 seconds; whatever the frames, the raw
    offset never leaves the interval between the final and the start
    offset, and neither the effect that clears a banned winner nor the idle
    effect that re-centres the strip has anything to do; and along
    timestamps that never go back the raw offset never moves back to the
    right. *)
Theorem spin_travel_bounds (s : Roulette) :
  oneLoop s -> isSpinningRef s = false -> activeHeroes s <> [] ->
  unitOracle (rand s) -> 0 < heroSlotWidthRef s ->
  exists cb,
    rafQueue (spinRoulette s) = [(rafNext s, cb)] /\
    poolSize cb = Z.of_nat (length (activeHeroes s)) /\
    let L := inject_Z (poolSize cb) * Step.slotWidth cb in
    0 < L /\
    virtualOffsetRef (spinRoulette s) = Step.startOffset cb /\
    Step.startOffset cb == - (inject_Z middleRepeatIndex * L) /\
    2 * L <= Step.startOffset cb - Step.finalOffset cb /\
    Step.startOffset cb - Step.finalOffset cb < 6 * L /\
    (11800 <= Step.spinDuration cb /\ Step.spinDuration cb <= 17200) /\
    (forall timestamps,
        let sf := runFrames timestamps (spinRoulette s) in
        Step.finalOffset cb <= virtualOffsetRef sf /\
        virtualOffsetRef sf <= Step.startOffset cb /\
        dropBannedSelection sf = sf /\ idleRecentre sf = None) /\
    (forall t0 timestamps t,
        nondecreasing t0 (timestamps ++ [t]) ->
        virtualOffsetRef (runFrames (timestamps ++ [t]) (spinRoulette s))
        <= virtualOffsetRef (runFrames timestamps (spinRoulette s))) /\
    (forall t1 t2 rest,
        ~ t1 == 0 -> t1 + Step.spinDuration cb <= t2 ->
        virtualOffsetRef (runFrames (t1 :: t2 :: rest) (spinRoulette s))
        = Step.finalOffset cb).
Proof.
  intros Hone Hidle Hactive Hr Hw.
  pose proof (availableHeroes_active s Hactive) as Hav.
  assert (Hpool : availableHeroes s <> []) by (rewrite Hav; exact Hactive).
  destruct (spin_travel s Hone Hidle Hpool Hr Hw)
    as (cb & Hq & HL & Hv & H1 & H2 & H3 & H5 & Hbetween & Hstep).
  destruct (spinRoulette_queue s Hone Hidle Hpool Hr)
    as (cb2 & Hq2 & _ & Hsp & _ & _ & _ & _ & _ & Hfresh & Hperm & _).
  assert (Ecb : cb2 = cb) by congruence. subst cb2.
  exists cb. split; [exact Hq |].
  split; [unfold poolSize; rewrite (Permutation_length Hperm), Hav; reflexivity |].
  cbv zeta. split; [exact HL |]. split; [exact Hv |]. split; [exact H1 |].
  split; [exact H2 |]. split; [exact H3 |]. split; [exact H5 |]. split.
  { intros timestamps. destruct (Hbetween timestamps) as [B1 B2].
    destruct (spin_effects_quiet s timestamps Hone Hidle Hactive Hr) as [Q1 Q2].
    split; [exact B1 |]. split; [exact B2 |]. split; [exact Q1 | exact Q2]. }
  split; [exact Hstep |].
  intros t1 t2 rest Ht1 Ht2.
  pose proof Hfresh as (_ & _ & (_ & _ & _ & _ & _ & Hstart & _)).
  apply (spin_finishes (spinRoulette s) (rafNext s) cb t1 t2 rest Hq Hsp Hstart
           (spinDuration_pos cb Hfresh) Ht1 Ht2).
Qed.

Lemma spin_travel_bounds_witness :
  exists cb,
    rafQueue (spinRoulette demo) = [(rafNext demo, cb)] /\
    (let sf := runFrames [1000; 5000] (spinRoulette demo) in
     Step.finalOffset cb <= virtualOffsetRef sf /\
     virtualOffsetRef sf <= Step.startOffset cb /\
     dropBannedSelection sf = sf /\ idleRecentre sf = None) /\
    virtualOffsetRef (runFrames [1000; 5000; 9000] (spinRoulette demo))
    <= virtualOffsetRef (runFrames [1000; 5000] (spinRoulette demo)).
Proof.
  destruct (spin_travel_bounds demo demo_oneLoop eq_refl)
    as (cb & Hq & _ & _ & _ & _ & _ & _ & _ & Hbetween & Hstep & _);
    [vm_compute; discriminate | exact demo_oracle | reflexivity |].
  exists cb. split; [exact Hq |]. split; [apply (Hbetween [1000; 5000]) |].
  apply (Hstep 0 [1000; 5000] 9000).
  cbn. repeat split; apply Qle_bool_iff; reflexivity.
Defined.


